(** * Verification of the RAG backend: chunker, answer composer, retriever
      and the ingest / ask orchestrators.

    The development is a shallow embedding of the backend's
      - [services/chunker.ts]    (document chunking),
      - [services/llm.ts]        (prompt assembly, answer generation, sources),
      - [services/pinecone.ts]   (vector index gateway),
      - [services/embeddings.ts] (embedding gateway),
      - [utils/errors.ts], [utils/response.ts],
      - [handlers/ingest.ts] and [handlers/ask.ts].

    Modelling choices:
      - a JavaScript string is the list of its UTF-16 code units ([N]);
        [trim], [slice] and the two regular expressions work on code units,
        as they do in the source (no [u] flag);
      - the sizes in the chunking options are integers ([Z]); other numbers
        (scores, vector components) are IEEE doubles ([float]);
      - the only loop of the chunker that the source does not bound, the hard
        split of an over-long sentence, runs on fuel: [None] is a loop that
        has not finished;
      - the handlers and gateways run in a state-and-exception monad over
        the state of the outside world, the module-level client cache, the
        environment, the console and a log of the calls that reached an
        external service;
      - the external services, [JSON.parse], the zod schemas and number
        formatting are an interface ([External.Services]). *)

From Stdlib Require Import ZArith NArith Lia Ascii String List Floats.
From stdpp Require Import base tactics option list numbers strings gmap pretty.
From Equations Require Import Equations.

Local Open Scope Z_scope.

(** * Part I: the program *)

(** ** JavaScript strings *)

Module JsString.

(** A string value: the list of its UTF-16 code units. *)
Abbreviation jsstring := (list N).

(** Literals of the source are ASCII; [lit] gives their code units. *)
Definition lit (s : string) : jsstring :=
  N_of_ascii <$> list_ascii_of_string s.

(** [s.length] *)
Definition len (s : jsstring) : Z := Z.of_nat (length s).

(** Truthiness of a string: only the empty string is falsy. *)
Definition truthy (s : jsstring) : bool :=
  match s with [] => false | _ :: _ => true end.

(** WhiteSpace and LineTerminator code units of ECMAScript: the set
    stripped by [String.prototype.trim] and matched by [\s]. *)
Definition is_space (c : N) : bool :=
  ((9 <=? c) && (c <=? 13) ||
   (c =? 32) || (c =? 160) || (c =? 5760) ||
   ((8192 <=? c) && (c <=? 8202)) ||
   (c =? 8232) || (c =? 8233) || (c =? 8239) || (c =? 8287) ||
   (c =? 12288) || (c =? 65279))%N.

Definition LF : N := 10%N.
Definition SP : N := 32%N.

Fixpoint dropWhile (p : N → bool) (s : jsstring) : jsstring :=
  match s with
  | [] => []
  | c :: r => if p c then dropWhile p r else s
  end.

Fixpoint takeWhile (p : N → bool) (s : jsstring) : jsstring :=
  match s with
  | [] => []
  | c :: r => if p c then c :: takeWhile p r else []
  end.

Definition trimStart (s : jsstring) : jsstring := dropWhile is_space s.
Definition trimEnd (s : jsstring) : jsstring :=
  reverse (dropWhile is_space (reverse s)).

(** [s.trim()] *)
Definition trim (s : jsstring) : jsstring := trimEnd (trimStart s).

(** Relative index of [slice]: negative counts from the end; the result is
    clamped to [0, length]. *)
Definition clampIndex (n : nat) (k : Z) : nat :=
  if k <? 0 then Z.to_nat (Z.max (Z.of_nat n + k) 0)
  else Z.to_nat (Z.min k (Z.of_nat n)).

(** [s.slice(start, end)] *)
Definition slice (s : jsstring) (start_ end_ : Z) : jsstring :=
  let from := clampIndex (length s) start_ in
  let to := clampIndex (length s) end_ in
  take (to - from)%nat (drop from s).

(** [`${a} ${b}`] *)
Definition joinSpace (a b : jsstring) : jsstring := a ++ SP :: b.

(** *** Regular-expression splitting

    [s.split(re)] for a regular expression that never matches the empty
    string.  A matcher gets the code unit before the current position (for
    a lookbehind) and the text from the current position on, and returns
    the length of the match that starts exactly there.  The loop is the one
    of [RegExp.prototype[@@split]]: try a match at [q]; on failure advance
    [q]; on success emit the piece gathered so far and restart after the
    match; the text after the last match is the final piece. *)
Definition matcher := option N → jsstring → option nat.

Equations split_loop (m : matcher) (prev : option N) (acc s : jsstring)
  : list jsstring by wf (length s) lt :=
  split_loop m prev acc [] := [acc];
  split_loop m prev acc (c :: r) with m prev (c :: r) := {
    | Some (S n) =>
        acc :: split_loop m (last (c :: take n r)) [] (drop n r)
    | _ => split_loop m (Some c) (acc ++ [c]) r
  }.
Next Obligation. intros. rewrite length_drop. simpl. lia. Qed.

Definition split (m : matcher) (s : jsstring) : list jsstring :=
  split_loop m None [] s.

(** Index of the last occurrence of [x] in [s]. *)
Fixpoint lastIndexOf (x : N) (s : jsstring) : option nat :=
  match s with
  | [] => None
  | c :: r =>
      match lastIndexOf x r with
      | Some j => Some (S j)
      | None => if (c =? x)%N then Some 0%nat else None
      end
  end.

(** [/\n\s*\n/] at the current position: a line feed, then the longest
    run of white space that still leaves a line feed to close the match.
    A line feed is white space itself, so the closing line feed is the
    last one inside the maximal white-space run after the opening one. *)
Definition re_paragraph_break : matcher := λ _ s,
  match s with
  | c :: r =>
      if (c =? LF)%N then
        match lastIndexOf LF (takeWhile is_space r) with
        | Some j => Some (S (S j))
        | None => None
        end
      else None
  | [] => None
  end.

(** The class [[.!?]]. *)
Definition is_terminator (c : N) : bool :=
  ((c =? 46) || (c =? 33) || (c =? 63))%N.

(** [/(?<=[.!?])\s+/] at the current position: the previous code unit is
    a terminator and a non-empty maximal run of white space starts here. *)
Definition re_sentence_break : matcher := λ prev s,
  match prev with
  | Some t =>
      if is_terminator t then
        match length (takeWhile is_space s) with
        | O => None
        | n => Some n
        end
      else None
  | None => None
  end.

End JsString.

(** ** The chunker ([services/chunker.ts]) *)

Module Chunker.
Import JsString.

Record Chunk := mkChunk {
  chunkId : jsstring;
  docId : jsstring;
  title : jsstring;
  text : jsstring;
}.

(** Both fields are optional in the source. *)
Record ChunkOptions := mkChunkOptions {
  maxChunkSize : option Z;
  minChunkSize : option Z;
}.

Definition DEFAULT_MAX_CHUNK_SIZE : Z := 500.
Definition DEFAULT_MIN_CHUNK_SIZE : Z := 100.

Definition splitIntoSentences (text : jsstring) : list jsstring :=
  filter (λ s, 0 < len (trim s)) (split re_sentence_break text).

(** The inner loop of [splitLargeParagraph]:
    [for (let i = 0; i < sentence.length; i += maxSize) chunks.push(...)].
    Nothing bounds the number of iterations in the source, so the model
    counts them down from [fuel]; [None] means the loop was still running
    when the fuel ran out. *)
Fixpoint hardSplit (fuel : nat) (sentence : jsstring) (maxSize i : Z)
    (chunks : list jsstring) : option (list jsstring) :=
  if i <? len sentence then
    match fuel with
    | O => None
    | S fuel' =>
        hardSplit fuel' sentence maxSize (i + maxSize)
          (chunks ++ [trim (slice sentence i (i + maxSize))])
    end
  else Some chunks.

(** [if (currentChunk) chunks.push(currentChunk.trim())] *)
Definition flush (chunks : list jsstring) (currentChunk : jsstring)
    : list jsstring :=
  if truthy currentChunk then chunks ++ [trim currentChunk] else chunks.

(** One iteration of [for (const sentence of sentences)] on the loop state
    [(chunks, currentChunk)]. *)
Definition sentenceStep (fuel : nat) (maxSize : Z)
    (st : list jsstring * jsstring) (sentence : jsstring)
    : option (list jsstring * jsstring) :=
  let '(chunks, currentChunk) := st in
  if maxSize <? len sentence then
    chunks' ← hardSplit fuel sentence maxSize 0 (flush chunks currentChunk);
    Some (chunks', [])
  else if maxSize <? len currentChunk + len sentence + 1 then
    Some (flush chunks currentChunk, sentence)
  else
    Some (chunks,
          if truthy currentChunk then joinSpace currentChunk sentence
          else sentence).

Fixpoint sentenceLoop (fuel : nat) (maxSize : Z)
    (st : list jsstring * jsstring) (sentences : list jsstring)
    : option (list jsstring * jsstring) :=
  match sentences with
  | [] => Some st
  | sentence :: rest =>
      st' ← sentenceStep fuel maxSize st sentence;
      sentenceLoop fuel maxSize st' rest
  end.

Definition splitLargeParagraph (fuel : nat) (paragraph : jsstring)
    (maxSize : Z) : option (list jsstring) :=
  if len paragraph <=? maxSize then Some [paragraph]
  else
    '(chunks, currentChunk) ←
      sentenceLoop fuel maxSize ([], []) (splitIntoSentences paragraph);
    Some (flush chunks currentChunk).

(** One iteration of [for (const chunk of chunks)] in [mergeSmallChunks]
    on the loop state [(merged, currentChunk)]. *)
Definition mergeStep (minSize maxSize : Z)
    (st : list jsstring * jsstring) (chunk : jsstring)
    : list jsstring * jsstring :=
  let '(merged, currentChunk) := st in
  if negb (truthy currentChunk) then (merged, chunk)
  else if len currentChunk <? minSize then
    let combined := joinSpace currentChunk chunk in
    if len combined <=? maxSize then (merged, combined)
    else (merged ++ [currentChunk], chunk)
  else (merged ++ [currentChunk], chunk).

(** The code after the loop of [mergeSmallChunks].  [last merged] is
    [Some] exactly when [merged.length > 0]. *)
Definition mergeFinish (minSize maxSize : Z)
    (st : list jsstring * jsstring) : list jsstring :=
  let '(merged, currentChunk) := st in
  if truthy currentChunk then
    match (if len currentChunk <? minSize then last merged else None) with
    | Some lastMerged =>
        let combined := joinSpace lastMerged currentChunk in
        if len combined <=? maxSize
        then <[(length merged - 1)%nat := combined]> merged
        else merged ++ [currentChunk]
    | None => merged ++ [currentChunk]
    end
  else merged.

Definition mergeSmallChunks (chunks : list jsstring) (minSize maxSize : Z)
    : list jsstring :=
  if (length chunks <=? 1)%nat then chunks
  else mergeFinish minSize maxSize
         (foldl (mergeStep minSize maxSize) ([], []) chunks).

(** [for (const paragraph of paragraphs) rawChunks.push(...subChunks)] *)
Fixpoint paragraphLoop (fuel : nat) (maxSize : Z)
    (rawChunks : list jsstring) (paragraphs : list jsstring)
    : option (list jsstring) :=
  match paragraphs with
  | [] => Some rawChunks
  | paragraph :: rest =>
      subChunks ← splitLargeParagraph fuel paragraph maxSize;
      paragraphLoop fuel maxSize (rawChunks ++ subChunks) rest
  end.

Definition splitParagraphs (trimmedContent : jsstring) : list jsstring :=
  filter (λ p, 0 < len p) (trim <$> split re_paragraph_break trimmedContent).

(** [`${docId}#chunk-${index}`] *)
Definition makeChunkId (docId : jsstring) (index : nat) : jsstring :=
  docId ++ lit "#chunk-" ++ lit (pretty index).

Definition chunkDocument (fuel : nat) (docId title content : jsstring)
    (options : option ChunkOptions) : option (list Chunk) :=
  let maxSize := default DEFAULT_MAX_CHUNK_SIZE (options ≫= maxChunkSize) in
  let minSize := default DEFAULT_MIN_CHUNK_SIZE (options ≫= minChunkSize) in
  let trimmedContent := trim content in
  if negb (truthy trimmedContent) then Some []
  else
    rawChunks ← paragraphLoop fuel maxSize [] (splitParagraphs trimmedContent);
    let mergedChunks := mergeSmallChunks rawChunks minSize maxSize in
    Some (imap (λ index text, mkChunk (makeChunkId docId index) docId title text)
            mergedChunks).

(** *** [getChunkStats]

    The four statistics are integers.  The average is computed as the
    source computes it, on doubles: the lengths are added one by one from
    [0], the sum is divided by the number of lengths, and the quotient is
    rounded by [Math.round]. *)
Record ChunkStats := mkChunkStats {
  count : Z;
  avgLength : Z;
  minLength : Z;
  maxLength : Z;
}.

(** A length as a [number]; exact below [2^53], which bounds the length
    of a JavaScript string. *)
Definition toNumber (n : Z) : float := PrimFloat.of_uint63 (Uint63.of_Z n).

(** [Math.round(x)]: the integer closest to [x], a tie going up, that is
    the floor of [x + 1/2] taken exactly.  A finite double is
    [± m * 2^e]; the quotient rounded in [getChunkStats] is finite (the
    other doubles, which [Math.round] returns unchanged, get [0] here). *)
Definition Math_round (x : float) : Z :=
  match Prim2SF x with
  | S754_finite negative m e =>
      let v := if negative then Z.neg m else Z.pos m in
      if 0 <=? e then v * 2 ^ e
      else (2 * v + 2 ^ (- e)) `div` 2 ^ (1 - e)
  | _ => 0
  end.

Definition getChunkStats (chunks : list Chunk) : ChunkStats :=
  match chunks with
  | [] => mkChunkStats 0 0 0 0
  | first :: rest =>
      let lengths := (λ c, len (text c)) <$> chunks in
      mkChunkStats
        (Z.of_nat (length chunks))
        (Math_round
           (foldl (λ a b, a + toNumber b)%float 0%float lengths
            / toNumber (Z.of_nat (length lengths)))%float)
        (* [Math.min(...lengths)], [Math.max(...lengths)] *)
        (foldl Z.min (len (text first)) ((λ c, len (text c)) <$> rest))
        (foldl Z.max (len (text first)) ((λ c, len (text c)) <$> rest))
  end.

End Chunker.

(** ** Types of the backend ([types/index.ts]) *)

Import JsString.

Module Document.
Record t := mk { id : jsstring; title : jsstring; content : jsstring }.
End Document.

Module Source.
Record t := mk { docId : jsstring; title : jsstring }.
End Source.

Module Metadata.
Record t := mk { docId : jsstring; title : jsstring; chunkText : jsstring }.
End Metadata.

(** A [number] is an IEEE 754 double: Rocq's primitive [float]. *)
Module PineconeMatch.
Record t := mk { id : jsstring; score : float; metadata : Metadata.t }.
End PineconeMatch.

Module PineconeVector.
Record t := mk { id : jsstring; values : list float; metadata : Metadata.t }.
End PineconeVector.

Record IngestResponse := mkIngestResponse {
  ingestedDocuments : Z;
  ingestedChunks : Z;
}.

(** A validated ask request: the schema has filled in [topK]. *)
Record AskRequest := mkAskRequest { question : jsstring; topK : Z }.

Record AskResponse := mkAskResponse {
  answer : jsstring;
  sources : list Source.t;
}.

(** ** Errors ([utils/errors.ts]) and thrown values *)

Module Errors.
Import JsString.

Inductive AppErrorClass :=
| ClassAppError
| ClassValidationError
| ClassExternalServiceError
| ClassNotFoundError.

(** An instance of [AppError] or of one of its subclasses. *)
Record AppError := mkAppError {
  class : AppErrorClass;
  message : jsstring;
  statusCode : Z;
  isOperational : bool;
  service : option jsstring;
}.

(** [new ExternalServiceError(service, message)] *)
Definition ExternalServiceError (service message : jsstring) : AppError :=
  mkAppError ClassExternalServiceError
    (service ++ lit " error: " ++ message) 502 true (Some service).

(** An issue of a [ZodError]; a path segment is given by its text. *)
Record ZodIssue := mkZodIssue {
  issueMessage : jsstring;
  path : list jsstring;
}.

(** A [ZodError] has at least one issue. *)
Record ZodError := mkZodError {
  zodMessage : jsstring;
  firstError : ZodIssue;
  otherErrors : list ZodIssue;
}.

(** What a [throw] can carry, as far as the code tells values apart. *)
Inductive Thrown :=
| ThrownApp (e : AppError)
| ThrownZod (e : ZodError)
| ThrownError (message : jsstring)  (* any other instance of [Error] *)
| ThrownValue.                      (* a value that is not an [Error] *)

(** [err instanceof Error ? err.message : 'Unknown error'] *)
Definition messageOf (err : Thrown) : jsstring :=
  match err with
  | ThrownApp e => message e
  | ThrownZod e => zodMessage e
  | ThrownError m => m
  | ThrownValue => lit "Unknown error"
  end.

(** [isOperationalError(error)]: the [AppError] it narrows to, if any. *)
Definition isOperationalError (err : Thrown) : option AppError :=
  match err with
  | ThrownApp e => if isOperational e then Some e else None
  | _ => None
  end.

End Errors.

(** ** HTTP responses ([utils/response.ts]) *)

Module Response.
Import JsString Errors.

(** The payload handed to [JSON.stringify]; the serialisation itself and
    the constant CORS headers are not modelled. *)
Inductive Body :=
| IngestBody (r : IngestResponse)
| AskBody (r : AskResponse)
| ErrorBody (error : jsstring) (details : option jsstring).

Record APIGatewayProxyResult := mkResult { statusCode : Z; body : Body }.

Definition success (data : Body) : APIGatewayProxyResult := mkResult 200 data.

Definition error (message : jsstring) (statusCode : Z)
    (details : option jsstring) : APIGatewayProxyResult :=
  mkResult statusCode
    (ErrorBody message
       (match details with
        | Some d => if truthy d then Some d else None
        | None => None
        end)).

(** [path.join('.')] *)
Fixpoint joinDots (path : list jsstring) : jsstring :=
  match path with
  | [] => []
  | [p] => p
  | p :: rest => p ++ lit "." ++ joinDots rest
  end.

Definition validationError (zodError : ZodError) : APIGatewayProxyResult :=
  let firstError := firstError zodError in
  let path := joinDots (path firstError) in
  let message :=
    if truthy path then path ++ lit ": " ++ issueMessage firstError
    else issueMessage firstError in
  error (lit "Validation error: " ++ message) 400 None.

End Response.

(** ** The external collaborators

    The embedding and generation services ([@huggingface/inference]), the
    vector index ([@pinecone-database/pinecone]), [JSON.parse], the zod
    schemas and the formatting of numbers are not code of this repository.
    They are taken as an interface: each remote operation acts on the state
    of the outside world and either resolves or rejects. *)

Module External.
Import Errors.

Inductive Completion (A : Type) :=
| Resolved (a : A)
| Rejected (err : Thrown).
Arguments Resolved {A} a.
Arguments Rejected {A} err.

(** The result of [featureExtraction]: one vector, or a list of them. *)
Inductive FeatureExtractionOutput :=
| FlatOutput (v : list float)
| NestedOutput (rows : list (list float)).

Inductive Role := system | user.

(** A chat response; every level may be missing ([?.] in the source). *)
Record ChatOutputMessage := mkChatOutputMessage { content : option jsstring }.
Record ChatChoice := mkChatChoice { message : option ChatOutputMessage }.
Record ChatCompletionOutput := mkChatCompletionOutput {
  choices : option (list ChatChoice);
}.

(** [new Pinecone({ apiKey })] and [client.index(indexName)] *)
Record Pinecone := mkPinecone { apiKey : jsstring }.
Record Index := mkIndex { client : Pinecone; indexName : jsstring }.

(** A value stored in a record's metadata. *)
Inductive RecordMetadataValue :=
| MetaString (s : jsstring)
| MetaBoolean (b : bool)
| MetaNumber (x : float)
| MetaStrings (l : list jsstring).

Record ScoredPineconeRecord := mkScored {
  id : jsstring;
  score : option float;
  metadata : option (gmap jsstring RecordMetadataValue);
}.

Record QueryResponse := mkQueryResponse {
  matches : option (list ScoredPineconeRecord);
}.

Class Services := {
  World : Type;
  (** [featureExtraction({ accessToken, model, inputs })] *)
  featureExtraction :
    jsstring → jsstring → jsstring →
    World → Completion FeatureExtractionOutput * World;
  (** [chatCompletion({ accessToken, model, messages, max_tokens, temperature })] *)
  chatCompletion :
    jsstring → jsstring → list (Role * jsstring) → Z → float →
    World → Completion ChatCompletionOutput * World;
  (** [index.upsert(batch)] *)
  upsert :
    Index → list PineconeVector.t → World → Completion () * World;
  (** [index.query({ vector, topK, includeMetadata })] *)
  query :
    Index → list float → Z → bool → World → Completion QueryResponse * World;
  (** [index.deleteMany({ filter: { docId: { $eq: docId } } })] *)
  deleteMany : Index → jsstring → World → Completion () * World;
  (** [JSON.parse]: [None] when it throws. *)
  JsonValue : Type;
  JSON_parse : jsstring → option JsonValue;
  (** [IngestRequestSchema.parse] and [AskRequestSchema.parse] *)
  validateIngestRequest : JsonValue → ZodError + list Document.t;
  validateAskRequest : JsonValue → ZodError + AskRequest;
  (** [String(x)] and [x.toFixed(digits)] for a number [x] *)
  Number_toString : float → jsstring;
  Number_toFixed : float → Z → jsstring;
}.

End External.

(** ** The runtime: module state, environment, console and call log *)

Module Runtime.
Import Errors External.

Record Env := mkEnv {
  HUGGINGFACE_API_KEY : option jsstring;
  PINECONE_API_KEY : option jsstring;
  PINECONE_INDEX : option jsstring;
}.

(** A call that reached an external service, with its arguments. *)
Inductive Call :=
| CallFeatureExtraction (accessToken model inputs : jsstring)
| CallChatCompletion (accessToken model : jsstring)
    (messages : list (Role * jsstring)) (max_tokens : Z) (temperature : float)
| CallUpsert (index : Index) (batch : list PineconeVector.t)
| CallQuery (index : Index) (vector : list float) (topK : Z)
    (includeMetadata : bool)
| CallDeleteMany (index : Index) (docId : jsstring).

(** A line written to the console: its level and the fixed part of its
    text (interpolated values are left out). *)
Inductive Level := LevelLog | LevelWarn | LevelError.
Record LogEntry := mkLogEntry { level : Level; text : string }.

Inductive Outcome (A : Type) :=
| Returned (a : A)
| Threw (err : Thrown).
Arguments Returned {A} a.
Arguments Threw {A} err.

Section WithServices.
Context `{Services}.

Record State := mkState {
  world : World;
  env : Env;
  (** [let pineconeClient] and [let pineconeIndex] of [pinecone.ts] *)
  pineconeClient : option Pinecone;
  pineconeIndex : option Index;
  calls : list Call;
  console : list LogEntry;
}.

(** A computation: it returns or throws, and leaves a state. *)
Definition M (A : Type) : Type := State → Outcome A * State.

Definition ret {A} (a : A) : M A := λ s, (Returned a, s).
Definition throw {A} (err : Thrown) : M A := λ s, (Threw err, s).

Definition bind {A B} (m : M A) (k : A → M B) : M B := λ s,
  match m s with
  | (Returned a, s') => k a s'
  | (Threw err, s') => (Threw err, s')
  end.

(** [try { body } catch (err) { handler }] *)
Definition try_catch {A} (body : M A) (handler : Thrown → M A) : M A := λ s,
  match body s with
  | (Returned a, s') => (Returned a, s')
  | (Threw err, s') => handler err s'
  end.

Definition get : M State := λ s, (Returned s, s).

Definition console_write (l : Level) (t : string) : M () := λ s,
  (Returned (),
   mkState (world s) (env s) (pineconeClient s) (pineconeIndex s)
     (calls s) (console s ++ [mkLogEntry l t])).

Definition set_pineconeClient (c : Pinecone) : M () := λ s,
  (Returned (),
   mkState (world s) (env s) (Some c) (pineconeIndex s)
     (calls s) (console s)).

Definition set_pineconeIndex (i : Index) : M () := λ s,
  (Returned (),
   mkState (world s) (env s) (pineconeClient s) (Some i)
     (calls s) (console s)).

(** [await op(...)]: the call is logged, the world moves on, and the
    promise resolves or rejects. *)
Definition await {A} (c : Call) (op : World → Completion A * World)
    : M A := λ s,
  let '(r, w) := op (world s) in
  (match r with
   | Resolved a => Returned a
   | Rejected err => Threw err
   end,
   mkState w (env s) (pineconeClient s) (pineconeIndex s)
     (calls s ++ [c]) (console s)).

End WithServices.

End Runtime.

Notation "'let*' x ':=' m 'in' k" := (Runtime.bind m (λ x, k))
  (at level 10, x name, m at level 100, k at level 200).

(** ** The embedding gateway ([services/embeddings.ts]) *)

Module Embeddings.
Import Errors External Runtime.

Definition EMBEDDING_MODEL : jsstring :=
  lit "sentence-transformers/all-MiniLM-L6-v2".

Section WithServices.
Context `{Services}.

(** [process.env.X] is falsy when unset or empty. *)
Definition getApiKey : M jsstring :=
  let* s := get in
  match HUGGINGFACE_API_KEY (env s) with
  | Some apiKey =>
      if truthy apiKey then ret apiKey
      else throw (ThrownApp (ExternalServiceError (lit "HuggingFace")
             (lit "HUGGINGFACE_API_KEY environment variable is not set")))
  | None =>
      throw (ThrownApp (ExternalServiceError (lit "HuggingFace")
        (lit "HUGGINGFACE_API_KEY environment variable is not set")))
  end.

(** [Array.isArray(result) && Array.isArray(result[0]) ? result[0] : result] *)
Definition firstVector (result : FeatureExtractionOutput) : list float :=
  match result with
  | NestedOutput (row :: _) => row
  | NestedOutput [] => []
  | FlatOutput v => v
  end.

Definition callFeatureExtraction (text : jsstring)
    : M FeatureExtractionOutput :=
  let* accessToken := getApiKey in
  await (CallFeatureExtraction accessToken EMBEDDING_MODEL text)
    (featureExtraction accessToken EMBEDDING_MODEL text).

Definition embedText (text : jsstring) : M (list float) :=
  try_catch
    (let* result := callFeatureExtraction text in
     ret (firstVector result))
    (λ err,
       throw (ThrownApp (ExternalServiceError (lit "HuggingFace")
         (lit "Failed to generate embedding: " ++ messageOf err)))).

(** [for (const text of texts) { ... embeddings.push(...) }] *)
Fixpoint embedLoop (embeddings : list (list float)) (texts : list jsstring)
    : M (list (list float)) :=
  match texts with
  | [] => ret embeddings
  | text :: rest =>
      let* result := callFeatureExtraction text in
      embedLoop (embeddings ++ [firstVector result]) rest
  end.

Definition embedTexts (texts : list jsstring) : M (list (list float)) :=
  match texts with
  | [] => ret []
  | _ =>
      try_catch (embedLoop [] texts)
        (λ err,
           throw (ThrownApp (ExternalServiceError (lit "HuggingFace")
             (lit "Failed to generate embeddings: " ++ messageOf err))))
  end.

End WithServices.
End Embeddings.

(** ** The vector index gateway ([services/pinecone.ts]) *)

Module PineconeService.
Import Errors External Runtime.

Definition UPSERT_BATCH_SIZE : nat := 100.

Section WithServices.
Context `{Services}.

Definition missing (name : string) : Thrown :=
  ThrownApp (ExternalServiceError (lit "Pinecone")
    (lit name ++ lit " environment variable is not set")).

Definition getClient : M Pinecone :=
  let* s := get in
  match pineconeClient s with
  | Some c => ret c
  | None =>
      match PINECONE_API_KEY (env s) with
      | Some apiKey =>
          if truthy apiKey then
            let* _ := set_pineconeClient (mkPinecone apiKey) in
            ret (mkPinecone apiKey)
          else throw (missing "PINECONE_API_KEY")
      | None => throw (missing "PINECONE_API_KEY")
      end
  end.

Definition getIndex : M Index :=
  let* s := get in
  match pineconeIndex s with
  | Some i => ret i
  | None =>
      match PINECONE_INDEX (env s) with
      | Some indexName =>
          if truthy indexName then
            let* c := getClient in
            let* _ := set_pineconeIndex (mkIndex c indexName) in
            ret (mkIndex c indexName)
          else throw (missing "PINECONE_INDEX")
      | None => throw (missing "PINECONE_INDEX")
      end
  end.

(** [for (let i = 0; i < vectors.length; i += UPSERT_BATCH_SIZE)]: the
    vectors still to send are those from index [i] on. *)
Equations upsertLoop (index : Index) (vectors : list PineconeVector.t)
  : M () by wf (length vectors) lt :=
  upsertLoop index [] := ret ();
  upsertLoop index (v :: vs) :=
    let* _ := await (CallUpsert index (take UPSERT_BATCH_SIZE (v :: vs)))
                (upsert index (take UPSERT_BATCH_SIZE (v :: vs))) in
    upsertLoop index (drop UPSERT_BATCH_SIZE (v :: vs)).
Next Obligation. intros. simpl. rewrite length_drop. lia. Qed.

Definition upsertVectors (vectors : list PineconeVector.t) : M () :=
  match vectors with
  | [] => ret ()
  | _ =>
      try_catch
        (let* index := getIndex in upsertLoop index vectors)
        (λ err,
           throw (ThrownApp (ExternalServiceError (lit "Pinecone")
             (lit "Failed to upsert vectors: " ++ messageOf err))))
  end.

(** JavaScript truthiness of a metadata value. *)
Definition metaTruthy (v : RecordMetadataValue) : bool :=
  match v with
  | MetaString s => truthy s
  | MetaBoolean b => b
  | MetaNumber x => negb (PrimFloat.is_zero x || PrimFloat.is_nan x)
  | MetaStrings _ => true
  end.

(** [l.join(',')] *)
Fixpoint joinCommas (l : list jsstring) : jsstring :=
  match l with
  | [] => []
  | [x] => x
  | x :: rest => x ++ lit "," ++ joinCommas rest
  end.

(** [String(v)] *)
Definition metaToString (v : RecordMetadataValue) : jsstring :=
  match v with
  | MetaString s => s
  | MetaBoolean b => if b then lit "true" else lit "false"
  | MetaNumber x => Number_toString x
  | MetaStrings l => joinCommas l
  end.

(** [String(metadata.key || '')] *)
Definition stringOrEmpty (metadata : gmap jsstring RecordMetadataValue)
    (key : string) : jsstring :=
  match metadata !! lit key with
  | Some v => if metaTruthy v then metaToString v else []
  | None => []
  end.

(** One iteration of [for (const match of results.matches || [])]. *)
Definition pushMatch (matches : list PineconeMatch.t)
    (match_ : ScoredPineconeRecord) : list PineconeMatch.t :=
  match External.metadata match_, External.score match_ with
  | Some metadata, Some score =>
      matches ++
        [PineconeMatch.mk (External.id match_) score
           (Metadata.mk (stringOrEmpty metadata "docId")
                        (stringOrEmpty metadata "title")
                        (stringOrEmpty metadata "chunkText"))]
  | _, _ => matches
  end.

Definition queryVectors (vector : list float) (topK : Z)
    : M (list PineconeMatch.t) :=
  try_catch
    (let* index := getIndex in
     let* results := await (CallQuery index vector topK true)
                       (query index vector topK true) in
     ret (foldl pushMatch [] (default [] (External.matches results))))
    (λ err,
       throw (ThrownApp (ExternalServiceError (lit "Pinecone")
         (lit "Failed to query vectors: " ++ messageOf err)))).

Definition deleteByDocId (docId : jsstring) : M () :=
  try_catch
    (let* index := getIndex in
     await (CallDeleteMany index docId) (deleteMany index docId))
    (λ err,
       console_write LevelWarn "Could not delete existing vectors for docId").

End WithServices.
End PineconeService.

(** ** [Map]: insertion-ordered, keyed by strings *)

Module JsMap.

(** The entries in insertion order; a key occurs at most once. *)
Definition t (V : Type) : Type := list (jsstring * V).

Definition empty {V} : t V := [].

(** [map.has(key)] *)
Definition has {V} (m : t V) (key : jsstring) : bool :=
  bool_decide (key ∈ m.*1).

(** [map.set(key, value)]: a new key goes last, a known key keeps its
    place. *)
Definition set {V} (m : t V) (key : jsstring) (value : V) : t V :=
  if has m key
  then (λ e, if decide (e.1 = key) then (key, value) else e) <$> m
  else m ++ [(key, value)].

(** [Array.from(map.values())] *)
Definition values {V} (m : t V) : list V := m.*2.

End JsMap.

(** ** The answer composer ([services/llm.ts]) *)

Module Llm.
Import Errors External Runtime.

Definition CHAT_MODEL : jsstring := lit "meta-llama/Llama-3.2-3B-Instruct".

Definition quote : jsstring := [34%N].

Definition SYSTEM_PROMPT : jsstring :=
  lit "You are a helpful assistant that answers questions based only on the provided context. " ++ [LF] ++
  lit "Be concise and accurate. If the answer cannot be found in the context, clearly state that you don't have enough information to answer the question." ++ [LF] ++
  lit "Do not make up information or use knowledge outside of the provided context.".

Definition NO_DOCUMENTS_ANSWER : jsstring :=
  lit "I don't have any documents to answer this question. Please ingest some documents first.".

Definition NO_TEXT_ANSWER : jsstring :=
  lit "Unable to generate an answer. Please try again.".

(** [parts.join('\n\n')] *)
Fixpoint joinBlankLine (parts : list jsstring) : jsstring :=
  match parts with
  | [] => []
  | [x] => x
  | x :: rest => x ++ [LF; LF] ++ joinBlankLine rest
  end.

(** [extractSources]: the loop body on the map built so far. *)
Definition addSource (sourcesMap : JsMap.t Source.t) (match_ : PineconeMatch.t)
    : JsMap.t Source.t :=
  let docId := Metadata.docId (PineconeMatch.metadata match_) in
  if negb (JsMap.has sourcesMap docId) then
    JsMap.set sourcesMap docId
      (Source.mk docId (Metadata.title (PineconeMatch.metadata match_)))
  else sourcesMap.

Definition extractSources (matches : list PineconeMatch.t) : list Source.t :=
  JsMap.values (foldl addSource JsMap.empty matches).

Section WithServices.
Context `{Services}.

(** The same function as in [embeddings.ts], defined again in [llm.ts]. *)
Definition getApiKey : M jsstring :=
  let* s := get in
  match HUGGINGFACE_API_KEY (env s) with
  | Some apiKey =>
      if truthy apiKey then ret apiKey
      else throw (ThrownApp (ExternalServiceError (lit "HuggingFace")
             (lit "HUGGINGFACE_API_KEY environment variable is not set")))
  | None =>
      throw (ThrownApp (ExternalServiceError (lit "HuggingFace")
        (lit "HUGGINGFACE_API_KEY environment variable is not set")))
  end.

(** The text of one match in the context, [i] being its 0-based index. *)
Definition contextEntry (i : nat) (m : PineconeMatch.t) : jsstring :=
  let score := Number_toFixed (PineconeMatch.score m * 100)%float 1 in
  lit "[" ++ lit (pretty (i + 1)%nat) ++ lit "] " ++ quote ++
  Metadata.title (PineconeMatch.metadata m) ++ quote ++
  lit " (relevance: " ++ score ++ lit "%):" ++ [LF] ++
  Metadata.chunkText (PineconeMatch.metadata m).

Definition buildPrompt (question : jsstring)
    (matches : list PineconeMatch.t) : jsstring :=
  match matches with
  | [] =>
      lit "Question: " ++ question ++ [LF; LF] ++
      lit "No context documents were found. Please indicate that you cannot answer without relevant documents."
  | _ =>
      let context := joinBlankLine (imap contextEntry matches) in
      lit "Based on the following context documents, answer the question. If the answer cannot be found in the context, say " ++
      quote ++ lit "I don't have enough information to answer this question." ++
      quote ++ [LF; LF] ++
      lit "Context:" ++ [LF] ++ context ++ [LF; LF] ++
      lit "Question: " ++ question
  end.

(** [response.choices?.[0]?.message?.content] *)
Definition firstContent (response : ChatCompletionOutput)
    : option jsstring :=
  choices ← choices response;
  choice ← head choices;
  message ← message choice;
  content message.

Definition generateAnswer (question : jsstring)
    (matches : list PineconeMatch.t) : M jsstring :=
  match matches with
  | [] => ret NO_DOCUMENTS_ANSWER
  | _ =>
      try_catch
        (let userPrompt := buildPrompt question matches in
         let* accessToken := getApiKey in
         let messages :=
           [(system, SYSTEM_PROMPT); (user, userPrompt)] in
         let* response :=
           await (CallChatCompletion accessToken CHAT_MODEL messages
                    500 0x1.3333333333333p-2%float)
             (chatCompletion accessToken CHAT_MODEL messages
                500 0x1.3333333333333p-2%float) in
         match firstContent response with
         | Some generatedText =>
             if truthy generatedText then ret (trim generatedText)
             else ret NO_TEXT_ANSWER
         | None => ret NO_TEXT_ANSWER
         end)
        (λ err,
           throw (ThrownApp (ExternalServiceError (lit "HuggingFace")
             (lit "Failed to generate answer: " ++ messageOf err))))
  end.

End WithServices.
End Llm.

(** ** The handlers ([handlers/ingest.ts], [handlers/ask.ts]) *)

Module Handlers.
Import Errors External Runtime Response.

(** [chunkDocument(doc.id, doc.title, doc.content)]: the default options
    give a maximum of 500, for which the hard split needs no more
    iterations than the content has code units (see
    [chunkDocument_defaults_returns] below). *)
Definition chunkDocumentDefaults (docId title content : jsstring)
    : list Chunker.Chunk :=
  default [] (Chunker.chunkDocument (length content) docId title content None).

Section WithServices.
Context `{Services}.

(** The [catch] block shared by both handlers. *)
Definition handleError (what : string) (err : Thrown)
    : M APIGatewayProxyResult :=
  match err with
  | ThrownZod zodError =>
      let* _ := console_write LevelWarn "Validation error:" in
      ret (validationError zodError)
  | _ =>
      match isOperationalError err with
      | Some appError =>
          let* _ := console_write LevelError "Operational error:" in
          ret (error (Errors.message appError)
                     (Errors.statusCode appError) None)
      | None =>
          let* _ := console_write LevelError what in
          ret (error (lit "Internal server error") 500 None)
      end
  end.

(** [JSON.parse(event.body ?? '{}')] followed by a schema's [parse]. *)
Definition parseBody {A} (body : option jsstring)
    (validate : JsonValue → ZodError + A)
    (k : A → M APIGatewayProxyResult) : M APIGatewayProxyResult :=
  match JSON_parse (default (lit "{}") body) with
  | None => ret (error (lit "Invalid JSON in request body") 400 None)
  | Some json =>
      match validate json with
      | inl zodError => throw (ThrownZod zodError)
      | inr request => k request
      end
  end.

(** The vector stored for the chunk at index [i]. *)
Definition toVector (embeddings : list (list float)) (i : nat)
    (chunk : Chunker.Chunk) : PineconeVector.t :=
  PineconeVector.mk (Chunker.chunkId chunk)
    (default [] (embeddings !! i))
    (Metadata.mk (Chunker.docId chunk) (Chunker.title chunk)
       (Chunker.text chunk)).

(** The body of [for (const doc of documents)], from the running total
    of chunks to the new one.  [getChunkStats] only feeds a log line. *)
Definition ingestDocument (totalChunks : Z) (doc : Document.t) : M Z :=
  let* _ := console_write LevelLog "Processing document:" in
  let* _ := PineconeService.deleteByDocId (Document.id doc) in
  let chunks :=
    chunkDocumentDefaults (Document.id doc) (Document.title doc)
      (Document.content doc) in
  if (length chunks =? 0)%nat then
    let* _ := console_write LevelLog "produced no chunks (empty content)" in
    ret totalChunks
  else
    let* _ := console_write LevelLog "chunks, avg chars" in
    let texts := Chunker.text <$> chunks in
    let* embeddings := Embeddings.embedTexts texts in
    let vectors := imap (toVector embeddings) chunks in
    let* _ := PineconeService.upsertVectors vectors in
    let* _ := console_write LevelLog "ingested:" in
    ret (totalChunks + Z.of_nat (length chunks)).

Fixpoint ingestLoop (totalChunks : Z) (documents : list Document.t)
    : M Z :=
  match documents with
  | [] => ret totalChunks
  | doc :: rest =>
      let* totalChunks' := ingestDocument totalChunks doc in
      ingestLoop totalChunks' rest
  end.

Definition ingestHandler (body : option jsstring)
    : M APIGatewayProxyResult :=
  let* _ := console_write LevelLog "Ingest request received" in
  try_catch
    (parseBody body validateIngestRequest (λ documents,
       let* _ := console_write LevelLog "Processing document(s)" in
       let* totalChunks := ingestLoop 0 documents in
       let response :=
         mkIngestResponse (Z.of_nat (length documents)) totalChunks in
       let* _ := console_write LevelLog "Ingest complete:" in
       ret (success (IngestBody response))))
    (handleError "Unexpected error during ingest:").

(** [matches.forEach((m, i) => console.log(...))] *)
Fixpoint logMatches (matches : list PineconeMatch.t) : M () :=
  match matches with
  | [] => ret ()
  | _ :: rest =>
      let* _ := console_write LevelLog "Match" in logMatches rest
  end.

Definition askHandler (body : option jsstring)
    : M APIGatewayProxyResult :=
  let* _ := console_write LevelLog "Ask request received" in
  try_catch
    (parseBody body validateAskRequest (λ request,
       let question := question request in
       let topK := topK request in
       let* _ := console_write LevelLog "Question:" in
       let* _ := console_write LevelLog "Generating question embedding..." in
       let* questionVector := Embeddings.embedText question in
       let* _ := console_write LevelLog "Querying Pinecone for top matches..." in
       let* matches := PineconeService.queryVectors questionVector topK in
       let* _ := console_write LevelLog "Found matches" in
       match matches with
       | [] =>
           let* _ := console_write LevelLog
             "No matches found - returning no documents message" in
           ret (success (AskBody
                  (mkAskResponse Llm.NO_DOCUMENTS_ANSWER [])))
       | _ =>
           let* _ := logMatches matches in
           let* _ := console_write LevelLog "Generating answer with LLM..." in
           let* answer := Llm.generateAnswer question matches in
           let sources := Llm.extractSources matches in
           let* _ := console_write LevelLog "Answer generated, source(s) cited" in
           ret (success (AskBody (mkAskResponse answer sources)))
       end))
    (handleError "Unexpected error during ask:").

End WithServices.
End Handlers.

(** ** A scripted outside world, for examples *)

Module Sample.
Import Errors External Runtime.

Definition rawComplete : ScoredPineconeRecord :=
  mkScored (lit "doc-1#chunk-0") (Some 1%float)
    (Some (<[lit "docId" := MetaString (lit "doc-1")]>
           (<[lit "title" := MetaBoolean false]> ∅))).

Definition rawWithoutScore : ScoredPineconeRecord :=
  mkScored (lit "doc-2#chunk-0") None
    (Some (<[lit "docId" := MetaString (lit "doc-2")]> ∅)).

(** - embedding the text ["boom"] is rejected, any other text resolves;
    - the generation service answers without any choice;
    - a query for at most one record finds nothing, a larger one finds two
      records, one of them without a score;
    - deleting is always rejected;
    - a request body is its own JSON value: an ingest request holds three
      documents, the second with the body as content and the third blank;
      an ask request asks the body, with [topK] its length. *)
Definition services : Services := {|
  World := ();
  featureExtraction := λ _ _ inputs w,
    (if bool_decide (inputs = lit "boom")
     then Rejected (ThrownError (lit "503"))
     else Resolved (FlatOutput [1%float]), w);
  chatCompletion := λ _ _ _ _ _ w,
    (Resolved (mkChatCompletionOutput (Some [])), w);
  upsert := λ _ _ w, (Resolved (), w);
  query := λ _ _ topK _ w,
    (Resolved (mkQueryResponse
       (if topK <=? 1 then None
        else Some [rawComplete; rawWithoutScore])), w);
  deleteMany := λ _ _ w, (Rejected (ThrownError (lit "timeout")), w);
  JsonValue := jsstring;
  JSON_parse := Some;
  validateIngestRequest := λ json,
    inr [Document.mk (lit "a") (lit "A") (lit "Alpha.");
         Document.mk (lit "b") (lit "B") json;
         Document.mk (lit "c") (lit "C") (lit "   ")];
  validateAskRequest := λ json,
    inr (mkAskRequest json (Z.of_nat (length json)));
  Number_toString := λ _, lit "1";
  Number_toFixed := λ _ _, lit "100.0";
|}.

Definition environment : Env :=
  mkEnv (Some (lit "hf-key")) (Some (lit "pc-key")) (Some (lit "rag")).

(** A fresh process: no client yet, nothing called, nothing logged. *)
Definition fresh : @State services :=
  @mkState services () environment None None [] [].

End Sample.

(** * Part II: facts and properties *)

(** ** Facts about strings *)

Module JsStringFacts.
Import JsString.

Lemma len_nonneg s : 0 ≤ len s.
Proof. unfold len. lia. Qed.

Lemma len_app a b : len (a ++ b) = len a + len b.
Proof. unfold len. rewrite length_app. lia. Qed.

Lemma len_joinSpace a b : len (joinSpace a b) = len a + 1 + len b.
Proof. unfold joinSpace, len. rewrite length_app. simpl. lia. Qed.

Lemma truthy_true s : truthy s = true ↔ s ≠ [].
Proof. destruct s; simpl; split; congruence. Qed.

Lemma truthy_false s : truthy s = false ↔ s = [].
Proof. destruct s; simpl; split; congruence. Qed.

Lemma length_dropWhile_le p s : (length (dropWhile p s) ≤ length s)%nat.
Proof. induction s as [|c r IH]; simpl; [lia|]. destruct (p c); simpl; lia. Qed.

Lemma dropWhile_snoc_false p s c :
  p c = false → dropWhile p (s ++ [c]) = dropWhile p s ++ [c].
Proof.
  intros Hc. induction s as [|d r IH]; simpl.
  - by rewrite Hc.
  - destruct (p d); [exact IH | done].
Qed.

Lemma length_trim_le s : (length (trim s) ≤ length s)%nat.
Proof.
  unfold trim, trimEnd, trimStart. rewrite length_reverse.
  etrans; [apply length_dropWhile_le|]. rewrite length_reverse.
  apply length_dropWhile_le.
Qed.

Lemma len_trim_le s : len (trim s) ≤ len s.
Proof. unfold len. pose proof (length_trim_le s). lia. Qed.

(** A string that starts with a code unit that is not white space keeps it
    as its first code unit when trimmed. *)
Lemma trim_cons_nonspace c s :
  is_space c = false → ∃ r, trim (c :: s) = c :: r.
Proof.
  intros Hc. unfold trim, trimStart, trimEnd. simpl. rewrite Hc.
  rewrite reverse_cons, dropWhile_snoc_false by done.
  rewrite reverse_app. simpl. eauto.
Qed.

Lemma dropWhile_head p s c r : dropWhile p s = c :: r → p c = false.
Proof.
  induction s as [|d t IH]; simpl; [done|].
  destruct (p d) eqn:Hd; [exact IH|]. by intros [= -> _].
Qed.

Lemma dropWhile_cons_false p c s : p c = false → dropWhile p (c :: s) = c :: s.
Proof. intros H. simpl. by rewrite H. Qed.

(** The first code unit of a trimmed string is not white space. *)
Lemma trim_head c r s : trim s = c :: r → is_space c = false.
Proof.
  unfold trim, trimEnd, trimStart. intros H.
  destruct (dropWhile is_space s) as [|d t] eqn:Hd.
  - by rewrite reverse_nil in H.
  - pose proof (dropWhile_head _ _ _ _ Hd) as Hsp.
    rewrite reverse_cons, dropWhile_snoc_false in H by done.
    rewrite reverse_app in H. simpl in H. by injection H as -> _.
Qed.

(** [slice] never returns more code units than the window is wide. *)
Lemma length_slice_le s i w :
  0 ≤ i → 0 ≤ w → len (slice s i (i + w)) ≤ w.
Proof.
  intros Hi Hw. unfold slice, len, clampIndex.
  rewrite length_take, length_drop.
  destruct (Z.ltb_spec i 0), (Z.ltb_spec (i + w) 0); lia.
Qed.

Lemma slice_zero_cons c s w :
  1 ≤ w → ∃ r, slice (c :: s) 0 (0 + w) = c :: r.
Proof.
  intros Hw. unfold slice, clampIndex.
  destruct (Z.ltb_spec 0 0); [lia|]. destruct (Z.ltb_spec (0 + w) 0); [lia|].
  replace (Z.to_nat (0 `min` Z.of_nat (length (c :: s)))) with 0%nat by lia.
  simpl length. rewrite drop_0.
  destruct (Z.to_nat ((0 + w) `min` Z.of_nat (S (length s))) - 0)%nat eqn:E;
    [lia|]. simpl. eauto.
Qed.

(** Every piece of a split extends the gathered prefix for the first
    piece, and no piece is longer than the text that was split. *)
Lemma split_loop_first m prev acc s :
  ∃ x rest, split_loop m prev acc s = (acc ++ x) :: rest.
Proof.
  funelim (split_loop m prev acc s).
  - exists [], []. by rewrite app_nil_r.
  - destruct H as (x & rest & ->). exists (c :: x), rest.
    by rewrite <- app_assoc.
  - exists [], (split_loop m (last (c :: take n r)) [] (drop n r)).
    by rewrite app_nil_r.
  - destruct H as (x & rest & ->). exists (c :: x), rest.
    by rewrite <- app_assoc.
Qed.

Lemma split_loop_length m prev acc s :
  Forall (λ piece, (length piece ≤ length acc + length s)%nat)
    (split_loop m prev acc s).
Proof.
  funelim (split_loop m prev acc s).
  - constructor; [simpl; lia | constructor].
  - eapply Forall_impl; [exact H|]. intros piece. simpl.
    rewrite length_app. simpl. lia.
  - constructor; [lia|]. eapply Forall_impl; [exact H|].
    intros piece. simpl. rewrite length_drop. lia.
  - eapply Forall_impl; [exact H|]. intros piece. simpl.
    rewrite length_app. simpl. lia.
Qed.

Lemma split_length m s :
  Forall (λ piece, (length piece ≤ length s)%nat) (split m s).
Proof. apply (split_loop_length m None [] s). Qed.

(** When the matcher fails at the first position, the first piece starts
    with the first code unit of the text. *)
Lemma split_first_cons m c r :
  m None (c :: r) = None →
  ∃ x rest, split m (c :: r) = (c :: x) :: rest.
Proof.
  intros Hm. unfold split. simp split_loop. rewrite Hm. simpl.
  destruct (split_loop_first m (Some c) [c] r) as (x & rest & ->).
  simpl. eauto.
Qed.

Lemma re_paragraph_break_nonspace prev c r :
  is_space c = false → re_paragraph_break prev (c :: r) = None.
Proof.
  intros Hc. unfold re_paragraph_break.
  destruct (N.eqb_spec c LF) as [->|]; [discriminate Hc | done].
Qed.

Lemma re_sentence_break_None s : re_sentence_break None s = None.
Proof. done. Qed.

(** [lit] is injective: different literals have different code units. *)
Lemma lit_inj : Inj (=) (=) lit.
Proof.
  assert (Inj (=) (=) N_of_ascii) as Hinj.
  { intros x y Hxy.
    rewrite <- (ascii_N_embedding x), <- (ascii_N_embedding y). by rewrite Hxy. }
  intros a b H. unfold lit in H.
  apply (list_fmap_eq_inj N_of_ascii Hinj) in H.
  rewrite <- (string_of_list_ascii_of_string a),
          <- (string_of_list_ascii_of_string b). by rewrite H.
Qed.

End JsStringFacts.

(** ** Facts about the chunker *)

Module ChunkerFacts.
Import JsString JsStringFacts Chunker.

(** The sizes in force for a call. *)
Definition maxSizeOf (options : option ChunkOptions) : Z :=
  default DEFAULT_MAX_CHUNK_SIZE (options ≫= maxChunkSize).
Definition minSizeOf (options : option ChunkOptions) : Z :=
  default DEFAULT_MIN_CHUNK_SIZE (options ≫= minChunkSize).

Definition fits (maxSize : Z) (s : jsstring) : Prop := len s ≤ maxSize.

#[local] Arguments sentenceStep : simpl never.
#[local] Arguments splitLargeParagraph : simpl never.
#[local] Arguments mergeSmallChunks : simpl never.
#[local] Arguments mergeFinish : simpl never.

(** *** The hard split *)

(** With a step that is not positive the index never passes the end of a
    non-empty sentence: the loop does not finish, whatever the fuel. *)
Lemma hardSplit_diverges fuel sentence maxSize i chunks :
  maxSize ≤ 0 → i < len sentence →
  hardSplit fuel sentence maxSize i chunks = None.
Proof.
  intros Hmax. revert i chunks.
  induction fuel as [|fuel IH]; intros i chunks Hi; simpl;
    destruct (Z.ltb_spec i (len sentence)); try lia; [done|].
  apply IH. lia.
Qed.

(** With a positive step the loop finishes within [len sentence - i]
    iterations. *)
Lemma hardSplit_returns fuel sentence maxSize i chunks :
  1 ≤ maxSize → len sentence - i ≤ Z.of_nat fuel →
  is_Some (hardSplit fuel sentence maxSize i chunks).
Proof.
  intros Hmax. revert i chunks.
  induction fuel as [|fuel IH]; intros i chunks Hf; simpl;
    destruct (Z.ltb_spec i (len sentence)); try lia; try done.
  apply IH. lia.
Qed.

(** Whatever the loop returns extends the chunks it started from, by
    slices that fit. *)
Lemma hardSplit_extends fuel sentence maxSize i chunks out :
  0 ≤ i →
  hardSplit fuel sentence maxSize i chunks = Some out →
  ∃ slices, out = chunks ++ slices ∧ Forall (fits maxSize) slices.
Proof.
  destruct (Z.le_gt_cases maxSize 0) as [Hmax|Hmax].
  - intros _ H. destruct (Z.ltb_spec i (len sentence)) as [Hi|Hi].
    + by rewrite hardSplit_diverges in H.
    + destruct fuel; simpl in H;
        (destruct (Z.ltb_spec i (len sentence)); [lia|]);
        injection H as <-; exists []; by rewrite app_nil_r.
  - revert i chunks.
    induction fuel as [|fuel IH]; intros i chunks Hi H; simpl in H;
      destruct (Z.ltb_spec i (len sentence)); try done;
      try (injection H as <-; exists []; by rewrite app_nil_r).
    apply IH in H as (slices & -> & Hfit); [|lia].
    exists (trim (slice sentence i (i + maxSize)) :: slices).
    split; [by rewrite <- app_assoc|].
    constructor; [|done]. unfold fits.
    etrans; [apply len_trim_le|]. apply length_slice_le; lia.
Qed.

(** The first slice of a sentence that starts with a code unit that is not
    white space is not empty. *)
Lemma hardSplit_first fuel c t maxSize chunks out :
  is_space c = false →
  hardSplit fuel (c :: t) maxSize 0 chunks = Some out →
  ∃ x slices, out = chunks ++ (c :: x) :: slices.
Proof.
  intros Hc H.
  destruct (Z.le_gt_cases maxSize 0) as [Hmax|Hmax].
  { rewrite hardSplit_diverges in H; [done|done|]. unfold len. simpl. lia. }
  destruct fuel as [|fuel]; simpl in H;
    (destruct (Z.ltb_spec 0 (len (c :: t))) as [_|Hl];
      [|unfold len in Hl; simpl in Hl; lia]); [done|].
  apply hardSplit_extends in H as (slices & -> & _); [|lia].
  destruct (slice_zero_cons c t maxSize) as (r & ->); [lia|].
  destruct (trim_cons_nonspace c r Hc) as (x & ->).
  exists x, slices. by rewrite <- app_assoc.
Qed.

Lemma hardSplit_fuel_mono fuel fuel' sentence maxSize i chunks out :
  (fuel ≤ fuel')%nat →
  hardSplit fuel sentence maxSize i chunks = Some out →
  hardSplit fuel' sentence maxSize i chunks = Some out.
Proof.
  revert fuel' i chunks.
  induction fuel as [|fuel IH]; intros fuel' i chunks Hle H; simpl in H.
  - destruct (Z.ltb_spec i (len sentence)) as [Hi|Hi]; [done|].
    destruct fuel'; simpl; by destruct (Z.ltb_spec i (len sentence)); try lia.
  - destruct fuel' as [|fuel']; [lia|]. simpl.
    destruct (Z.ltb_spec i (len sentence)); [|done].
    apply IH; [lia|done].
Qed.

(** *** Sentence packing *)

(** Loop invariant for the size bound: every chunk pushed so far fits, and
    so does the buffer (which may also be empty). *)
Definition boundInv (maxSize : Z) (st : list jsstring * jsstring) : Prop :=
  Forall (fits maxSize) st.1 ∧ (st.2 = [] ∨ fits maxSize st.2).

Lemma flush_fits maxSize chunks currentChunk :
  boundInv maxSize (chunks, currentChunk) →
  Forall (fits maxSize) (flush chunks currentChunk).
Proof.
  intros [Hc Hb]. simpl in *. unfold flush.
  destruct currentChunk as [|c r]; simpl; [done|].
  apply Forall_app. split; [done|]. constructor; [|done].
  destruct Hb as [?|Hb]; [done|]. unfold fits in *.
  etrans; [apply len_trim_le|done].
Qed.

Lemma sentenceStep_bound fuel maxSize st sentence st' :
  boundInv maxSize st →
  sentenceStep fuel maxSize st sentence = Some st' →
  boundInv maxSize st'.
Proof.
  destruct st as [chunks cur]. intros Hinv H. unfold sentenceStep in H.
  destruct (Z.ltb_spec maxSize (len sentence)) as [Hlong|Hshort].
  - destruct (hardSplit _ _ _ _ _) as [out|] eqn:Hs; [|done].
    injection H as <-.
    apply hardSplit_extends in Hs as (slices & -> & Hfit); [|lia].
    split; simpl; [|by left].
    apply Forall_app. split; [by apply flush_fits | done].
  - destruct (Z.ltb_spec maxSize (len cur + len sentence + 1)) as [Hfull|Hroom];
      injection H as <-.
    + split; simpl; [by apply flush_fits | by right].
    + destruct Hinv as [Hc Hb]. split; simpl; [done|]. right.
      destruct cur; simpl; [done|]. unfold fits.
      rewrite len_joinSpace. lia.
Qed.

Lemma sentenceLoop_bound fuel maxSize sentences st st' :
  boundInv maxSize st →
  sentenceLoop fuel maxSize st sentences = Some st' →
  boundInv maxSize st'.
Proof.
  revert st. induction sentences as [|s rest IH]; intros st Hinv H; simpl in H.
  - by injection H as <-.
  - destruct (sentenceStep fuel maxSize st s) as [st1|] eqn:Hs; [|done].
    simpl in H. eapply IH; [|exact H]. by eapply sentenceStep_bound.
Qed.

(** Every chunk that [splitLargeParagraph] returns fits. *)
Lemma splitLargeParagraph_fits fuel paragraph maxSize out :
  splitLargeParagraph fuel paragraph maxSize = Some out →
  Forall (fits maxSize) out.
Proof.
  unfold splitLargeParagraph.
  destruct (Z.leb_spec (len paragraph) maxSize) as [Hle|Hgt]; intros H.
  - injection H as <-. by constructor.
  - destruct (sentenceLoop _ _ _ _) as [[chunks cur]|] eqn:Hl; [|done].
    simpl in H. injection H as <-. apply flush_fits.
    eapply sentenceLoop_bound; [|exact Hl]. split; simpl; [done | by left].
Qed.

(** Termination: with a positive maximum and fuel for the longest
    sentence, the loop over the sentences returns. *)
Lemma sentenceStep_returns fuel maxSize st sentence :
  1 ≤ maxSize → (length sentence ≤ fuel)%nat →
  is_Some (sentenceStep fuel maxSize st sentence).
Proof.
  intros Hmax Hf. destruct st as [chunks cur]. unfold sentenceStep.
  destruct (Z.ltb_spec maxSize (len sentence)).
  - destruct (hardSplit_returns fuel sentence maxSize 0 (flush chunks cur))
      as [out ->]; [done | unfold len; lia | done].
  - by destruct (_ <? _).
Qed.

Lemma sentenceLoop_returns fuel maxSize sentences st :
  1 ≤ maxSize → Forall (λ s, (length s ≤ fuel)%nat) sentences →
  is_Some (sentenceLoop fuel maxSize st sentences).
Proof.
  intros Hmax. revert st.
  induction sentences as [|s rest IH]; intros st Hf; simpl; [done|].
  apply Forall_cons in Hf as [Hs Hrest].
  destruct (sentenceStep_returns fuel maxSize st s Hmax Hs) as [st1 ->].
  simpl. by apply IH.
Qed.

Lemma splitIntoSentences_length text :
  Forall (λ s, (length s ≤ length text)%nat) (splitIntoSentences text).
Proof.
  unfold splitIntoSentences. apply Forall_forall. intros s Hs.
  apply list_elem_of_filter in Hs as [_ Hs].
  pose proof (split_length re_sentence_break text) as Hall.
  rewrite Forall_forall in Hall. by apply Hall.
Qed.

Lemma splitLargeParagraph_returns fuel paragraph maxSize :
  1 ≤ maxSize → (length paragraph ≤ fuel)%nat →
  is_Some (splitLargeParagraph fuel paragraph maxSize).
Proof.
  intros Hmax Hf. unfold splitLargeParagraph.
  destruct (_ <=? _); [done|].
  destruct (sentenceLoop_returns fuel maxSize (splitIntoSentences paragraph)
              ([], []) Hmax) as [[chunks cur] ->]; [|done].
  eapply Forall_impl; [apply splitIntoSentences_length|].
  simpl. intros. lia.
Qed.

(** Loop invariant for non-emptiness: the first chunk pushed is not empty,
    or nothing was pushed yet and the buffer starts with a code unit that
    is not white space. *)
Definition startsNonspace (s : jsstring) : Prop :=
  ∃ c x, s = c :: x ∧ is_space c = false.

Definition headNonempty (l : list jsstring) : Prop :=
  ∃ y r, l = y :: r ∧ y ≠ [].

Definition headInv (st : list jsstring * jsstring) : Prop :=
  headNonempty st.1 ∨ (st.1 = [] ∧ startsNonspace st.2).

Lemma headNonempty_app l k : headNonempty l → headNonempty (l ++ k).
Proof. intros (y & r & -> & Hy). by exists y, (r ++ k). Qed.

Lemma flush_head chunks currentChunk :
  headInv (chunks, currentChunk) → headNonempty (flush chunks currentChunk).
Proof.
  unfold headInv. simpl.
  intros [Hh|[-> (c & x & -> & Hc)]]; unfold flush.
  - destruct (truthy currentChunk); [by apply headNonempty_app | done].
  - simpl. destruct (trim_cons_nonspace c x Hc) as (r & ->).
    by exists (c :: r), [].
Qed.

Lemma sentenceStep_head fuel maxSize st sentence st' :
  headInv st →
  sentenceStep fuel maxSize st sentence = Some st' →
  headInv st'.
Proof.
  destruct st as [chunks cur]. intros Hinv H. unfold sentenceStep in H.
  destruct (_ <? len sentence).
  - destruct (hardSplit _ _ _ _ _) as [out|] eqn:Hs; [|done].
    injection H as <-.
    apply hardSplit_extends in Hs as (slices & -> & _); [|lia].
    left. simpl. by apply headNonempty_app, flush_head.
  - destruct (_ <? _); injection H as <-.
    + left. by apply flush_head.
    + unfold headInv in *. simpl in *.
      destruct Hinv as [Hh|[-> (c & x & -> & Hc)]]; [by left|].
      right. split; [done|]. simpl. by exists c, (x ++ SP :: sentence).
Qed.

Lemma sentenceStep_head_first fuel maxSize sentence st' :
  startsNonspace sentence →
  sentenceStep fuel maxSize ([], []) sentence = Some st' →
  headInv st'.
Proof.
  intros (c & x & -> & Hc) H. unfold sentenceStep in H.
  destruct (_ <? len (c :: x)).
  - destruct (hardSplit _ _ _ _ _) as [out|] eqn:Hs; [|done].
    injection H as <-.
    apply hardSplit_first in Hs as (y & slices & ->); [|done].
    left. by exists (c :: y), slices.
  - destruct (_ <? _); injection H as <-; right; (split; [done|]);
      by exists c, x.
Qed.

Lemma sentenceLoop_head fuel maxSize sentences st st' :
  headInv st →
  sentenceLoop fuel maxSize st sentences = Some st' →
  headInv st'.
Proof.
  revert st. induction sentences as [|s rest IH]; intros st Hinv H; simpl in H.
  - by injection H as <-.
  - destruct (sentenceStep fuel maxSize st s) as [st1|] eqn:Hs; [|done].
    simpl in H. eapply IH; [|exact H]. by eapply sentenceStep_head.
Qed.

(** The first sentence of a text that starts with a code unit that is not
    white space starts with that code unit. *)
Lemma splitIntoSentences_first c t :
  is_space c = false →
  ∃ x rest, splitIntoSentences (c :: t) = (c :: x) :: rest.
Proof.
  intros Hc. unfold splitIntoSentences.
  destruct (split_first_cons re_sentence_break c t) as (x & rest & ->);
    [done|].
  exists x, (filter (λ s, 0 < len (trim s)) rest).
  rewrite filter_cons_True; [done|].
  destruct (trim_cons_nonspace c x Hc) as (r & ->). unfold len. simpl. lia.
Qed.

(** The first chunk of a paragraph that starts with a code unit that is not
    white space is not empty. *)
Lemma splitLargeParagraph_head fuel paragraph maxSize out :
  startsNonspace paragraph →
  splitLargeParagraph fuel paragraph maxSize = Some out →
  headNonempty out.
Proof.
  intros (c & t & -> & Hc). unfold splitLargeParagraph.
  destruct (_ <=? _); intros H.
  - injection H as <-. by exists (c :: t), [].
  - destruct (splitIntoSentences_first c t Hc) as (x & rest & Hsp).
    rewrite Hsp in H. simpl in H.
    destruct (sentenceStep fuel maxSize ([], []) (c :: x)) as [st1|] eqn:Hs;
      [|done].
    simpl in H.
    destruct (sentenceLoop _ _ _ _) as [[chunks cur]|] eqn:Hl; [|done].
    simpl in H. injection H as <-. apply flush_head.
    eapply sentenceLoop_head; [|exact Hl].
    eapply sentenceStep_head_first; [|exact Hs]. by exists c, x.
Qed.

(** *** Paragraphs *)

Lemma paragraphLoop_extends fuel maxSize rawChunks paragraphs out :
  paragraphLoop fuel maxSize rawChunks paragraphs = Some out →
  ∃ more, out = rawChunks ++ more ∧ Forall (fits maxSize) more.
Proof.
  revert rawChunks.
  induction paragraphs as [|p rest IH]; intros rawChunks H; simpl in H.
  - injection H as <-. exists []. by rewrite app_nil_r.
  - destruct (splitLargeParagraph fuel p maxSize) as [sub|] eqn:Hp; [|done].
    simpl in H. apply IH in H as (more & -> & Hfit).
    exists (sub ++ more). split; [by rewrite app_assoc|].
    apply Forall_app. split; [by eapply splitLargeParagraph_fits | done].
Qed.

Lemma paragraphLoop_returns fuel maxSize rawChunks paragraphs :
  1 ≤ maxSize → Forall (λ p, (length p ≤ fuel)%nat) paragraphs →
  is_Some (paragraphLoop fuel maxSize rawChunks paragraphs).
Proof.
  intros Hmax. revert rawChunks.
  induction paragraphs as [|p rest IH]; intros rawChunks Hf; simpl; [done|].
  apply Forall_cons in Hf as [Hp Hrest].
  destruct (splitLargeParagraph_returns fuel p maxSize Hmax Hp) as [sub ->].
  simpl. by apply IH.
Qed.

Lemma paragraphLoop_head fuel maxSize p rest out :
  startsNonspace p →
  paragraphLoop fuel maxSize [] (p :: rest) = Some out →
  headNonempty out.
Proof.
  intros Hp H. simpl in H.
  destruct (splitLargeParagraph fuel p maxSize) as [sub|] eqn:Hs; [|done].
  simpl in H. apply paragraphLoop_extends in H as (more & -> & _).
  apply headNonempty_app. by eapply splitLargeParagraph_head.
Qed.

(** The first paragraph of a trimmed, non-empty text starts with the first
    code unit of the text. *)
Lemma splitParagraphs_first c t :
  is_space c = false →
  ∃ x rest, splitParagraphs (c :: t) = (c :: x) :: rest.
Proof.
  intros Hc. unfold splitParagraphs.
  destruct (split_first_cons re_paragraph_break c t) as (x & rest & ->);
    [by apply re_paragraph_break_nonspace|].
  rewrite fmap_cons.
  destruct (trim_cons_nonspace c x Hc) as (r & ->).
  exists r, (filter (λ p, 0 < len p) (trim <$> rest)).
  rewrite filter_cons_True; [done|]. unfold len. simpl. lia.
Qed.

Lemma splitParagraphs_length s :
  Forall (λ p, (length p ≤ length s)%nat) (splitParagraphs s).
Proof.
  unfold splitParagraphs. apply Forall_forall. intros p Hp.
  apply list_elem_of_filter in Hp as [_ Hp].
  apply list_elem_of_fmap in Hp as (piece & -> & Hpiece).
  pose proof (split_length re_paragraph_break s) as Hall.
  rewrite Forall_forall in Hall. specialize (Hall _ Hpiece).
  pose proof (length_trim_le piece). lia.
Qed.

(** *** The merge pass *)

Lemma mergeStep_bound minSize maxSize st chunk :
  boundInv maxSize st → fits maxSize chunk →
  boundInv maxSize (mergeStep minSize maxSize st chunk).
Proof.
  destruct st as [merged cur]. intros [Hm Hc] Hchunk. simpl in *.
  unfold mergeStep.
  destruct cur as [|c r]; simpl; [by split; [|right]|].
  destruct Hc as [?|Hc]; [done|].
  destruct (_ <? minSize).
  - destruct (Z.leb_spec (len (joinSpace (c :: r) chunk)) maxSize).
    + split; simpl; [done | by right].
    + split; simpl; [|by right]. apply Forall_app. by split; [|constructor].
  - split; simpl; [|by right]. apply Forall_app. by split; [|constructor].
Qed.

Lemma mergeFold_bound minSize maxSize chunks st :
  boundInv maxSize st → Forall (fits maxSize) chunks →
  boundInv maxSize (foldl (mergeStep minSize maxSize) st chunks).
Proof.
  revert st. induction chunks as [|c rest IH]; intros st Hinv Hf; simpl; [done|].
  apply Forall_cons in Hf as [Hc Hrest].
  apply IH; [|done]. by apply mergeStep_bound.
Qed.

Lemma mergeFinish_bound minSize maxSize st :
  boundInv maxSize st → Forall (fits maxSize) (mergeFinish minSize maxSize st).
Proof.
  destruct st as [merged cur]. intros [Hm Hc]. simpl in *. unfold mergeFinish.
  destruct cur as [|c r]; simpl; [done|].
  destruct Hc as [?|Hc]; [done|].
  assert (Forall (fits maxSize) (merged ++ [c :: r])) as Hpush.
  { apply Forall_app. by split; [|constructor]. }
  destruct (_ <? minSize); [|done].
  destruct (last merged) as [lastMerged|]; [|done].
  destruct (Z.leb_spec (len (joinSpace lastMerged (c :: r))) maxSize); [|done].
  by apply Forall_insert.
Qed.

(** Merging keeps every chunk within the maximum. *)
Lemma mergeSmallChunks_fits chunks minSize maxSize :
  Forall (fits maxSize) chunks →
  Forall (fits maxSize) (mergeSmallChunks chunks minSize maxSize).
Proof.
  intros Hf. unfold mergeSmallChunks. destruct (_ <=? _)%nat; [done|].
  apply mergeFinish_bound, mergeFold_bound; [|done].
  split; simpl; [done | by left].
Qed.

(** Something was kept: a chunk was emitted or the buffer is not empty. *)
Definition keptInv (st : list jsstring * jsstring) : Prop :=
  st.1 ≠ [] ∨ st.2 ≠ [].

Lemma mergeStep_kept minSize maxSize st chunk :
  keptInv st → keptInv (mergeStep minSize maxSize st chunk).
Proof.
  destruct st as [merged cur]. unfold keptInv, mergeStep. simpl.
  intros [Hm|Hc]; destruct cur as [|c r]; simpl; try done; try (by left);
    repeat case_match; simpl; try (by right); left;
    by destruct merged.
Qed.

Lemma mergeFold_kept minSize maxSize chunks st :
  keptInv st → keptInv (foldl (mergeStep minSize maxSize) st chunks).
Proof.
  revert st. induction chunks as [|c rest IH]; intros st Hinv; simpl; [done|].
  by apply IH, mergeStep_kept.
Qed.

Lemma mergeFinish_kept minSize maxSize st :
  keptInv st → mergeFinish minSize maxSize st ≠ [].
Proof.
  destruct st as [merged cur]. unfold keptInv, mergeFinish. simpl.
  intros Hinv. destruct cur as [|c r]; simpl; [by destruct Hinv|].
  assert (merged ++ [c :: r] ≠ []) as Hpush by by destruct merged.
  destruct (_ <? minSize); [|done].
  destruct (last merged) as [lastMerged|] eqn:Hlast; [|done].
  destruct (_ <=? _); [|done].
  intros Hnil. apply (f_equal length) in Hnil.
  rewrite length_insert in Hnil. by destruct merged.
Qed.

(** Merging a list whose first chunk is not empty returns some chunk. *)
Lemma mergeSmallChunks_nonempty chunks minSize maxSize :
  headNonempty chunks → mergeSmallChunks chunks minSize maxSize ≠ [].
Proof.
  intros (y & r & -> & Hy). unfold mergeSmallChunks.
  destruct (_ <=? _)%nat; [done|].
  apply mergeFinish_kept. simpl. apply mergeFold_kept.
  right. simpl. unfold mergeStep. simpl. done.
Qed.

(** *** The whole chunker *)

Lemma chunkDocument_returns fuel docId title content options :
  1 ≤ maxSizeOf options → (length content ≤ fuel)%nat →
  is_Some (chunkDocument fuel docId title content options).
Proof.
  intros Hmax Hf. unfold chunkDocument. fold (maxSizeOf options).
  destruct (truthy (trim content)); simpl; [|done].
  destruct (paragraphLoop_returns fuel (maxSizeOf options) []
              (splitParagraphs (trim content)) Hmax) as [raw ->]; [|done].
  eapply Forall_impl; [apply splitParagraphs_length|].
  simpl. intros p Hp. pose proof (length_trim_le content). lia.
Qed.

(** The texts of the chunks are the merged raw chunks. *)
Lemma chunkDocument_inv fuel docId title content options chunks :
  chunkDocument fuel docId title content options = Some chunks →
  (trim content = [] ∧ chunks = []) ∨
  (trim content ≠ [] ∧
   ∃ rawChunks,
     paragraphLoop fuel (maxSizeOf options) []
       (splitParagraphs (trim content)) = Some rawChunks ∧
     chunks =
       imap (λ index text, mkChunk (makeChunkId docId index) docId title text)
         (mergeSmallChunks rawChunks (minSizeOf options) (maxSizeOf options))).
Proof.
  unfold chunkDocument. fold (maxSizeOf options) (minSizeOf options).
  destruct (trim content) as [|c t] eqn:Ht; simpl; intros H.
  - left. by injection H as <-.
  - right. split; [done|].
    destruct (paragraphLoop _ _ _ _) as [raw|]; [|done].
    simpl in H. injection H as <-. by exists raw.
Qed.

Lemma makeChunkId_inj docId : Inj (=) (=) (makeChunkId docId).
Proof.
  intros i j H. unfold makeChunkId in H.
  apply app_inv_head, app_inv_head in H.
  by apply lit_inj, (inj pretty) in H.
Qed.

Lemma imap_chunkIds docId title (texts : list jsstring) :
  chunkId <$>
    imap (λ index text, mkChunk (makeChunkId docId index) docId title text)
      texts =
  makeChunkId docId <$> seq 0 (length texts).
Proof.
  assert (∀ k,
    chunkId <$>
      imap (λ index text,
              mkChunk ((makeChunkId docId ∘ Nat.add k) index) docId title text)
           texts =
    makeChunkId docId <$> seq k (length texts)) as Hgen.
  { induction texts as [|t rest IH]; intros k; [done|].
    rewrite imap_cons. simpl length. rewrite <- cons_seq, !fmap_cons.
    f_equal; [simpl; by rewrite Nat.add_0_r|].
    rewrite <- (IH (S k)). f_equal. apply imap_ext. intros i x _. simpl.
    do 2 f_equal. lia. }
  exact (Hgen 0%nat).
Qed.

(** *** Raising the minimum size

    Two runs of the merge loop over the same chunks, the second with the
    larger minimum.  As long as no chunk is the empty string the second run
    never has more groups than the first: it is a group behind, or level
    with a buffer that is no longer and a last emitted chunk that, joined to
    the buffer, is no longer either. *)
Definition lastLen (merged : list jsstring) : Z :=
  from_option len 0 (last merged).

Definition monoInv (st1 st2 : list jsstring * jsstring) : Prop :=
  st1.2 ≠ [] ∧ st2.2 ≠ [] ∧
  ((length st2.1 = length st1.1 ∧ len st2.2 ≤ len st1.2 ∧
    lastLen st2.1 + len st2.2 ≤ lastLen st1.1 + len st1.2) ∨
   (S (length st2.1) = length st1.1 ∧
    len st2.2 ≤ lastLen st1.1 + 1 + len st1.2) ∨
   (S (S (length st2.1)) ≤ length st1.1)%nat).

Lemma lastLen_snoc merged x : lastLen (merged ++ [x]) = len x.
Proof. unfold lastLen. by rewrite last_snoc. Qed.

Lemma lastLen_nonneg merged : 0 ≤ lastLen merged.
Proof. unfold lastLen. destruct (last merged); simpl; [apply len_nonneg|lia]. Qed.

Lemma joinSpace_nonempty a b : joinSpace a b ≠ [].
Proof. unfold joinSpace. by destruct a. Qed.

Lemma mergeStep_mono min1 min2 maxSize st1 st2 chunk :
  min1 ≤ min2 → chunk ≠ [] → monoInv st1 st2 →
  monoInv (mergeStep min1 maxSize st1 chunk) (mergeStep min2 maxSize st2 chunk).
Proof.
  destruct st1 as [mg1 cur1], st2 as [mg2 cur2].
  intros Hmin Hchunk (Hc1 & Hc2 & Hrel). simpl in *.
  pose proof (len_nonneg chunk). pose proof (len_nonneg cur1).
  pose proof (len_nonneg cur2).
  pose proof (lastLen_nonneg mg1). pose proof (lastLen_nonneg mg2).
  unfold mergeStep.
  apply truthy_true in Hc1 as Ht1. apply truthy_true in Hc2 as Ht2.
  rewrite Ht1, Ht2. simpl. rewrite !len_joinSpace.
  destruct (Z.ltb_spec (len cur1) min1), (Z.ltb_spec (len cur2) min2);
    try destruct (Z.leb_spec (len cur1 + 1 + len chunk) maxSize);
    try destruct (Z.leb_spec (len cur2 + 1 + len chunk) maxSize);
    (split; [|split]); simpl;
    try apply joinSpace_nonempty; try done;
    rewrite ?length_app, ?lastLen_snoc, ?len_joinSpace; simpl; lia.
Qed.

Lemma mergeFold_mono min1 min2 maxSize chunks st1 st2 :
  min1 ≤ min2 → Forall (λ c, c ≠ []) chunks → monoInv st1 st2 →
  monoInv (foldl (mergeStep min1 maxSize) st1 chunks)
          (foldl (mergeStep min2 maxSize) st2 chunks).
Proof.
  intros Hmin. revert st1 st2.
  induction chunks as [|c rest IH]; intros st1 st2 Hne Hinv; simpl; [done|].
  apply Forall_cons in Hne as [Hc Hrest].
  apply IH; [done|]. by apply mergeStep_mono.
Qed.

Lemma length_mergeFinish minSize maxSize merged cur :
  cur ≠ [] →
  length (mergeFinish minSize maxSize (merged, cur)) =
    if bool_decide (len cur < minSize ∧ merged ≠ [] ∧
                    lastLen merged + 1 + len cur ≤ maxSize)
    then length merged else S (length merged).
Proof.
  intros Hcur. unfold mergeFinish. apply truthy_true in Hcur as ->.
  assert (length (merged ++ [cur]) = S (length merged)) as Hpush
    by (rewrite length_app; simpl; lia).
  destruct (Z.ltb_spec (len cur) minSize) as [Hlt|Hge].
  - destruct merged as [|x l _] using rev_ind.
    + simpl. rewrite bool_decide_eq_false_2; [done|]. by intros (_ & ? & _).
    + rewrite last_snoc, len_joinSpace, lastLen_snoc.
      destruct (Z.leb_spec (len x + 1 + len cur) maxSize).
      * rewrite length_insert. rewrite bool_decide_eq_true_2; [done|].
        split; [done|]. split; [by destruct l | done].
      * rewrite bool_decide_eq_false_2; [done|]. intros (_ & _ & ?). lia.
  - rewrite bool_decide_eq_false_2; [done|]. intros (? & _). lia.
Qed.

Lemma mergeFinish_mono min1 min2 maxSize st1 st2 :
  min1 ≤ min2 → monoInv st1 st2 →
  (length (mergeFinish min2 maxSize st2) ≤
     length (mergeFinish min1 maxSize st1))%nat.
Proof.
  destruct st1 as [mg1 cur1], st2 as [mg2 cur2].
  intros Hmin (Hc1 & Hc2 & Hrel). simpl in Hc1, Hc2, Hrel.
  rewrite !length_mergeFinish by done.
  repeat case_bool_decide; try lia.
  destruct Hrel as [(Hn & Hcur & Hlast)|[(Hn & _)|Hn]]; try lia.
  exfalso. match goal with H : ¬ _ |- _ => apply H end.
  match goal with H : _ ∧ _ ∧ _ |- _ => destruct H as (? & Hne & ?) end.
  split; [lia|]. split; [|lia].
  intros ->. simpl in Hn. by destruct mg1.
Qed.

(** Raising the minimum size never increases the number of merged chunks,
    provided no chunk handed to the merge pass is the empty string. *)
Lemma mergeSmallChunks_count_mono chunks min1 min2 maxSize :
  Forall (λ c, c ≠ []) chunks → min1 ≤ min2 →
  (length (mergeSmallChunks chunks min2 maxSize) ≤
     length (mergeSmallChunks chunks min1 maxSize))%nat.
Proof.
  intros Hne Hmin. unfold mergeSmallChunks.
  destruct (_ <=? _)%nat; [done|].
  destruct chunks as [|c rest]; [done|].
  apply Forall_cons in Hne as [Hc Hrest]. simpl.
  apply mergeFinish_mono; [done|]. apply mergeFold_mono; [done|done|].
  unfold mergeStep. simpl. split; [done|]. split; [done|]. left. simpl. lia.
Qed.

Lemma paragraphLoop_fitting fuel maxSize rawChunks paragraphs :
  Forall (fits maxSize) paragraphs →
  paragraphLoop fuel maxSize rawChunks paragraphs =
    Some (rawChunks ++ paragraphs).
Proof.
  revert rawChunks.
  induction paragraphs as [|p rest IH]; intros rawChunks Hf; simpl.
  - by rewrite app_nil_r.
  - apply Forall_cons in Hf as [Hp Hrest]. unfold splitLargeParagraph.
    destruct (Z.leb_spec (len p) maxSize) as [_|Hgt];
      [|unfold fits in Hp; lia].
    simpl. rewrite IH by done. by rewrite <- app_assoc.
Qed.

Lemma splitParagraphs_nonempty s : Forall (λ p, p ≠ []) (splitParagraphs s).
Proof.
  unfold splitParagraphs. apply Forall_forall. intros p Hp.
  apply list_elem_of_filter in Hp as [Hlen _]. intros ->.
  unfold len in Hlen. simpl in Hlen. lia.
Qed.

(** *** A maximum that is not positive

    The first sentence of the first paragraph is longer than the maximum,
    and its hard split does not finish: nothing is returned for content
    that is not blank. *)
Lemma splitLargeParagraph_hangs fuel paragraph maxSize :
  maxSize ≤ 0 → startsNonspace paragraph →
  splitLargeParagraph fuel paragraph maxSize = None.
Proof.
  intros Hmax (c & t & -> & Hc). unfold splitLargeParagraph.
  destruct (Z.leb_spec (len (c :: t)) maxSize) as [Hle|_].
  { unfold len in Hle. simpl in Hle. lia. }
  destruct (splitIntoSentences_first c t Hc) as (x & rest & ->).
  cbn [sentenceLoop]. unfold sentenceStep.
  destruct (Z.ltb_spec maxSize (len (c :: x))) as [_|Hge].
  - rewrite hardSplit_diverges; [done|done|]. unfold len. simpl. lia.
  - unfold len in Hge. simpl in Hge. lia.
Qed.

(** *** Fuel only bounds the hard split

    A result obtained with some fuel is the result with any larger fuel. *)
Lemma sentenceStep_fuel_mono fuel fuel' maxSize st sentence st' :
  (fuel ≤ fuel')%nat →
  sentenceStep fuel maxSize st sentence = Some st' →
  sentenceStep fuel' maxSize st sentence = Some st'.
Proof.
  intros Hle. destruct st as [chunks cur]. unfold sentenceStep.
  destruct (_ <? len sentence); [|done].
  destruct (hardSplit fuel _ _ _ _) as [out|] eqn:Hs; [|done].
  by rewrite (hardSplit_fuel_mono _ _ _ _ _ _ _ Hle Hs).
Qed.

Lemma sentenceLoop_fuel_mono fuel fuel' maxSize sentences st st' :
  (fuel ≤ fuel')%nat →
  sentenceLoop fuel maxSize st sentences = Some st' →
  sentenceLoop fuel' maxSize st sentences = Some st'.
Proof.
  intros Hle. revert st.
  induction sentences as [|s rest IH]; intros st; simpl; [done|].
  destruct (sentenceStep fuel maxSize st s) as [st1|] eqn:Hs; [|done].
  rewrite (sentenceStep_fuel_mono _ _ _ _ _ _ Hle Hs). simpl. apply IH.
Qed.

Lemma splitLargeParagraph_fuel_mono fuel fuel' paragraph maxSize out :
  (fuel ≤ fuel')%nat →
  splitLargeParagraph fuel paragraph maxSize = Some out →
  splitLargeParagraph fuel' paragraph maxSize = Some out.
Proof.
  intros Hle. unfold splitLargeParagraph. destruct (_ <=? _); [done|].
  destruct (sentenceLoop fuel _ _ _) as [st|] eqn:Hl; [|done].
  by rewrite (sentenceLoop_fuel_mono _ _ _ _ _ _ Hle Hl).
Qed.

Lemma paragraphLoop_fuel_mono fuel fuel' maxSize rawChunks paragraphs out :
  (fuel ≤ fuel')%nat →
  paragraphLoop fuel maxSize rawChunks paragraphs = Some out →
  paragraphLoop fuel' maxSize rawChunks paragraphs = Some out.
Proof.
  intros Hle. revert rawChunks.
  induction paragraphs as [|p rest IH]; intros rawChunks; simpl; [done|].
  destruct (splitLargeParagraph fuel p maxSize) as [sub|] eqn:Hp; [|done].
  rewrite (splitLargeParagraph_fuel_mono _ _ _ _ _ Hle Hp). simpl. apply IH.
Qed.

Lemma chunkDocument_fuel_mono fuel fuel' docId title content options chunks :
  (fuel ≤ fuel')%nat →
  chunkDocument fuel docId title content options = Some chunks →
  chunkDocument fuel' docId title content options = Some chunks.
Proof.
  intros Hle. unfold chunkDocument. destruct (negb _); [done|].
  destruct (paragraphLoop fuel _ _ _) as [raw|] eqn:Hp; [|done].
  by rewrite (paragraphLoop_fuel_mono _ _ _ _ _ _ Hle Hp).
Qed.

End ChunkerFacts.

(** ** Properties of the chunker *)

Module ChunkerSpec.
Import JsString JsStringFacts Chunker ChunkerFacts.

(** C1 (as amended): with a maximum chunk size of at least 1 and fuel for
    the length of the content, [chunkDocument] returns, and what it returns
    is the empty sequence exactly when the trimmed content is empty. *)
Theorem chunkDocument_empty_iff fuel docId title content options :
  1 ≤ maxSizeOf options → (length content ≤ fuel)%nat →
  ∃ chunks,
    chunkDocument fuel docId title content options = Some chunks ∧
    (chunks = [] ↔ trim content = []).
Proof.
  intros Hmax Hf.
  destruct (chunkDocument_returns fuel docId title content options Hmax Hf)
    as [chunks H].
  exists chunks. split; [done|].
  apply chunkDocument_inv in H as [[Ht ->]|(Ht & raw & Hraw & ->)]; [done|].
  split; [|done]. intros Hnil. exfalso.
  apply (f_equal length) in Hnil. rewrite length_imap in Hnil.
  destruct (trim content) as [|c t] eqn:Htrim; [done|].
  pose proof (trim_head _ _ _ Htrim) as Hc.
  destruct (splitParagraphs_first c t Hc) as (x & rest & Hsp).
  rewrite Hsp in Hraw.
  apply paragraphLoop_head in Hraw; [|by exists c, x].
  apply (mergeSmallChunks_nonempty _ (minSizeOf options) (maxSizeOf options))
    in Hraw.
  by destruct (mergeSmallChunks _ _ _).
Qed.

Lemma chunkDocument_empty_iff_witness :
  ∃ chunks,
    chunkDocument 4 (lit "doc") (lit "Title") [32; 9; 10; 32]%N None
      = Some chunks ∧
    (chunks = [] ↔ trim [32; 9; 10; 32]%N = []).
Proof.
  apply (chunkDocument_empty_iff 4 (lit "doc") (lit "Title")
           [32; 9; 10; 32]%N None).
  - vm_compute. discriminate.
  - simpl. lia.
Defined.

(** C1 as stated fails: with [maxChunkSize = 0] the hard split of the
    content ["a"] never finishes, so no sequence is returned at all. *)
Lemma chunkDocument_zero_max_never_returns :
  ¬ ∃ fuel chunks,
      chunkDocument fuel (lit "doc") (lit "Title") (lit "a")
        (Some (mkChunkOptions (Some 0) None)) = Some chunks.
Proof.
  intros (fuel & chunks & H).
  assert (hardSplit fuel (lit "a") 0 0 [] = None) as Hd
    by (by apply hardSplit_diverges).
  vm_compute in H. vm_compute in Hd. by rewrite Hd in H.
Qed.



(** C2: the chunk at position [i] has the id ["{docId}#chunk-{i}"]; hence
    the ids are pairwise distinct and are those of the positions
    [0 .. n-1] in order.  A sequence is returned whenever the maximum chunk
    size is at least 1. *)
Theorem chunkDocument_chunkIds docId title content options :
  (∀ fuel chunks,
     chunkDocument fuel docId title content options = Some chunks →
     (∀ i c, chunks !! i = Some c →
             chunkId c = docId ++ lit "#chunk-" ++ lit (pretty i)) ∧
     NoDup (chunkId <$> chunks) ∧
     chunkId <$> chunks =
       (λ i : nat, docId ++ lit "#chunk-" ++ lit (pretty i)) <$>
         seq 0 (length chunks)) ∧
  (∀ fuel, 1 ≤ maxSizeOf options → (length content ≤ fuel)%nat →
           is_Some (chunkDocument fuel docId title content options)).
Proof.
  split; [|intros fuel; apply chunkDocument_returns].
  intros fuel chunks H.
  assert (chunkId <$> chunks = makeChunkId docId <$> seq 0 (length chunks))
    as Hids.
  { apply chunkDocument_inv in H as [[_ ->]|(_ & raw & _ & ->)]; [done|].
    by rewrite imap_chunkIds, length_imap. }
  split; [|split; [|exact Hids]].
  - intros i c Hi.
    assert ((chunkId <$> chunks) !! i = Some (chunkId c)) as Hl
      by by rewrite list_lookup_fmap, Hi.
    rewrite Hids, list_lookup_fmap in Hl.
    apply lookup_lt_Some in Hi.
    rewrite lookup_seq_lt in Hl by done. simpl in Hl. by injection Hl as <-.
  - rewrite Hids. apply NoDup_fmap_2; [apply makeChunkId_inj | apply NoDup_seq].
Qed.


Lemma chunkDocument_chunkIds_witness :
  let chunks :=
    [mkChunk (lit "doc-1#chunk-0") (lit "doc-1") (lit "T")
       (lit "Para 1. Para 2.")] in
  (∀ i c, chunks !! i = Some c →
          chunkId c = lit "doc-1" ++ lit "#chunk-" ++ lit (pretty i)) ∧
  NoDup (chunkId <$> chunks) ∧
  chunkId <$> chunks =
    (λ i : nat, lit "doc-1" ++ lit "#chunk-" ++ lit (pretty i)) <$>
      seq 0 (length chunks).
Proof.
  apply (proj1 (chunkDocument_chunkIds (lit "doc-1") (lit "T")
                  (lit "Para 1." ++ [LF; LF] ++ lit "Para 2.") None) 16%nat).
  vm_compute. reflexivity.
Defined.


(** C4 fails on the code.  In the content ["aa      b"] (six spaces) with
    [maxChunkSize = 4] the single sentence is hard-split into ["aa"], [""]
    and ["b"]: the middle slice is all white space and is pushed as an
    empty chunk.  With [minChunkSize = 2] the merge pass returns one chunk,
    with [minChunkSize = 3] it returns two. *)
Theorem chunkDocument_count_not_monotone :
  let content := lit "aa      b" in
  let run := λ minSize,
    chunkDocument 9 (lit "doc") (lit "T") content
      (Some (mkChunkOptions (Some 4) (Some minSize))) in
  splitLargeParagraph 9 content 4 = Some [lit "aa"; []; lit "b"] ∧
  run 2 = Some [mkChunk (lit "doc#chunk-0") (lit "doc") (lit "T") (lit "aa b")] ∧
  run 3 = Some [mkChunk (lit "doc#chunk-0") (lit "doc") (lit "T") (lit "aa ");
                mkChunk (lit "doc#chunk-1") (lit "doc") (lit "T") (lit "b")].
Proof. vm_compute. done. Qed.

(** X1: without empty raw chunks the count is monotone: when no paragraph is
    longer than [maxChunkSize] (so nothing is split), raising
    [minChunkSize] never increases the number of chunks. *)
Theorem chunkDocument_count_monotone_unsplit
    fuel docId title content maxSize min1 min2 chunks1 chunks2 :
  min1 ≤ min2 →
  Forall (λ p, len p ≤ maxSize) (splitParagraphs (trim content)) →
  chunkDocument fuel docId title content
    (Some (mkChunkOptions (Some maxSize) (Some min1))) = Some chunks1 →
  chunkDocument fuel docId title content
    (Some (mkChunkOptions (Some maxSize) (Some min2))) = Some chunks2 →
  (length chunks2 ≤ length chunks1)%nat.
Proof.
  intros Hmin Hfit H1 H2.
  apply chunkDocument_inv in H1 as [[Ht1 ->]|(Ht1 & raw1 & Hraw1 & ->)];
    apply chunkDocument_inv in H2 as [[Ht2 ->]|(Ht2 & raw2 & Hraw2 & ->)];
    try done.
  unfold maxSizeOf, minSizeOf in *. simpl in *.
  rewrite paragraphLoop_fitting in Hraw1, Hraw2 by done.
  injection Hraw1 as <-. injection Hraw2 as <-. simpl.
  rewrite !length_imap.
  apply mergeSmallChunks_count_mono; [apply splitParagraphs_nonempty | done].
Qed.

Lemma chunkDocument_count_monotone_unsplit_witness :
  (length [mkChunk (lit "d#chunk-0") (lit "d") (lit "T") (lit "A. B. C.")]
   ≤ length [mkChunk (lit "d#chunk-0") (lit "d") (lit "T") (lit "A.");
             mkChunk (lit "d#chunk-1") (lit "d") (lit "T") (lit "B.");
             mkChunk (lit "d#chunk-2") (lit "d") (lit "T") (lit "C.")])%nat.
Proof.
  apply (chunkDocument_count_monotone_unsplit 12 (lit "d") (lit "T")
           (lit "A." ++ [LF; LF] ++ lit "B." ++ [LF; LF] ++ lit "C.")
           500 1 50).
  - lia.
  - vm_compute. repeat constructor; discriminate.
  - vm_compute. reflexivity.
  - vm_compute. reflexivity.
Defined.

End ChunkerSpec.

(** ** The repository's chunker tests ([tests/chunker.test.ts]) and the
    spec's example, run on the model *)

Module ChunkerTests.
Import JsString Chunker.

Definition texts (result : option (list Chunk)) : option (list jsstring) :=
  match result with
  | Some chunks => Some (text <$> chunks)
  | None => None
  end.

Definition paragraphs (ps : list string) : jsstring :=
  match ps with
  | [] => []
  | p :: rest => foldl (λ acc q, acc ++ [LF; LF] ++ lit q) (lit p) rest
  end.

Example short_content_is_one_chunk :
  chunkDocument 14 (lit "doc-1") (lit "Test") (lit "Short content.") None =
  Some [mkChunk (lit "doc-1#chunk-0") (lit "doc-1") (lit "Test")
          (lit "Short content.")].
Proof. vm_compute. reflexivity. Qed.

Example empty_content : chunkDocument 0 (lit "doc") (lit "Title") [] None = Some [].
Proof. vm_compute. reflexivity. Qed.

Example whitespace_only_content :
  chunkDocument 12 (lit "doc") (lit "Title")
    (lit "   " ++ [LF; LF] ++ lit "   " ++ [9%N] ++ lit "  ") None = Some [].
Proof. vm_compute. reflexivity. Qed.

Example spec_example_two_paragraphs :
  chunkDocument 16 (lit "doc-1") (lit "T") (paragraphs ["Para 1."; "Para 2."])
    None =
  Some [mkChunk (lit "doc-1#chunk-0") (lit "doc-1") (lit "T")
          (lit "Para 1. Para 2.")].
Proof. vm_compute. reflexivity. Qed.

Example single_newlines_stay_in_the_paragraph :
  texts (chunkDocument 31 (lit "doc") (lit "Title")
           (lit "Line one." ++ [LF] ++ lit "Line two." ++ [LF] ++
            lit "Line three.") None) =
  Some [lit "Line one." ++ [LF] ++ lit "Line two." ++ [LF] ++ lit "Line three."].
Proof. vm_compute. reflexivity. Qed.

Example small_chunks_are_merged :
  texts (chunkDocument 14 (lit "doc") (lit "Title")
           (paragraphs ["A."; "B."; "C."; "D."])
           (Some (mkChunkOptions None (Some 10)))) =
  Some [lit "A. B. C. D."].
Proof. vm_compute. reflexivity. Qed.

Example merging_respects_the_maximum :
  texts (chunkDocument 52 (lit "doc") (lit "Title")
           (paragraphs ["Short para one."; "Short para two.";
                        "Short para three."])
           (Some (mkChunkOptions (Some 100) (Some 50)))) =
  Some [lit "Short para one. Short para two. Short para three."].
Proof. vm_compute. reflexivity. Qed.

Example different_terminators :
  texts (chunkDocument 51 (lit "doc") (lit "Title")
           (lit "Question? Exclamation! Statement. Another question?")
           (Some (mkChunkOptions (Some 50) (Some 1)))) =
  Some [lit "Question? Exclamation! Statement."; lit "Another question?"].
Proof. vm_compute. reflexivity. Qed.

End ChunkerTests.

(** ** Facts about the answer composer *)

Module LlmFacts.
Import Llm.

Definition docIdOf (m : PineconeMatch.t) : jsstring :=
  Metadata.docId (PineconeMatch.metadata m).

Definition titleOf (m : PineconeMatch.t) : jsstring :=
  Metadata.title (PineconeMatch.metadata m).

(** The source a match stands for. *)
Definition toSource (m : PineconeMatch.t) : Source.t :=
  Source.mk (docIdOf m) (titleOf m).

Lemma has_true {V} (m : JsMap.t V) key : JsMap.has m key = true ↔ key ∈ m.*1.
Proof. unfold JsMap.has. apply bool_decide_eq_true. Qed.

Lemma addSource_known sourcesMap m :
  docIdOf m ∈ sourcesMap.*1 → addSource sourcesMap m = sourcesMap.
Proof.
  intros Hin. unfold addSource. fold (docIdOf m).
  apply has_true in Hin. by rewrite Hin.
Qed.

Lemma addSource_new sourcesMap m :
  docIdOf m ∉ sourcesMap.*1 →
  addSource sourcesMap m = sourcesMap ++ [(docIdOf m, toSource m)].
Proof.
  intros Hnin. unfold addSource, JsMap.set. fold (docIdOf m).
  destruct (JsMap.has sourcesMap (docIdOf m)) eqn:Hhas; [|done].
  by apply has_true in Hhas.
Qed.

(** The matches whose document has not been seen before them. *)
Fixpoint unseen (seen : list jsstring) (matches : list PineconeMatch.t)
    : list PineconeMatch.t :=
  match matches with
  | [] => []
  | m :: rest =>
      if decide (docIdOf m ∈ seen) then unseen seen rest
      else m :: unseen (seen ++ [docIdOf m]) rest
  end.

Lemma foldl_addSource sourcesMap matches :
  foldl addSource sourcesMap matches =
  sourcesMap ++
    ((λ m, (docIdOf m, toSource m)) <$> unseen (sourcesMap.*1) matches).
Proof.
  revert sourcesMap.
  induction matches as [|m rest IH]; intros sourcesMap; simpl.
  - by rewrite app_nil_r.
  - destruct (decide (docIdOf m ∈ sourcesMap.*1)) as [Hin|Hnin].
    + by rewrite addSource_known, IH.
    + rewrite addSource_new, IH by done.
      rewrite fmap_app, <- app_assoc. done.
Qed.

Lemma extractSources_unseen matches :
  extractSources matches = toSource <$> unseen [] matches.
Proof.
  unfold extractSources, JsMap.values, JsMap.empty.
  rewrite foldl_addSource. simpl.
  rewrite <- list_fmap_compose. done.
Qed.

Lemma unseen_not_seen seen matches m :
  m ∈ unseen seen matches → docIdOf m ∉ seen.
Proof.
  revert seen. induction matches as [|x rest IH]; intros seen; simpl.
  - by intros ?%elem_of_nil.
  - destruct (decide (docIdOf x ∈ seen)) as [Hin|Hnin]; [by apply IH|].
    intros [->|Hm]%elem_of_cons; [done|].
    apply IH in Hm. set_solver.
Qed.

Lemma unseen_all_seen seen matches :
  Forall (λ m, docIdOf m ∈ seen) matches → unseen seen matches = [].
Proof.
  induction 1 as [|x rest Hx _ IH]; simpl; [done|].
  by rewrite decide_True.
Qed.

Lemma unseen_NoDup seen matches : NoDup (docIdOf <$> unseen seen matches).
Proof.
  revert seen. induction matches as [|x rest IH]; intros seen; simpl.
  - constructor.
  - destruct (decide (docIdOf x ∈ seen)); [apply IH|].
    rewrite fmap_cons. constructor; [|apply IH].
    intros (m & Heq & Hm)%list_elem_of_fmap.
    apply unseen_not_seen in Hm. rewrite <- Heq in Hm. set_solver.
Qed.

Lemma unseen_covers seen matches m :
  m ∈ matches → docIdOf m ∉ seen →
  docIdOf m ∈ docIdOf <$> unseen seen matches.
Proof.
  revert seen. induction matches as [|x rest IH]; intros seen; simpl.
  - by intros ?%elem_of_nil.
  - intros Hm Hns. apply elem_of_cons in Hm.
    destruct (decide (docIdOf x ∈ seen)) as [Hin|Hnin].
    + destruct Hm as [Heq|Hm]; [by subst|]. by apply IH.
    + rewrite fmap_cons.
      destruct (decide (docIdOf m = docIdOf x)) as [Heq|Hne].
      * rewrite Heq. apply elem_of_cons. by left.
      * destruct Hm as [Heq|Hm]; [by subst|].
        apply elem_of_cons. right. apply IH; [done|].
        intros [Hseen|Hx%list_elem_of_singleton]%elem_of_app; done.
Qed.

(** A kept match is the first of the matches with its document. *)
Lemma unseen_first seen matches i m :
  unseen seen matches !! i = Some m →
  ∃ k, matches !! k = Some m ∧
       ∀ j m', matches !! j = Some m' → (j < k)%nat →
               docIdOf m' ≠ docIdOf m.
Proof.
  revert seen i. induction matches as [|x rest IH]; intros seen i; simpl.
  - done.
  - destruct (decide (docIdOf x ∈ seen)) as [Hin|Hnin].
    + intros Hi. pose proof Hi as Hm%list_elem_of_lookup_2%unseen_not_seen.
      destruct (IH _ _ Hi) as (k & Hk & Hfirst).
      exists (S k). split; [done|]. intros [|j] m' Hj Hlt; simpl in Hj.
      * injection Hj as <-. congruence.
      * apply (Hfirst j); [done|lia].
    + destruct i as [|i]; simpl.
      * intros [= <-]. exists 0%nat. split; [done|]. intros; lia.
      * intros Hi.
        pose proof Hi as Hm%list_elem_of_lookup_2%unseen_not_seen.
        destruct (IH _ _ Hi) as (k & Hk & Hfirst).
        exists (S k). split; [done|]. intros [|j] m' Hj Hlt; simpl in Hj.
        -- injection Hj as <-. set_solver.
        -- apply (Hfirst j); [done|lia].
Qed.

(** Kept matches are ordered by the first occurrence of their document:
    the document of an earlier one occurs before every occurrence of the
    document of a later one. *)
Lemma unseen_order seen matches i j s t :
  (i < j)%nat →
  unseen seen matches !! i = Some s →
  unseen seen matches !! j = Some t →
  ∃ k m, matches !! k = Some m ∧ docIdOf m = docIdOf s ∧
         ∀ k' m', matches !! k' = Some m' → docIdOf m' = docIdOf t →
                  (k < k')%nat.
Proof.
  revert seen i j. induction matches as [|x rest IH]; intros seen i j; simpl.
  - done.
  - destruct (decide (docIdOf x ∈ seen)) as [Hin|Hnin].
    + intros Hij Hi Hj.
      pose proof Hj as Ht%list_elem_of_lookup_2%unseen_not_seen.
      destruct (IH _ _ _ Hij Hi Hj) as (k & m & Hk & Hm & Hbefore).
      exists (S k), m. split; [done|]. split; [done|].
      intros [|k'] m' Hk' Hd; simpl in Hk'.
      * injection Hk' as <-. congruence.
      * apply Hbefore in Hk'; [lia|done].
    + destruct j as [|j]; [lia|]. simpl. intros Hij Hi Hj.
      pose proof Hj as Ht%list_elem_of_lookup_2%unseen_not_seen.
      assert (docIdOf t ≠ docIdOf x) as Hne by set_solver.
      destruct i as [|i]; simpl in Hi.
      * injection Hi as <-. exists 0%nat, x. split; [done|]. split; [done|].
        intros [|k'] m' Hk' Hd; simpl in Hk'; [|lia].
        injection Hk' as <-. congruence.
      * destruct (IH _ i j ltac:(lia) Hi Hj) as (k & m & Hk & Hm & Hbefore).
        exists (S k), m. split; [done|]. split; [done|].
        intros [|k'] m' Hk' Hd; simpl in Hk'.
        -- injection Hk' as <-. congruence.
        -- apply Hbefore in Hk'; [lia|done].
Qed.

End LlmFacts.

(** ** The repository's tests of [extractSources] ([tests/prompt.test.ts]) *)

Module LlmTests.
Import Llm.

Definition createMatch (id : string) (score : float) (docId title : string)
    : PineconeMatch.t :=
  PineconeMatch.mk (lit id) score
    (Metadata.mk (lit docId) (lit title) (lit "text")).

Example unique_sources :
  extractSources
    [createMatch "1" 0.5 "doc-1" "First Document";
     createMatch "2" 0.25 "doc-2" "Second Document"] =
  [Source.mk (lit "doc-1") (lit "First Document");
   Source.mk (lit "doc-2") (lit "Second Document")].
Proof. vm_compute. reflexivity. Qed.

Example deduplicated_by_docId :
  extractSources
    [createMatch "chunk-1" 0.75 "doc-1" "Document";
     createMatch "chunk-2" 0.5 "doc-1" "Document";
     createMatch "chunk-3" 0.25 "doc-1" "Document"] =
  [Source.mk (lit "doc-1") (lit "Document")].
Proof. vm_compute. reflexivity. Qed.

Example empty_matches : extractSources [] = [].
Proof. reflexivity. Qed.

Example order_of_first_occurrence :
  Source.docId <$>
    extractSources
      [createMatch "1" 1 "doc-a" "Doc A";
       createMatch "2" 0.75 "doc-b" "Doc B";
       createMatch "3" 0.5 "doc-a" "Doc A";
       createMatch "4" 0.25 "doc-c" "Doc C"] =
  [lit "doc-a"; lit "doc-b"; lit "doc-c"].
Proof. vm_compute. reflexivity. Qed.

(** The first title wins when a later match of the same document has
    another title. *)
Example first_title_wins :
  extractSources
    [createMatch "1" 1 "doc-a" "Old title";
     createMatch "2" 0.5 "doc-a" "New title"] =
  [Source.mk (lit "doc-a") (lit "Old title")].
Proof. vm_compute. reflexivity. Qed.

End LlmTests.

(** ** Facts about computations *)

Module RuntimeFacts.
Import Errors External Runtime.

Section WithServices.
Context `{Services}.

(** The state after more lines were written to the console. *)
Definition logged (s : State) (entries : list LogEntry) : State :=
  mkState (world s) (env s) (pineconeClient s) (pineconeIndex s)
    (calls s) (console s ++ entries).

(** The state after an awaited call [c] left the world as [w]. *)
Definition called (s : State) (c : Call) (w : World) : State :=
  mkState w (env s) (pineconeClient s) (pineconeIndex s)
    (calls s ++ [c]) (console s).

Lemma bind_returned {A B} (m : M A) (k : A → M B) s a s' :
  m s = (Returned a, s') → bind m k s = k a s'.
Proof. intros Hm. unfold bind. by rewrite Hm. Qed.

Lemma bind_threw {A B} (m : M A) (k : A → M B) s err s' :
  m s = (Threw err, s') → bind m k s = (Threw err, s').
Proof. intros Hm. unfold bind. by rewrite Hm. Qed.

Lemma try_catch_returned {A} (m : M A) handler s a s' :
  m s = (Returned a, s') → try_catch m handler s = (Returned a, s').
Proof. intros Hm. unfold try_catch. by rewrite Hm. Qed.

Lemma try_catch_threw {A} (m : M A) handler s err s' :
  m s = (Threw err, s') → try_catch m handler s = handler err s'.
Proof. intros Hm. unfold try_catch. by rewrite Hm. Qed.

Lemma console_write_run l t s :
  console_write l t s = (Returned (), logged s [mkLogEntry l t]).
Proof. done. Qed.

Lemma await_resolved {A} c (op : World → Completion A * World) s a w :
  op (world s) = (Resolved a, w) →
  await c op s = (Returned a, called s c w).
Proof. intros Hop. unfold await. by rewrite Hop. Qed.

Lemma await_rejected {A} c (op : World → Completion A * World) s err w :
  op (world s) = (Rejected err, w) →
  await c op s = (Threw err, called s c w).
Proof. intros Hop. unfold await. by rewrite Hop. Qed.

(** A computation whose external calls all satisfy [P]: it only appends
    such calls to the log. *)
Definition adds (P : Call → Prop) {A} (m : M A) : Prop :=
  ∀ s o s', m s = (o, s') →
    ∃ new, calls s' = calls s ++ new ∧ Forall P new.

Lemma adds_nothing P {A} (m : M A) :
  (∀ s o s', m s = (o, s') → calls s' = calls s) → adds P m.
Proof.
  intros Hm s o s' Hrun. exists []. rewrite app_nil_r.
  split; [by eapply Hm | done].
Qed.

Lemma adds_ret P {A} (a : A) : adds P (ret a).
Proof. apply adds_nothing. by intros s o s' [= _ <-]. Qed.

Lemma adds_throw P {A} err : adds P (throw (A:=A) err).
Proof. apply adds_nothing. by intros s o s' [= _ <-]. Qed.

Lemma adds_get P : adds P get.
Proof. apply adds_nothing. by intros s o s' [= _ <-]. Qed.

Lemma adds_console_write P l t : adds P (console_write l t).
Proof. apply adds_nothing. by intros s o s' [= _ <-]. Qed.

Lemma adds_set_pineconeClient P c : adds P (set_pineconeClient c).
Proof. apply adds_nothing. by intros s o s' [= _ <-]. Qed.

Lemma adds_set_pineconeIndex P i : adds P (set_pineconeIndex i).
Proof. apply adds_nothing. by intros s o s' [= _ <-]. Qed.

Lemma adds_await (P : Call → Prop) {A} c
    (op : World → Completion A * World) :
  P c → adds P (await c op).
Proof.
  intros Hc s o s' Hrun. unfold await in Hrun.
  destruct (op (world s)) as [r w]. injection Hrun as _ <-.
  exists [c]. split; [done | by constructor].
Qed.

Lemma adds_bind P {A B} (m : M A) (k : A → M B) :
  adds P m → (∀ a, adds P (k a)) → adds P (bind m k).
Proof.
  intros Hm Hk s o s' Hrun. unfold bind in Hrun.
  destruct (m s) as [[a|err] s1] eqn:Hms.
  - destruct (Hm _ _ _ Hms) as (new1 & Hc1 & H1).
    destruct (Hk a _ _ _ Hrun) as (new2 & Hc2 & H2).
    exists (new1 ++ new2). rewrite Hc2, Hc1, app_assoc.
    split; [done|]. by apply Forall_app.
  - injection Hrun as _ <-. by eapply Hm.
Qed.

Lemma adds_try_catch P {A} (m : M A) handler :
  adds P m → (∀ err, adds P (handler err)) → adds P (try_catch m handler).
Proof.
  intros Hm Hh s o s' Hrun. unfold try_catch in Hrun.
  destruct (m s) as [[a|err] s1] eqn:Hms.
  - injection Hrun as _ <-. by eapply Hm.
  - destruct (Hm _ _ _ Hms) as (new1 & Hc1 & H1).
    destruct (Hh err _ _ _ Hrun) as (new2 & Hc2 & H2).
    exists (new1 ++ new2). rewrite Hc2, Hc1, app_assoc.
    split; [done|]. by apply Forall_app.
Qed.

Lemma adds_weaken (P Q : Call → Prop) {A} (m : M A) :
  (∀ c, P c → Q c) → adds P m → adds Q m.
Proof.
  intros HPQ Hm s o s' Hrun.
  destruct (Hm _ _ _ Hrun) as (new & Hc & Hall).
  exists new. split; [done|]. by eapply Forall_impl.
Qed.

(** A computation that throws nothing but external-service errors. *)
Definition isExternalServiceError (err : Thrown) : Prop :=
  ∃ service message, err = ThrownApp (ExternalServiceError service message).

Definition throwsExternal {A} (m : M A) : Prop :=
  ∀ s err s', m s = (Threw err, s') → isExternalServiceError err.

Definition neverThrows {A} (m : M A) : Prop :=
  ∀ s err s', m s ≠ (Threw err, s').

Lemma neverThrows_external {A} (m : M A) : neverThrows m → throwsExternal m.
Proof. intros Hm s err s' Hrun. by apply Hm in Hrun. Qed.

Lemma neverThrows_ret {A} (a : A) : neverThrows (ret a).
Proof. by intros s err s'. Qed.

Lemma neverThrows_console_write l t : neverThrows (console_write l t).
Proof. by intros s err s'. Qed.

Lemma throwsExternal_bind {A B} (m : M A) (k : A → M B) :
  throwsExternal m → (∀ a, throwsExternal (k a)) → throwsExternal (bind m k).
Proof.
  intros Hm Hk s err s' Hrun. unfold bind in Hrun.
  destruct (m s) as [[a|err1] s1] eqn:Hms.
  - by eapply Hk.
  - injection Hrun as <- <-. by eapply Hm.
Qed.

(** A [catch] that always rethrows an external-service error. *)
Lemma throwsExternal_rethrow {A} (m : M A) service prefix :
  throwsExternal
    (try_catch m (λ err,
       throw (ThrownApp (ExternalServiceError service
                (prefix ++ messageOf err))))).
Proof.
  intros s err s' Hrun. unfold try_catch in Hrun.
  destruct (m s) as [[a|err1] s1]; [done|].
  injection Hrun as <- _. by eexists _, _.
Qed.

Lemma neverThrows_bind {A B} (m : M A) (k : A → M B) :
  neverThrows m → (∀ a, neverThrows (k a)) → neverThrows (bind m k).
Proof.
  intros Hm Hk s err s' Hrun. unfold bind in Hrun.
  destruct (m s) as [[a|err1] s1] eqn:Hms.
  - by eapply Hk.
  - by eapply Hm.
Qed.

Lemma neverThrows_try_catch {A} (m : M A) handler :
  (∀ err, neverThrows (handler err)) → neverThrows (try_catch m handler).
Proof.
  intros Hh s err s' Hrun. unfold try_catch in Hrun.
  destruct (m s) as [[a|err1] s1]; [done|]. by eapply Hh.
Qed.

Lemma neverThrows_returns {A} (m : M A) s :
  neverThrows m → ∃ a s', m s = (Returned a, s').
Proof.
  intros Hm. destruct (m s) as [[a|err] s'] eqn:Hrun; [by eauto|].
  by apply Hm in Hrun.
Qed.

(** A computation that makes no call leaves the call log as it is. *)
Lemma adds_none_calls {A} (m : M A) s o s' :
  adds (λ _, False) m → m s = (o, s') → calls s' = calls s.
Proof.
  intros Hm Hrun. destruct (Hm _ _ _ Hrun) as (new & -> & Hall).
  destruct new as [|c new]; [by rewrite app_nil_r|].
  by apply Forall_cons in Hall as [[] _].
Qed.

End WithServices.
End RuntimeFacts.

(** ** Facts about the gateways *)

Module ServiceFacts.
Import Errors External Runtime RuntimeFacts.

Definition isEmbeddingCall (c : Call) : Prop :=
  match c with CallFeatureExtraction _ _ _ => True | _ => False end.
Definition isChatCall (c : Call) : Prop :=
  match c with CallChatCompletion _ _ _ _ _ => True | _ => False end.
Definition isUpsertCall (c : Call) : Prop :=
  match c with CallUpsert _ _ => True | _ => False end.
Definition isQueryCall (c : Call) : Prop :=
  match c with CallQuery _ _ _ _ => True | _ => False end.
Definition isDeleteCall (c : Call) : Prop :=
  match c with CallDeleteMany _ _ => True | _ => False end.

Section WithServices.
Context `{Services}.

(** *** Embeddings *)

Lemma adds_getApiKey P : adds P Embeddings.getApiKey.
Proof.
  apply adds_bind; [apply adds_get|]. intros s.
  repeat case_match; auto using adds_ret, adds_throw.
Qed.

Lemma adds_callFeatureExtraction text :
  adds isEmbeddingCall (Embeddings.callFeatureExtraction text).
Proof.
  apply adds_bind; [apply adds_getApiKey|]. intros key.
  by apply adds_await.
Qed.

Lemma adds_embedText text : adds isEmbeddingCall (Embeddings.embedText text).
Proof.
  apply adds_try_catch; [|intros; apply adds_throw].
  apply adds_bind; [apply adds_callFeatureExtraction|].
  intros; apply adds_ret.
Qed.

Lemma adds_embedLoop embeddings texts :
  adds isEmbeddingCall (Embeddings.embedLoop embeddings texts).
Proof.
  revert embeddings. induction texts as [|t rest IH]; intros embeddings.
  - apply adds_ret.
  - apply adds_bind; [apply adds_callFeatureExtraction|]. intros; apply IH.
Qed.

Lemma adds_embedTexts texts :
  adds isEmbeddingCall (Embeddings.embedTexts texts).
Proof.
  destruct texts; [apply adds_ret|].
  apply adds_try_catch; [apply adds_embedLoop | intros; apply adds_throw].
Qed.

Lemma embedText_throwsExternal text :
  throwsExternal (Embeddings.embedText text).
Proof. apply throwsExternal_rethrow. Qed.

Lemma embedTexts_throwsExternal texts :
  throwsExternal (Embeddings.embedTexts texts).
Proof.
  destruct texts; [apply neverThrows_external, neverThrows_ret|].
  apply throwsExternal_rethrow.
Qed.

(** *** The vector index *)

Lemma adds_getClient P : adds P PineconeService.getClient.
Proof.
  apply adds_bind; [apply adds_get|]. intros s.
  repeat case_match; auto using adds_ret, adds_throw.
  apply adds_bind; [apply adds_set_pineconeClient|]. intros; apply adds_ret.
Qed.

Lemma adds_getIndex P : adds P PineconeService.getIndex.
Proof.
  apply adds_bind; [apply adds_get|]. intros s.
  repeat case_match; auto using adds_ret, adds_throw.
  apply adds_bind; [apply adds_getClient|]. intros c.
  apply adds_bind; [apply adds_set_pineconeIndex|]. intros; apply adds_ret.
Qed.

Lemma adds_upsertLoop index vectors :
  adds isUpsertCall (PineconeService.upsertLoop index vectors).
Proof.
  funelim (PineconeService.upsertLoop index vectors).
  - apply adds_ret.
  - apply adds_bind; [by apply adds_await|].
    intros u s. by apply (H0 u s).
Qed.

Lemma adds_upsertVectors vectors :
  adds isUpsertCall (PineconeService.upsertVectors vectors).
Proof.
  destruct vectors; [apply adds_ret|].
  apply adds_try_catch; [|intros; apply adds_throw].
  apply adds_bind; [apply adds_getIndex|]. intros; apply adds_upsertLoop.
Qed.

Lemma upsertVectors_throwsExternal vectors :
  throwsExternal (PineconeService.upsertVectors vectors).
Proof.
  destruct vectors; [apply neverThrows_external, neverThrows_ret|].
  apply throwsExternal_rethrow.
Qed.

Lemma adds_queryVectors vector topK :
  adds isQueryCall (PineconeService.queryVectors vector topK).
Proof.
  apply adds_try_catch; [|intros; apply adds_throw].
  apply adds_bind; [apply adds_getIndex|]. intros index.
  apply adds_bind; [by apply adds_await|]. intros; apply adds_ret.
Qed.

Lemma queryVectors_throwsExternal vector topK :
  throwsExternal (PineconeService.queryVectors vector topK).
Proof. apply throwsExternal_rethrow. Qed.

Lemma adds_deleteByDocId docId :
  adds isDeleteCall (PineconeService.deleteByDocId docId).
Proof.
  apply adds_try_catch; [|intros; apply adds_console_write].
  apply adds_bind; [apply adds_getIndex|]. intros index.
  by apply adds_await.
Qed.

(** [deleteByDocId] never throws: its [catch] block only logs. *)
Lemma deleteByDocId_neverThrows docId :
  neverThrows (PineconeService.deleteByDocId docId).
Proof.
  intros s err s'. unfold PineconeService.deleteByDocId, try_catch.
  by destruct (bind _ _ s) as [[[]|err1] s1].
Qed.

Lemma deleteByDocId_returns docId s :
  ∃ s', PineconeService.deleteByDocId docId s = (Returned (), s').
Proof.
  destruct (PineconeService.deleteByDocId docId s) as [[[]|err] s'] eqn:Hrun.
  - by exists s'.
  - by apply deleteByDocId_neverThrows in Hrun.
Qed.

(** *** The answer composer *)

Lemma adds_llm_getApiKey P : adds P Llm.getApiKey.
Proof.
  apply adds_bind; [apply adds_get|]. intros s.
  repeat case_match; auto using adds_ret, adds_throw.
Qed.

Lemma adds_generateAnswer question matches :
  adds isChatCall (Llm.generateAnswer question matches).
Proof.
  destruct matches; [apply adds_ret|].
  apply adds_try_catch; [|intros; apply adds_throw].
  apply adds_bind; [apply adds_llm_getApiKey|]. intros key.
  apply adds_bind; [by apply adds_await|]. intros response.
  repeat case_match; apply adds_ret.
Qed.

Lemma generateAnswer_throwsExternal question matches :
  throwsExternal (Llm.generateAnswer question matches).
Proof.
  destruct matches; [apply neverThrows_external, neverThrows_ret|].
  apply throwsExternal_rethrow.
Qed.

(** *** The records a query keeps *)

(** The match made from a raw record, when it has both metadata and a
    numeric score. *)
Definition toMatch (raw : ScoredPineconeRecord) : option PineconeMatch.t :=
  metadata ← External.metadata raw;
  score ← External.score raw;
  Some (PineconeMatch.mk (External.id raw) score
          (Metadata.mk (PineconeService.stringOrEmpty metadata "docId")
                       (PineconeService.stringOrEmpty metadata "title")
                       (PineconeService.stringOrEmpty metadata "chunkText"))).

Lemma pushMatch_toMatch matches raw :
  PineconeService.pushMatch matches raw =
  matches ++ option_list (toMatch raw).
Proof.
  unfold PineconeService.pushMatch, toMatch.
  destruct (External.metadata raw), (External.score raw); simpl;
    by rewrite ?app_nil_r.
Qed.

Lemma foldl_pushMatch matches raws :
  foldl PineconeService.pushMatch matches raws = matches ++ omap toMatch raws.
Proof.
  revert matches. induction raws as [|raw rest IH]; intros matches; simpl.
  - by rewrite app_nil_r.
  - rewrite IH, pushMatch_toMatch.
    destruct (toMatch raw); simpl; by rewrite <- app_assoc.
Qed.

(** *** Embeddings come back one per text *)

Lemma embedLoop_length embeddings texts s out s' :
  Embeddings.embedLoop embeddings texts s = (Returned out, s') →
  length out = (length embeddings + length texts)%nat.
Proof.
  revert embeddings s.
  induction texts as [|t rest IH]; intros embeddings s; simpl.
  - intros [= <- _]. lia.
  - unfold bind at 1.
    destruct (Embeddings.callFeatureExtraction t s) as [[result|err] s1];
      [|done].
    intros Hrest%IH. rewrite length_app in Hrest. simpl in Hrest. lia.
Qed.

(** *** Upserts go out in batches *)

Definition isBatch (batch : list PineconeVector.t) : Prop :=
  (0 < length batch ≤ PineconeService.UPSERT_BATCH_SIZE)%nat.

Lemma upsertLoop_batches index vectors :
  ∀ s s',
    PineconeService.upsertLoop index vectors s = (Returned (), s') →
    ∃ batches,
      calls s' = calls s ++ (CallUpsert index <$> batches) ∧
      concat batches = vectors ∧ Forall isBatch batches.
Proof.
  remember (length vectors) as n eqn:Hn. revert vectors Hn.
  induction n as [n IH] using lt_wf_ind. intros vectors -> s s'.
  destruct vectors as [|v vs]; simp upsertLoop.
  - intros [= <-]. exists []. by rewrite app_nil_r.
  - unfold bind at 1, await.
    destruct (upsert index _ (world s)) as [[[]|err] w]; [|done].
    intros Hrest.
    eapply IH in Hrest as (batches & Hcalls & Hconcat & Hall); [|..|done].
    + exists (take PineconeService.UPSERT_BATCH_SIZE (v :: vs) :: batches).
      split; [|split].
      * rewrite Hcalls. simpl calls. by rewrite <- app_assoc.
      * rewrite concat_cons, Hconcat. apply take_drop.
      * constructor; [|done]. unfold isBatch.
        rewrite length_take. unfold PineconeService.UPSERT_BATCH_SIZE.
        simpl length. lia.
    + unfold PineconeService.UPSERT_BATCH_SIZE.
      rewrite length_drop. simpl length. lia.
Qed.

End WithServices.
End ServiceFacts.

(** ** Properties of the answer composer and the retriever *)

Module ServiceSpec.
Import Errors External Runtime RuntimeFacts ServiceFacts Llm LlmFacts.

(** C5: [extractSources] returns one source per distinct document id of
    the matches; each is the [{docId, title}] of the first match with that
    id; the sources are ordered by the first occurrence of their ids; and
    matches that all share one id give just the first match's source. *)
Theorem extractSources_first_occurrence (matches : list PineconeMatch.t) :
  let sources := extractSources matches in
  let firstWith := λ docId,
    list_find (λ m, docIdOf m = docId) matches in
  NoDup (Source.docId <$> sources) ∧
  (∀ docId, docId ∈ Source.docId <$> sources ↔ docId ∈ docIdOf <$> matches) ∧
  (∀ s, s ∈ sources →
     ∃ k m, firstWith (Source.docId s) = Some (k, m) ∧
            s = Source.mk (docIdOf m) (titleOf m)) ∧
  (∀ i j s t ks kt ms mt,
     (i < j)%nat → sources !! i = Some s → sources !! j = Some t →
     firstWith (Source.docId s) = Some (ks, ms) →
     firstWith (Source.docId t) = Some (kt, mt) →
     (ks < kt)%nat) ∧
  (∀ m rest,
     matches = m :: rest → Forall (λ m', docIdOf m' = docIdOf m) rest →
     sources = [Source.mk (docIdOf m) (titleOf m)]).
Proof.
  intros sources firstWith. subst sources firstWith.
  rewrite extractSources_unseen.
  assert (∀ i s, (toSource <$> unseen [] matches) !! i = Some s →
            ∃ m, unseen [] matches !! i = Some m ∧ s = toSource m) as Hlook.
  { intros i s Hi. rewrite list_lookup_fmap in Hi.
    destruct (unseen [] matches !! i) as [m|]; [|done].
    injection Hi as <-. eauto. }
  split; [|split; [|split; [|split]]].
  - rewrite <- list_fmap_compose. apply (unseen_NoDup [] matches).
  - intros docId. rewrite <- list_fmap_compose. split.
    + intros (m & -> & Hm)%list_elem_of_fmap.
      apply list_elem_of_lookup in Hm as [i Hi].
      destruct (unseen_first _ _ _ _ Hi) as (k & Hk & _).
      apply list_elem_of_fmap. exists m. split; [done|].
      by eapply list_elem_of_lookup_2.
    + intros (m & -> & Hm)%list_elem_of_fmap.
      apply (unseen_covers [] matches m Hm). set_solver.
  - intros s [i Hi]%list_elem_of_lookup.
    destruct (Hlook _ _ Hi) as (m & Hm & ->).
    destruct (unseen_first _ _ _ _ Hm) as (k & Hk & Hfirst).
    exists k, m. split; [|done].
    apply list_find_Some. split; [done|]. split; [done|].
    intros j y Hj Hlt. simpl. by apply (Hfirst j).
  - intros i j s t ks kt ms mt Hij Hi Hj Hs Ht.
    destruct (Hlook _ _ Hi) as (m1 & Hm1 & ->).
    destruct (Hlook _ _ Hj) as (m2 & Hm2 & ->).
    destruct (unseen_order _ _ _ _ _ _ Hij Hm1 Hm2)
      as (k & m & Hk & Hm & Hbefore).
    apply list_find_Some in Hs as (_ & _ & Hmin).
    apply list_find_Some in Ht as (Hkt & Hdt & _).
    apply Hbefore in Hkt; [|done].
    destruct (decide (k < ks)%nat) as [Hlt|]; [|lia].
    by apply (Hmin k m Hk) in Hlt.
  - intros m rest -> Hall. simpl.
    rewrite unseen_all_seen; [done|].
    eapply Forall_impl; [exact Hall|]. simpl. intros m' ->. set_solver.
Qed.

Lemma length_omap_le {A B} (f : A → option B) (l : list A) :
  (length (omap f l) ≤ length l)%nat.
Proof.
  induction l as [|x l IH]; simpl; [done|].
  change (list_omap A B f l) with (omap f l). destruct (f x); simpl; lia.
Qed.

Lemma length_omap_lt {A B} (f : A → option B) (l : list A) x :
  x ∈ l → f x = None → (length (omap f l) < length l)%nat.
Proof.
  induction l as [|y l IH]; [by intros ?%elem_of_nil|].
  intros [->|Hx]%elem_of_cons Hf; simpl;
    change (list_omap A B f l) with (omap f l).
  - rewrite Hf. pose proof (length_omap_le f l). lia.
  - specialize (IH Hx Hf). destruct (f y); simpl; lia.
Qed.

Section WithServices.
Context `{Services}.

(** C10: [queryVectors] keeps, in order, exactly the raw records that
    have metadata and a numeric score; a kept record carries its id and
    score, and as [docId], [title] and [chunkText] the string of the
    metadata field, or the empty string when the field is missing or
    falsy.  Every other raw record is dropped, so fewer matches than raw
    records can come back. *)
Theorem queryVectors_keeps_complete_records vector topK s index s1 results w :
  PineconeService.getIndex s = (Returned index, s1) →
  query index vector topK true (world s1) = (Resolved results, w) →
  let raws := default [] (External.matches results) in
  let field := λ (metadata : gmap jsstring RecordMetadataValue) key,
    match metadata !! lit key with
    | Some v =>
        if PineconeService.metaTruthy v
        then PineconeService.metaToString v else []
    | None => []
    end in
  let keep := λ raw,
    metadata ← External.metadata raw;
    score ← External.score raw;
    Some (PineconeMatch.mk (External.id raw) score
            (Metadata.mk (field metadata "docId") (field metadata "title")
               (field metadata "chunkText"))) in
  PineconeService.queryVectors vector topK s =
    (Returned (omap keep raws),
     called s1 (CallQuery index vector topK true) w) ∧
  (length (omap keep raws) ≤ length raws)%nat ∧
  (∀ raw, raw ∈ raws →
          External.metadata raw = None ∨ External.score raw = None →
          (length (omap keep raws) < length raws)%nat).
Proof.
  intros Hindex Hquery raws field keep.
  assert (keep = toMatch) as -> by done.
  split; [|split].
  - unfold PineconeService.queryVectors.
    erewrite try_catch_returned; [done|].
    erewrite bind_returned by exact Hindex.
    erewrite bind_returned by (by apply await_resolved).
    unfold ret. by rewrite foldl_pushMatch.
  - apply length_omap_le.
  - intros raw Hraw Hmissing. apply (length_omap_lt _ _ raw Hraw).
    unfold toMatch. destruct Hmissing as [-> | ->]; [done|].
    by destruct (External.metadata raw).
Qed.

(** C9: when the generation service responds to a question with
    matches, [generateAnswer] returns the fixed fallback if the response
    holds no text (no choice, no message, no content, or empty content),
    and the trimmed text otherwise. *)
Theorem generateAnswer_text_or_fallback question matches s key response w :
  matches ≠ [] →
  HUGGINGFACE_API_KEY (env s) = Some key → key ≠ [] →
  let messages :=
    [(system, SYSTEM_PROMPT); (user, buildPrompt question matches)] in
  chatCompletion key CHAT_MODEL messages 500 0x1.3333333333333p-2%float
    (world s) = (Resolved response, w) →
  let generatedText :=
    choices ← choices response;
    choice ← head choices;
    message ← message choice;
    content message in
  let s' :=
    called s (CallChatCompletion key CHAT_MODEL messages 500
                0x1.3333333333333p-2%float) w in
  (generatedText = None ∨ generatedText = Some [] →
   generateAnswer question matches s =
     (Returned (lit "Unable to generate an answer. Please try again."), s')) ∧
  (∀ text, generatedText = Some text → text ≠ [] →
   generateAnswer question matches s = (Returned (trim text), s')).
Proof.
  intros Hmatches Hkey Hnonempty messages Hchat generatedText s'.
  assert (getApiKey s = (Returned key, s)) as Hget.
  { unfold getApiKey, bind, get. rewrite Hkey.
    by destruct key. }
  assert (∀ answer,
    (match firstContent response with
     | Some generatedText =>
         if truthy generatedText then ret (trim generatedText)
         else ret NO_TEXT_ANSWER
     | None => ret NO_TEXT_ANSWER
     end) s' = (Returned answer, s') →
    generateAnswer question matches s = (Returned answer, s')) as Hrun.
  { intros answer Hanswer. unfold generateAnswer.
    destruct matches as [|m rest]; [done|].
    erewrite try_catch_returned; [done|].
    erewrite bind_returned by exact Hget.
    erewrite bind_returned by (by apply await_resolved).
    exact Hanswer. }
  fold (firstContent response) in generatedText. subst generatedText.
  split.
  - intros [Hnone|Hempty]; apply Hrun; [by rewrite Hnone | by rewrite Hempty].
  - intros text Htext Hne. apply Hrun. rewrite Htext.
    by destruct text.
Qed.

(** X4: a successful [upsertVectors] sends the vectors to one index in
    consecutive batches of at most 100, in order, none of them empty, and
    makes no other call. *)
Theorem upsertVectors_batches vectors s s' :
  PineconeService.upsertVectors vectors s = (Returned (), s') →
  ∃ index batches,
    calls s' = calls s ++ (CallUpsert index <$> batches) ∧
    concat batches = vectors ∧
    Forall (λ batch, (0 < length batch ≤ 100)%nat) batches.
Proof.
  destruct vectors as [|v vs].
  - intros [= <-]. exists (mkIndex (mkPinecone []) []), [].
    by rewrite app_nil_r.
  - unfold PineconeService.upsertVectors, try_catch.
    destruct (bind _ _ s) as [[[]|err] s1] eqn:Hbody; [|done].
    intros [= <-]. unfold bind in Hbody.
    destruct (PineconeService.getIndex s) as [[index|err] s0] eqn:Hindex;
      [|done].
    apply adds_none_calls in Hindex; [|apply adds_getIndex].
    apply upsertLoop_batches in Hbody as (batches & Hcalls & Hconcat & Hall).
    exists index, batches. by rewrite Hcalls, Hindex.
Qed.

(** X5: a successful [embedTexts] returns one embedding per text. *)
Theorem embedTexts_one_per_text texts s embeddings s' :
  Embeddings.embedTexts texts s = (Returned embeddings, s') →
  length embeddings = length texts.
Proof.
  destruct texts as [|t rest]; [by intros [= <- _]|].
  unfold Embeddings.embedTexts, try_catch.
  destruct (Embeddings.embedLoop [] (t :: rest) s) as [[out|err] s1] eqn:Hloop;
    [|done].
  intros [= <- _]. by apply embedLoop_length in Hloop.
Qed.

End WithServices.

Lemma queryVectors_keeps_complete_records_witness :
  ∃ s',
    @PineconeService.queryVectors Sample.services [] 2 Sample.fresh =
      (Returned [PineconeMatch.mk (lit "doc-1#chunk-0") 1%float
                   (Metadata.mk (lit "doc-1") [] [])], s') ∧
    (1 < length [Sample.rawComplete; Sample.rawWithoutScore])%nat.
Proof.
  pose proof (@queryVectors_keeps_complete_records Sample.services [] 2
                Sample.fresh
                (mkIndex (mkPinecone (lit "pc-key")) (lit "rag"))
                (@mkState Sample.services () Sample.environment
                   (Some (mkPinecone (lit "pc-key")))
                   (Some (mkIndex (mkPinecone (lit "pc-key")) (lit "rag")))
                   [] [])
                (mkQueryResponse
                   (Some [Sample.rawComplete; Sample.rawWithoutScore]))
                () eq_refl eq_refl) as (Hrun & _ & Hdrop).
  eexists. split; [exact Hrun|].
  apply (Hdrop Sample.rawWithoutScore); [set_solver | by right].
Defined.

Lemma generateAnswer_text_or_fallback_witness :
  ∃ s',
    @generateAnswer Sample.services (lit "Q")
      [PineconeMatch.mk (lit "doc-1#chunk-0") 1%float
         (Metadata.mk (lit "doc-1") (lit "T") (lit "text"))] Sample.fresh =
    (Returned (lit "Unable to generate an answer. Please try again."), s').
Proof.
  eexists.
  apply (@generateAnswer_text_or_fallback Sample.services (lit "Q")
           [PineconeMatch.mk (lit "doc-1#chunk-0") 1%float
              (Metadata.mk (lit "doc-1") (lit "T") (lit "text"))]
           Sample.fresh (lit "hf-key")
           (mkChatCompletionOutput (Some [])) ());
    [done | reflexivity | done | reflexivity | by left].
Defined.

Lemma upsertVectors_batches_witness :
  ∃ (s' : @State Sample.services) index (batches : list (list PineconeVector.t)),
    calls s' = calls Sample.fresh ++ (CallUpsert index <$> batches) ∧
    concat batches =
      [PineconeVector.mk (lit "d#chunk-0") [1%float]
         (Metadata.mk (lit "d") (lit "T") (lit "text"))] ∧
    Forall (λ batch, (0 < length batch ≤ 100)%nat) batches.
Proof.
  eexists.
  eapply (@upsertVectors_batches Sample.services
            [PineconeVector.mk (lit "d#chunk-0") [1%float]
               (Metadata.mk (lit "d") (lit "T") (lit "text"))] Sample.fresh).
  vm_compute. reflexivity.
Defined.

Lemma embedTexts_one_per_text_witness :
  length [[1%float]; [1%float]] = length [lit "one"; lit "two"].
Proof.
  eapply (@embedTexts_one_per_text Sample.services [lit "one"; lit "two"]
            Sample.fresh).
  vm_compute. reflexivity.
Defined.

End ServiceSpec.

(** ** Facts about the handlers *)

Module HandlerFacts.
Import Errors External Runtime RuntimeFacts ServiceFacts Response Handlers.
Import ChunkerFacts.

(** With the default options the chunker returns within the fuel that the
    handler's model gives it. *)
Lemma chunkDocument_defaults_returns docId title content :
  Chunker.chunkDocument (length content) docId title content None =
  Some (chunkDocumentDefaults docId title content).
Proof.
  unfold chunkDocumentDefaults.
  destruct (chunkDocument_returns (length content) docId title content None)
    as [chunks ->]; [by vm_compute | done | done].
Qed.

(** The chunks of a document, as the ingest handler computes them. *)
Definition chunksOf (doc : Document.t) : list Chunker.Chunk :=
  chunkDocumentDefaults (Document.id doc) (Document.title doc)
    (Document.content doc).

Definition isIngestCall (c : Call) : Prop :=
  isDeleteCall c ∨ isEmbeddingCall c ∨ isUpsertCall c.

Section WithServices.
Context `{Services}.

Lemma logged_logged s a b : logged (logged s a) b = logged s (a ++ b).
Proof. unfold logged. simpl. by rewrite <- app_assoc. Qed.

Lemma bind_console_write {B} l t (k : () → M B) s :
  bind (console_write l t) k s = k () (logged s [mkLogEntry l t]).
Proof. done. Qed.

(** *** One document *)

(** A document without chunks: delete, log, and nothing else. *)
Lemma ingestDocument_skip totalChunks doc :
  chunksOf doc = [] →
  ingestDocument totalChunks doc =
    (let* _ := console_write LevelLog "Processing document:" in
     let* _ := PineconeService.deleteByDocId (Document.id doc) in
     let* _ := console_write LevelLog "produced no chunks (empty content)" in
     ret totalChunks).
Proof.
  intros Hnone. unfold ingestDocument. fold (chunksOf doc). by rewrite Hnone.
Qed.

Lemma adds_ingestDocument totalChunks doc :
  adds isIngestCall (ingestDocument totalChunks doc).
Proof.
  unfold ingestDocument.
  apply adds_bind; [apply adds_console_write|]. intros _.
  apply adds_bind.
  { eapply adds_weaken; [|apply adds_deleteByDocId]. by left. }
  intros _. case_match.
  - apply adds_bind; [apply adds_console_write|]. intros; apply adds_ret.
  - apply adds_bind; [apply adds_console_write|]. intros _.
    apply adds_bind.
    { eapply adds_weaken; [|apply adds_embedTexts]. by right; left. }
    intros embeddings. apply adds_bind.
    { eapply adds_weaken; [|apply adds_upsertVectors]. by right; right. }
    intros _. apply adds_bind; [apply adds_console_write|].
    intros; apply adds_ret.
Qed.

(** The only errors a document can raise are those of the embedding and
    upsert steps, which are external-service errors. *)
Lemma ingestDocument_throwsExternal totalChunks doc :
  throwsExternal (ingestDocument totalChunks doc).
Proof.
  unfold ingestDocument.
  apply throwsExternal_bind;
    [apply neverThrows_external, neverThrows_console_write|]. intros _.
  apply throwsExternal_bind;
    [apply neverThrows_external, deleteByDocId_neverThrows|]. intros _.
  case_match.
  - apply throwsExternal_bind;
      [apply neverThrows_external, neverThrows_console_write|].
    intros; apply neverThrows_external, neverThrows_ret.
  - apply throwsExternal_bind;
      [apply neverThrows_external, neverThrows_console_write|]. intros _.
    apply throwsExternal_bind; [apply embedTexts_throwsExternal|].
    intros embeddings.
    apply throwsExternal_bind; [apply upsertVectors_throwsExternal|].
    intros _.
    apply throwsExternal_bind;
      [apply neverThrows_external, neverThrows_console_write|].
    intros; apply neverThrows_external, neverThrows_ret.
Qed.

(** A document that is ingested adds its number of chunks to the total. *)
Lemma ingestDocument_returned totalChunks doc s total' s' :
  ingestDocument totalChunks doc s = (Returned total', s') →
  total' = totalChunks + Z.of_nat (length (chunksOf doc)).
Proof.
  unfold ingestDocument. fold (chunksOf doc).
  rewrite bind_console_write. unfold bind at 1.
  destruct (PineconeService.deleteByDocId _ _) as [[[]|?] s1]; [|done].
  destruct (Nat.eqb_spec (length (chunksOf doc)) 0) as [Hzero|Hsome].
  - rewrite bind_console_write. intros [= <- _]. lia.
  - rewrite bind_console_write. unfold bind at 1.
    destruct (Embeddings.embedTexts _ _) as [[embeddings|?] s2]; [|done].
    unfold bind at 1.
    destruct (PineconeService.upsertVectors _ _) as [[[]|?] s3]; [|done].
    rewrite bind_console_write. intros [= <- _]. lia.
Qed.

(** *** The loop over the documents *)

Lemma ingestLoop_app totalChunks pre post s :
  ingestLoop totalChunks (pre ++ post) s =
  match ingestLoop totalChunks pre s with
  | (Returned total', s') => ingestLoop total' post s'
  | (Threw err, s') => (Threw err, s')
  end.
Proof.
  revert totalChunks s.
  induction pre as [|doc rest IH]; intros totalChunks s; simpl; [done|].
  unfold bind.
  destruct (ingestDocument totalChunks doc s) as [[total'|err] s']; [|done].
  apply IH.
Qed.

Lemma ingestLoop_returned totalChunks documents s total' s' :
  ingestLoop totalChunks documents s = (Returned total', s') →
  total' =
    totalChunks +
    Z.of_nat (sum_list_with (λ doc, length (chunksOf doc)) documents).
Proof.
  revert totalChunks s.
  induction documents as [|doc rest IH]; intros totalChunks s; simpl.
  - intros [= <- _]. lia.
  - unfold bind.
    destruct (ingestDocument totalChunks doc s) as [[t1|err] s1] eqn:Hdoc;
      [|done].
    intros Hrest. apply IH in Hrest.
    apply ingestDocument_returned in Hdoc. lia.
Qed.

Lemma ingestLoop_throwsExternal totalChunks documents :
  throwsExternal (ingestLoop totalChunks documents).
Proof.
  revert totalChunks.
  induction documents as [|doc rest IH]; intros totalChunks; simpl.
  - apply neverThrows_external, neverThrows_ret.
  - apply throwsExternal_bind; [apply ingestDocument_throwsExternal|].
    intros; apply IH.
Qed.

Lemma adds_ingestLoop totalChunks documents :
  adds isIngestCall (ingestLoop totalChunks documents).
Proof.
  revert totalChunks.
  induction documents as [|doc rest IH]; intros totalChunks; simpl.
  - apply adds_ret.
  - apply adds_bind; [apply adds_ingestDocument|]. intros; apply IH.
Qed.

(** *** The handlers' [catch] block on an external-service error *)

Lemma handleError_external what err s :
  isExternalServiceError err →
  handleError what err s =
    (Returned (error (messageOf err) 502 None),
     logged s [mkLogEntry LevelError "Operational error:"]).
Proof. by intros (service & message & ->). Qed.

Lemma handleError_neverThrows what err : neverThrows (handleError what err).
Proof.
  intros s err' s'. unfold handleError.
  destruct err as [e| | |]; simpl; try done.
  by destruct (isOperational e).
Qed.

End WithServices.
End HandlerFacts.

(** ** Properties of the handlers *)

Module HandlerSpec.
Import Errors External Runtime RuntimeFacts ServiceFacts Response Handlers.
Import HandlerFacts.

Section WithServices.
Context `{Services}.

(** C6: when the query for the question's vector returns no match, the
    ask handler answers with the fixed text and no source; after the
    query it calls no service at all, and the calls of the whole request
    are embedding and query calls only: none reaches the generation
    service. *)
Theorem askHandler_no_matches body json request s questionVector s1 s2 :
  JSON_parse (default (lit "{}") body) = Some json →
  validateAskRequest json = inr request →
  Embeddings.embedText (question request)
    (logged s [mkLogEntry LevelLog "Ask request received";
               mkLogEntry LevelLog "Question:";
               mkLogEntry LevelLog "Generating question embedding..."])
    = (Returned questionVector, s1) →
  PineconeService.queryVectors questionVector (topK request)
    (logged s1 [mkLogEntry LevelLog "Querying Pinecone for top matches..."])
    = (Returned [], s2) →
  let final :=
    logged s2
      [mkLogEntry LevelLog "Found matches";
       mkLogEntry LevelLog
         "No matches found - returning no documents message"] in
  askHandler body s =
    (Returned
       (success (AskBody (mkAskResponse
          (lit "I don't have any documents to answer this question. Please ingest some documents first.")
          []))),
     final) ∧
  calls final = calls s2 ∧
  ∃ new, calls final = calls s ++ new ∧
         Forall (λ c, isEmbeddingCall c ∨ isQueryCall c) new ∧
         Forall (λ c, ¬ isChatCall c) new.
Proof.
  intros Hparse Hvalidate Hembed Hquery final.
  split; [|split; [done|]].
  - unfold askHandler. rewrite bind_console_write.
    erewrite try_catch_returned; [done|].
    unfold parseBody. rewrite Hparse, Hvalidate.
    rewrite !bind_console_write, !logged_logged. simpl app.
    erewrite bind_returned by exact Hembed.
    rewrite bind_console_write.
    erewrite bind_returned by exact Hquery.
    rewrite !bind_console_write, !logged_logged. done.
  - apply adds_embedText in Hembed as (new1 & Hc1 & Hall1).
    apply adds_queryVectors in Hquery as (new2 & Hc2 & Hall2).
    exists (new1 ++ new2). simpl in *.
    rewrite Hc2, Hc1, app_assoc. split; [done|].
    split; apply Forall_app; split;
      (eapply Forall_impl; [eassumption|]); intros c Hc;
      destruct c; simpl in *; tauto.
Qed.

(** C7: for a valid batch,
    - a document without chunks is skipped without error: only the
      deletion reaches a service, and the total is unchanged;
    - when the loop over the documents returns, the response is the
      number of documents of the request and the sum of the numbers of
      chunks of the documents (zero for a skipped one);
    - the only way for the loop not to return is an external-service
      error. *)
Theorem ingestHandler_counts body json documents s :
  JSON_parse (default (lit "{}") body) = Some json →
  validateIngestRequest json = inr documents →
  let start :=
    logged s [mkLogEntry LevelLog "Ingest request received";
              mkLogEntry LevelLog "Processing document(s)"] in
  (∀ doc totalChunks s0,
     chunksOf doc = [] →
     ∃ s1 new,
       ingestDocument totalChunks doc s0 = (Returned totalChunks, s1) ∧
       calls s1 = calls s0 ++ new ∧ Forall isDeleteCall new) ∧
  (∀ totalChunks s1,
     ingestLoop 0 documents start = (Returned totalChunks, s1) →
     ingestHandler body s =
       (Returned
          (success (IngestBody
             (mkIngestResponse
                (Z.of_nat (length documents))
                (Z.of_nat
                   (sum_list_with (λ doc, length (chunksOf doc))
                      documents))))),
        logged s1 [mkLogEntry LevelLog "Ingest complete:"])) ∧
  (∀ err s1,
     ingestLoop 0 documents start = (Threw err, s1) →
     isExternalServiceError err).
Proof.
  intros Hparse Hvalidate start. split; [|split].
  - intros doc totalChunks s0 Hnone.
    rewrite ingestDocument_skip by done.
    rewrite bind_console_write.
    destruct (deleteByDocId_returns (Document.id doc)
                (logged s0 [mkLogEntry LevelLog "Processing document:"]))
      as [s1 Hdel].
    erewrite bind_returned by exact Hdel. rewrite bind_console_write.
    apply adds_deleteByDocId in Hdel as (new & Hcalls & Hall).
    eexists _, new. split; [done|]. by split.
  - intros totalChunks s1 Hloop.
    pose proof (ingestLoop_returned _ _ _ _ _ Hloop) as ->.
    unfold ingestHandler. rewrite bind_console_write.
    erewrite try_catch_returned; [done|].
    unfold parseBody. rewrite Hparse, Hvalidate.
    rewrite bind_console_write, logged_logged. simpl app.
    erewrite bind_returned by exact Hloop.
    by rewrite bind_console_write.
  - intros err s1 Hloop. by eapply ingestLoop_throwsExternal.
Qed.


(** X3: the handlers never throw: whatever the request and whatever the
    services do, a response is returned. *)
Theorem handlers_always_respond body s :
  (∃ response s', ingestHandler body s = (Returned response, s')) ∧
  (∃ response s', askHandler body s = (Returned response, s')).
Proof.
  split; apply neverThrows_returns;
    (apply neverThrows_bind; [apply neverThrows_console_write|]);
    intros _; apply neverThrows_try_catch; intros err;
    apply handleError_neverThrows.
Qed.

End WithServices.

Lemma askHandler_no_matches_witness :
  ∃ final,
    @askHandler Sample.services (Some (lit "Q")) Sample.fresh =
      (Returned
         (success (AskBody (mkAskResponse
            (lit "I don't have any documents to answer this question. Please ingest some documents first.")
            []))),
       final) ∧
    Forall (λ c, ¬ isChatCall c) (calls final).
Proof.
  edestruct (@askHandler_no_matches Sample.services (Some (lit "Q"))
               (lit "Q") (mkAskRequest (lit "Q") 1) Sample.fresh)
    as (Hrun & _ & new & Hcalls & _ & Hnochat);
    [reflexivity | reflexivity
    | vm_compute; reflexivity | vm_compute; reflexivity |].
  eexists. split; [exact Hrun|]. rewrite Hcalls. exact Hnochat.
Defined.

Lemma ingestHandler_counts_witness :
  ∃ s',
    @ingestHandler Sample.services (Some (lit "Beta.")) Sample.fresh =
      (Returned (success (IngestBody (mkIngestResponse 3 2))), s').
Proof.
  edestruct (@ingestHandler_counts Sample.services (Some (lit "Beta."))
               (lit "Beta.") _ Sample.fresh eq_refl eq_refl)
    as (_ & Hresp & _).
  eexists. etrans; [eapply Hresp; vm_compute; reflexivity|].
  vm_compute. reflexivity.
Defined.


End HandlerSpec.

(** * Part III: further properties *)

(** ** The text of the chunks *)

Module TextFacts.
Import JsString JsStringFacts Chunker ChunkerFacts.

#[local] Arguments sentenceStep : simpl never.
#[local] Arguments splitLargeParagraph : simpl never.
#[local] Arguments mergeSmallChunks : simpl never.
#[local] Arguments mergeFinish : simpl never.

(** The code units of a string that are not white space, in order. *)
Definition visible (s : jsstring) : jsstring :=
  filter (λ c, is_space c = false) s.

(** The same for a list of strings, taken one after the other. *)
Definition visibleAll (l : list jsstring) : jsstring := visible (concat l).

Definition blank (s : jsstring) : Prop := Forall (λ c, is_space c = true) s.

Lemma visible_app a b : visible (a ++ b) = visible a ++ visible b.
Proof. apply filter_app. Qed.

Lemma visible_cons_space c s :
  is_space c = true → visible (c :: s) = visible s.
Proof.
  intros Hc. unfold visible. rewrite filter_cons_False; [done|]. by rewrite Hc.
Qed.

Lemma visible_blank s : blank s → visible s = [].
Proof.
  induction 1 as [|c r Hc _ IH]; [done|]. by rewrite visible_cons_space.
Qed.

Lemma visible_dropWhile s : visible (dropWhile is_space s) = visible s.
Proof.
  induction s as [|c r IH]; simpl; [done|].
  destruct (is_space c) eqn:Hc; [|done]. by rewrite visible_cons_space.
Qed.

Lemma visible_trim s : visible (trim s) = visible s.
Proof.
  unfold trim, trimEnd, trimStart, visible.
  rewrite filter_reverse. fold (visible (dropWhile is_space (reverse (dropWhile is_space s)))).
  rewrite visible_dropWhile. unfold visible. rewrite filter_reverse, reverse_involutive.
  apply visible_dropWhile.
Qed.

Lemma visible_joinSpace a b : visible (joinSpace a b) = visible a ++ visible b.
Proof. unfold joinSpace. by rewrite visible_app, visible_cons_space. Qed.

Lemma visibleAll_app l k : visibleAll (l ++ k) = visibleAll l ++ visibleAll k.
Proof. unfold visibleAll. by rewrite concat_app, visible_app. Qed.

Lemma visibleAll_cons x l : visibleAll (x :: l) = visible x ++ visibleAll l.
Proof. apply visible_app. Qed.

Lemma visibleAll_snoc l x : visibleAll (l ++ [x]) = visibleAll l ++ visible x.
Proof.
  rewrite visibleAll_app, visibleAll_cons. unfold visibleAll at 2. simpl.
  by rewrite app_nil_r.
Qed.

Lemma visibleAll_filter (P : jsstring → Prop) `{∀ x, Decision (P x)} l :
  (∀ x, ¬ P x → visible x = []) → visibleAll (filter P l) = visibleAll l.
Proof.
  intros Hdrop. induction l as [|x r IH]; [done|].
  rewrite filter_cons. destruct (decide (P x)) as [Hx|Hx].
  - by rewrite !visibleAll_cons, IH.
  - by rewrite visibleAll_cons, IH, (Hdrop x Hx).
Qed.

Lemma visibleAll_trim l : visibleAll (trim <$> l) = visibleAll l.
Proof.
  induction l as [|x r IH]; [done|].
  by rewrite fmap_cons, !visibleAll_cons, IH, visible_trim.
Qed.

Lemma dropWhile_idemp p s : dropWhile p (dropWhile p s) = dropWhile p s.
Proof.
  induction s as [|c r IH]; simpl; [done|].
  destruct (p c) eqn:Hc; [done|]. simpl. by rewrite Hc.
Qed.

(** Trimming twice is trimming once. *)
Lemma trim_idemp s : trim (trim s) = trim s.
Proof.
  destruct (trim s) as [|c r] eqn:Ht; [done|].
  pose proof (trim_head _ _ _ Ht) as Hc. rewrite <- Ht.
  unfold trim at 1, trimStart. rewrite Ht, dropWhile_cons_false by done.
  rewrite <- Ht. unfold trim, trimEnd.
  by rewrite reverse_involutive, dropWhile_idemp.
Qed.

(** *** Splitting removes white space only *)

Lemma takeWhile_dropWhile p s : takeWhile p s ++ dropWhile p s = s.
Proof.
  induction s as [|c r IH]; simpl; [done|].
  destruct (p c); simpl; [by rewrite IH | done].
Qed.

Lemma takeWhile_blank s : blank (takeWhile is_space s).
Proof.
  induction s as [|c r IH]; simpl; [constructor|].
  destruct (is_space c) eqn:Hc; by constructor.
Qed.

Lemma lastIndexOf_lookup x s j : lastIndexOf x s = Some j → s !! j = Some x.
Proof.
  revert j. induction s as [|c r IH]; intros j; simpl; [done|].
  destruct (lastIndexOf x r) as [k|].
  - intros [= <-]. by apply IH.
  - destruct (N.eqb_spec c x) as [->|]; [|done]. by intros [= <-].
Qed.

(** A matcher whose matches are white space. *)
Definition matchesBlank (m : matcher) : Prop :=
  ∀ prev s n, m prev s = Some n → blank (take n s).

Lemma re_paragraph_break_blank : matchesBlank re_paragraph_break.
Proof.
  intros prev s n. unfold re_paragraph_break.
  destruct s as [|c r]; [done|].
  destruct (N.eqb_spec c LF) as [->|]; [|done].
  destruct (lastIndexOf _ _) as [j|] eqn:Hj; [|done]. intros [= <-].
  apply lastIndexOf_lookup, lookup_lt_Some in Hj.
  rewrite firstn_cons. constructor; [done|].
  rewrite <- (takeWhile_dropWhile is_space r), take_app_le by lia.
  apply Forall_take, takeWhile_blank.
Qed.

Lemma re_sentence_break_blank : matchesBlank re_sentence_break.
Proof.
  intros prev s n. unfold re_sentence_break.
  destruct prev as [t|]; [|done]. destruct (is_terminator t); [|done].
  destruct (length (takeWhile is_space s)) as [|k] eqn:Hk; [done|].
  intros [= <-]. rewrite <- Hk.
  rewrite <- (takeWhile_dropWhile is_space s) at 2.
  rewrite take_app_length. apply takeWhile_blank.
Qed.

Lemma visibleAll_split_loop m prev acc s :
  matchesBlank m →
  visibleAll (split_loop m prev acc s) = visible acc ++ visible s.
Proof.
  intros Hm. funelim (split_loop m prev acc s).
  - unfold visibleAll. simpl. by rewrite !app_nil_r.
  - rewrite H by done. by rewrite <- !visible_app, <- app_assoc.
  - rewrite visibleAll_cons, H by done. simpl. f_equal.
    apply Hm in Heq. rewrite firstn_cons in Heq.
    rewrite <- (take_drop n r) at 2.
    change (c :: take n r ++ drop n r) with ((c :: take n r) ++ drop n r).
    by rewrite visible_app, (visible_blank _ Heq).
  - rewrite H by done. by rewrite <- !visible_app, <- app_assoc.
Qed.

Lemma visibleAll_split m s : matchesBlank m → visibleAll (split m s) = visible s.
Proof. intros Hm. unfold split. by rewrite visibleAll_split_loop. Qed.

Lemma visibleAll_splitIntoSentences text :
  visibleAll (splitIntoSentences text) = visible text.
Proof.
  unfold splitIntoSentences. rewrite visibleAll_filter.
  - apply visibleAll_split, re_sentence_break_blank.
  - intros s Hs. rewrite <- visible_trim.
    destruct (trim s); [done|]. unfold len in Hs. simpl in Hs. lia.
Qed.

Lemma visibleAll_splitParagraphs s :
  visibleAll (splitParagraphs s) = visible s.
Proof.
  unfold splitParagraphs. rewrite visibleAll_filter.
  - rewrite visibleAll_trim. apply visibleAll_split, re_paragraph_break_blank.
  - intros p Hp. destruct p; [done|]. unfold len in Hp. simpl in Hp. lia.
Qed.

(** *** The hard split covers the sentence *)

Lemma slice_drop s i w :
  0 ≤ i → 0 ≤ w →
  slice s i (i + w) ++ drop (Z.to_nat (i + w)) s = drop (Z.to_nat i) s.
Proof.
  intros Hi Hw. unfold slice, clampIndex.
  destruct (Z.ltb_spec i 0); [lia|]. destruct (Z.ltb_spec (i + w) 0); [lia|].
  destruct (Z.le_gt_cases (Z.of_nat (length s)) i) as [Hout|Hin].
  - rewrite !drop_ge by lia. by rewrite take_nil.
  - replace (Z.to_nat (i `min` Z.of_nat (length s))) with (Z.to_nat i) by lia.
    replace (Z.to_nat (i + w)) with (Z.to_nat i + Z.to_nat w)%nat by lia.
    rewrite <- drop_drop.
    destruct (Z.le_gt_cases (i + w) (Z.of_nat (length s))) as [Hfit|Hover].
    + replace (Z.to_nat ((i + w) `min` Z.of_nat (length s)) - Z.to_nat i)%nat
        with (Z.to_nat w) by lia.
      apply take_drop.
    + rewrite take_ge by (rewrite length_drop; lia).
      rewrite (drop_ge (drop _ s)) by (rewrite length_drop; lia).
      apply app_nil_r.
Qed.

Lemma hardSplit_visible fuel sentence maxSize i chunks out :
  0 ≤ i →
  hardSplit fuel sentence maxSize i chunks = Some out →
  visibleAll out =
    visibleAll chunks ++ visible (drop (Z.to_nat i) sentence).
Proof.
  destruct (Z.le_gt_cases maxSize 0) as [Hmax|Hmax].
  - intros Hi H. destruct (Z.ltb_spec i (len sentence)) as [Hlt|Hge].
    + by rewrite hardSplit_diverges in H.
    + destruct fuel; simpl in H;
        (destruct (Z.ltb_spec i (len sentence)); [lia|]);
        injection H as <-; rewrite drop_ge by (unfold len in Hge; lia);
        by rewrite app_nil_r.
  - revert i chunks.
    induction fuel as [|fuel IH]; intros i chunks Hi H; simpl in H;
      destruct (Z.ltb_spec i (len sentence)) as [Hlt|Hge]; try done;
      try (injection H as <-; rewrite drop_ge by (unfold len in Hge; lia);
           by rewrite app_nil_r).
    apply IH in H; [|lia]. rewrite H, visibleAll_snoc, visible_trim.
    rewrite <- app_assoc, <- visible_app. by rewrite slice_drop by lia.
Qed.

(** *** Sentence packing, paragraphs and merging keep the text *)

Lemma visibleAll_flush chunks currentChunk :
  visibleAll (flush chunks currentChunk) =
  visibleAll chunks ++ visible currentChunk.
Proof.
  unfold flush. destruct currentChunk; simpl.
  - by rewrite app_nil_r.
  - by rewrite visibleAll_snoc, visible_trim.
Qed.

(** What a loop state holds: the chunks pushed and the buffer. *)
Definition held (st : list jsstring * jsstring) : jsstring :=
  visibleAll st.1 ++ visible st.2.

Lemma sentenceStep_visible fuel maxSize st sentence st' :
  sentenceStep fuel maxSize st sentence = Some st' →
  held st' = held st ++ visible sentence.
Proof.
  destruct st as [chunks cur]. unfold sentenceStep, held. intros H.
  destruct (Z.ltb_spec maxSize (len sentence)).
  - destruct (hardSplit _ _ _ _ _) as [out|] eqn:Hs; [|done].
    injection H as <-. simpl.
    apply hardSplit_visible in Hs; [|lia]. simpl in Hs.
    by rewrite Hs, visibleAll_flush, app_nil_r.
  - destruct (_ <? _); injection H as <-; simpl.
    + by rewrite visibleAll_flush.
    + destruct (truthy cur) eqn:Hcur.
      * by rewrite visible_joinSpace, app_assoc.
      * apply truthy_false in Hcur as ->. simpl. by rewrite app_nil_r.
Qed.

Lemma sentenceLoop_visible fuel maxSize sentences st st' :
  sentenceLoop fuel maxSize st sentences = Some st' →
  held st' = held st ++ visibleAll sentences.
Proof.
  revert st. induction sentences as [|s rest IH]; intros st H; simpl in H.
  - injection H as <-. unfold visibleAll. simpl. by rewrite app_nil_r.
  - destruct (sentenceStep fuel maxSize st s) as [st1|] eqn:Hs; [|done].
    simpl in H. apply IH in H. apply sentenceStep_visible in Hs.
    by rewrite H, Hs, visibleAll_cons, app_assoc.
Qed.

Lemma splitLargeParagraph_visible fuel paragraph maxSize out :
  splitLargeParagraph fuel paragraph maxSize = Some out →
  visibleAll out = visible paragraph.
Proof.
  unfold splitLargeParagraph. destruct (_ <=? _); intros H.
  - injection H as <-. unfold visibleAll. simpl. by rewrite app_nil_r.
  - destruct (sentenceLoop _ _ _ _) as [[chunks cur]|] eqn:Hl; [|done].
    simpl in H. injection H as <-.
    apply sentenceLoop_visible in Hl. unfold held in Hl. simpl in Hl.
    by rewrite visibleAll_flush, Hl, visibleAll_splitIntoSentences.
Qed.

Lemma paragraphLoop_visible fuel maxSize rawChunks paragraphs out :
  paragraphLoop fuel maxSize rawChunks paragraphs = Some out →
  visibleAll out = visibleAll rawChunks ++ visibleAll paragraphs.
Proof.
  revert rawChunks.
  induction paragraphs as [|p rest IH]; intros rawChunks H; simpl in H.
  - injection H as <-. unfold visibleAll at 3. simpl. by rewrite app_nil_r.
  - destruct (splitLargeParagraph fuel p maxSize) as [sub|] eqn:Hp; [|done].
    simpl in H. apply IH in H. apply splitLargeParagraph_visible in Hp.
    by rewrite H, visibleAll_app, Hp, visibleAll_cons, app_assoc.
Qed.

Lemma mergeStep_visible minSize maxSize st chunk :
  held (mergeStep minSize maxSize st chunk) = held st ++ visible chunk.
Proof.
  destruct st as [merged cur]. unfold mergeStep, held.
  destruct (truthy cur) eqn:Hcur; simpl.
  - destruct (_ <? _); [destruct (_ <=? _)|]; simpl;
      rewrite ?visibleAll_snoc; try done.
    by rewrite visible_joinSpace, app_assoc.
  - apply truthy_false in Hcur as ->. simpl. by rewrite app_nil_r.
Qed.

Lemma mergeFold_visible minSize maxSize chunks st :
  held (foldl (mergeStep minSize maxSize) st chunks) =
  held st ++ visibleAll chunks.
Proof.
  revert st. induction chunks as [|c rest IH]; intros st; simpl.
  - unfold visibleAll. simpl. by rewrite app_nil_r.
  - by rewrite IH, mergeStep_visible, visibleAll_cons, app_assoc.
Qed.

Lemma mergeFinish_visible minSize maxSize st :
  visibleAll (mergeFinish minSize maxSize st) = held st.
Proof.
  destruct st as [merged cur]. unfold mergeFinish, held. simpl.
  destruct (truthy cur) eqn:Hcur;
    [|apply truthy_false in Hcur as ->; simpl; by rewrite app_nil_r].
  destruct (_ <? _); [|by rewrite visibleAll_snoc].
  destruct merged as [|x l _] using rev_ind;
    [unfold visibleAll; simpl; by rewrite app_nil_r|].
  rewrite last_snoc. destruct (_ <=? _); [|by rewrite visibleAll_snoc].
  rewrite length_app. simpl.
  replace (length l + 1 - 1)%nat with (length l + 0)%nat by lia.
  rewrite insert_app_r. simpl.
  by rewrite !visibleAll_snoc, visible_joinSpace, app_assoc.
Qed.

Lemma mergeSmallChunks_visible chunks minSize maxSize :
  visibleAll (mergeSmallChunks chunks minSize maxSize) = visibleAll chunks.
Proof.
  unfold mergeSmallChunks. destruct (_ <=? _)%nat; [done|].
  by rewrite mergeFinish_visible, mergeFold_visible.
Qed.

Lemma text_imap docId title (texts : list jsstring) :
  text <$>
    imap (λ index text, mkChunk (makeChunkId docId index) docId title text)
      texts = texts.
Proof.
  apply list_eq. intros i. rewrite list_lookup_fmap, list_lookup_imap.
  by destruct (texts !! i).
Qed.

End TextFacts.

(** ** What merging achieves *)

Module MergeFacts.
Import JsString JsStringFacts Chunker ChunkerFacts.

#[local] Arguments mergeSmallChunks : simpl never.
#[local] Arguments mergeFinish : simpl never.

(** [a] is long enough, or joining [b] to it would pass the maximum. *)
Definition settled (minSize maxSize : Z) (a b : jsstring) : Prop :=
  len a < minSize → maxSize < len a + 1 + len b.

(** [R] holds between every element and its successor. *)
Definition neighbours (R : jsstring → jsstring → Prop) (l : list jsstring)
    : Prop :=
  ∀ i a b, l !! i = Some a → l !! S i = Some b → R a b.

Lemma settled_longer minSize maxSize a b b' :
  len b ≤ len b' → settled minSize maxSize a b → settled minSize maxSize a b'.
Proof. unfold settled. lia. Qed.

Lemma neighbours_nil R : neighbours R [].
Proof. by intros i a b. Qed.

Lemma neighbours_snoc R l x :
  neighbours R l → (∀ a, last l = Some a → R a x) → neighbours R (l ++ [x]).
Proof.
  intros Hl Hx i a b Ha Hb.
  destruct (decide (S i < length l)%nat) as [Hin|Hout].
  - rewrite lookup_app_l in Ha, Hb by lia. by eapply Hl.
  - apply lookup_lt_Some in Hb as Hlt. rewrite length_app in Hlt. simpl in Hlt.
    assert (S i = length l) as Hi by lia.
    rewrite lookup_app_l in Ha by lia.
    rewrite Hi, lookup_app_r, Nat.sub_diag in Hb by lia.
    injection Hb as <-. apply Hx. rewrite last_lookup.
    by replace (pred (length l)) with i by lia.
Qed.

Lemma neighbours_snoc_inv R l x :
  neighbours R (l ++ [x]) →
  neighbours R l ∧ (∀ a, last l = Some a → R a x).
Proof.
  intros H. split.
  - intros i a b Ha Hb. apply (H i).
    + by apply lookup_app_l_Some.
    + by apply lookup_app_l_Some.
  - intros a Ha. rewrite last_lookup in Ha.
    destruct l as [|y l'] using rev_ind; [done|].
    rewrite length_app in Ha. simpl in Ha.
    replace (pred (length l' + 1)) with (length l') in Ha by lia.
    apply (H (length l')).
    + by apply lookup_app_l_Some.
    + rewrite lookup_app_r by (rewrite length_app; simpl; lia).
      rewrite length_app. simpl.
      by replace (S (length l') - (length l' + 1))%nat with 0%nat by lia.
Qed.

(** The invariant of the merge loop: the chunks emitted so far are
    settled with their successors, and the last of them is settled with
    whatever the buffer grows into. *)
Definition settledInv (minSize maxSize : Z)
    (st : list jsstring * jsstring) : Prop :=
  neighbours (settled minSize maxSize) st.1 ∧
  ∀ a b, last st.1 = Some a → len st.2 ≤ len b → settled minSize maxSize a b.

Lemma mergeStep_settled minSize maxSize st chunk :
  settledInv minSize maxSize st →
  settledInv minSize maxSize (mergeStep minSize maxSize st chunk).
Proof.
  destruct st as [merged cur]. unfold settledInv, mergeStep. simpl.
  intros [Hadj Hlast].
  destruct (truthy cur) eqn:Hcur; simpl.
  - destruct (Z.ltb_spec (len cur) minSize) as [Hshort|Hlong].
    + destruct (Z.leb_spec (len (joinSpace cur chunk)) maxSize) as [Hfit|Hover];
        simpl.
      * split; [done|]. intros a b Ha Hb. apply (Hlast a b Ha).
        rewrite len_joinSpace in Hb. pose proof (len_nonneg chunk). lia.
      * split.
        -- apply neighbours_snoc; [done|]. intros a Ha. by apply (Hlast a cur).
        -- intros a b Ha Hb. rewrite last_snoc in Ha. injection Ha as <-.
           rewrite len_joinSpace in Hover. unfold settled. lia.
    + simpl. split.
      * apply neighbours_snoc; [done|]. intros a Ha. by apply (Hlast a cur).
      * intros a b Ha Hb. rewrite last_snoc in Ha. injection Ha as <-.
        unfold settled. lia.
  - apply truthy_false in Hcur as ->. split; [done|].
    intros a b Ha Hb. apply (Hlast a b Ha). unfold len at 1. simpl.
    apply len_nonneg.
Qed.

Lemma mergeFold_settled minSize maxSize chunks st :
  settledInv minSize maxSize st →
  settledInv minSize maxSize (foldl (mergeStep minSize maxSize) st chunks).
Proof.
  revert st. induction chunks as [|c rest IH]; intros st Hinv; simpl; [done|].
  by apply IH, mergeStep_settled.
Qed.

Lemma last_insert_last (l : list jsstring) x :
  l ≠ [] → <[(length l - 1)%nat := x]> l = removelast l ++ [x].
Proof.
  destruct l as [|y l' _] using rev_ind; [done|]. intros _.
  rewrite length_app. simpl.
  replace (length l' + 1 - 1)%nat with (length l' + 0)%nat by lia.
  rewrite insert_app_r. simpl. by rewrite removelast_last.
Qed.

Lemma mergeFinish_settled minSize maxSize st :
  settledInv minSize maxSize st →
  neighbours (settled minSize maxSize) (mergeFinish minSize maxSize st).
Proof.
  destruct st as [merged cur]. unfold settledInv, mergeFinish. simpl.
  intros [Hadj Hlast].
  destruct (truthy cur); [|done].
  assert (neighbours (settled minSize maxSize) (merged ++ [cur])) as Hpush.
  { apply neighbours_snoc; [done|]. intros a Ha. by apply (Hlast a cur). }
  destruct (_ <? _); [|done].
  destruct merged as [|lastMerged front _] using rev_ind; [done|].
  rewrite last_snoc. destruct (_ <=? _); [|done].
  rewrite last_insert_last by (by destruct front).
  rewrite removelast_last.
  apply neighbours_snoc_inv in Hadj as [Hfront Hprev].
  apply neighbours_snoc; [done|]. intros a Ha.
  eapply settled_longer; [|by apply Hprev].
  rewrite len_joinSpace. pose proof (len_nonneg cur). lia.
Qed.

(** With chunks that are not empty, the buffer is not empty once a chunk
    went through the loop. *)
Lemma mergeStep_buffer minSize maxSize st chunk :
  chunk ≠ [] → (mergeStep minSize maxSize st chunk).2 ≠ [].
Proof.
  destruct st as [merged cur]. unfold mergeStep. intros Hchunk.
  repeat case_match; simpl; try done; apply joinSpace_nonempty.
Qed.

Lemma mergeFold_buffer minSize maxSize chunks st :
  Forall (λ c, c ≠ []) chunks → st.2 ≠ [] ∨ chunks ≠ [] →
  (foldl (mergeStep minSize maxSize) st chunks).2 ≠ [].
Proof.
  revert st. induction chunks as [|c rest IH]; intros st Hall Hsome; simpl.
  - by destruct Hsome.
  - apply Forall_cons in Hall as [Hc Hrest]. apply IH; [done|].
    left. by apply mergeStep_buffer.
Qed.

(** The last chunk, too, is settled with its predecessor. *)
Lemma mergeFinish_last minSize maxSize st front a b :
  settledInv minSize maxSize st → st.2 ≠ [] →
  mergeFinish minSize maxSize st = front ++ [a; b] →
  len b < minSize → maxSize < len a + 1 + len b.
Proof.
  destruct st as [merged cur]. unfold settledInv, mergeFinish. simpl.
  intros [Hadj Hlast] Hcur. apply truthy_true in Hcur as Htruthy.
  rewrite Htruthy.
  change (front ++ [a; b]) with (front ++ [a] ++ [b]). rewrite app_assoc.
  destruct (Z.ltb_spec (len cur) minSize) as [Hshort|Hlong].
  - destruct merged as [|lastMerged front' _] using rev_ind.
    { simpl. intros Heq. apply (f_equal length) in Heq.
      rewrite length_app in Heq. simpl in Heq.
      rewrite length_app in Heq. simpl in Heq. lia. }
    rewrite last_snoc.
    destruct (Z.leb_spec (len (joinSpace lastMerged cur)) maxSize)
      as [Hfit|Hover].
    + rewrite last_insert_last by (by destruct front').
      rewrite removelast_last.
      intros [_ [= <-]]%app_inj_tail Hsmall.
      rewrite len_joinSpace in Hfit, Hsmall.
      pose proof (Hlast lastMerged cur) as Hsettled.
      rewrite last_snoc in Hsettled.
      specialize (Hsettled eq_refl ltac:(lia)). unfold settled in Hsettled.
      pose proof (len_nonneg cur). lia.
    + intros [[_ [= <-]]%app_inj_tail [= <-]]%app_inj_tail _.
      by rewrite len_joinSpace in Hover.
  - intros [_ [= <-]]%app_inj_tail. lia.
Qed.

(** *** Merged chunks are groups of consecutive raw chunks *)

(** [group.join(' ')] *)
Fixpoint joinSpaces (group : list jsstring) : jsstring :=
  match group with
  | [] => []
  | [x] => x
  | x :: rest => x ++ SP :: joinSpaces rest
  end.

Lemma joinSpaces_cons x y rest :
  joinSpaces (x :: y :: rest) = joinSpace x (joinSpaces (y :: rest)).
Proof. done. Qed.

Lemma joinSpaces_app g h :
  g ≠ [] → h ≠ [] →
  joinSpaces (g ++ h) = joinSpace (joinSpaces g) (joinSpaces h).
Proof.
  intros Hg Hh. induction g as [|x g IH]; [done|].
  destruct g as [|y g].
  - destruct h; [done|]. done.
  - change ((x :: y :: g) ++ h) with (x :: y :: (g ++ h)).
    rewrite !joinSpaces_cons.
    change (y :: g ++ h) with ((y :: g) ++ h). rewrite IH by done.
    unfold joinSpace. by rewrite <- app_assoc.
Qed.

Lemma joinSpaces_nonempty g :
  g ≠ [] → Forall (λ c, c ≠ []) g → joinSpaces g ≠ [].
Proof.
  destruct g as [|x g]; [done|]. intros _ [Hx _]%Forall_cons.
  destruct g; [done|]. rewrite joinSpaces_cons. apply joinSpace_nonempty.
Qed.

(** The state of the merge loop after the chunks [seen]: the emitted
    chunks and the buffer are groups of consecutive chunks, joined by
    single spaces. *)
Definition groupsInv (seen : list jsstring)
    (st : list jsstring * jsstring) : Prop :=
  ∃ groups group,
    st.1 = joinSpaces <$> groups ∧ Forall (λ g, g ≠ []) groups ∧
    st.2 = joinSpaces group ∧ concat groups ++ group = seen.

Lemma mergeStep_groups minSize maxSize seen st chunk :
  Forall (λ c, c ≠ []) seen → chunk ≠ [] →
  groupsInv seen st →
  groupsInv (seen ++ [chunk]) (mergeStep minSize maxSize st chunk).
Proof.
  destruct st as [merged cur]. unfold groupsInv, mergeStep. simpl.
  intros Hseen Hchunk (groups & group & -> & Hgroups & -> & <-).
  apply Forall_app in Hseen as [_ Hgroup].
  destruct (truthy (joinSpaces group)) eqn:Hcur; simpl.
  - assert (group ≠ []) as Hsome by (by intros ->).
    destruct (_ <? _); [destruct (_ <=? _)|]; simpl.
    + exists groups, (group ++ [chunk]).
      rewrite joinSpaces_app by done. by rewrite app_assoc.
    + exists (groups ++ [group]), [chunk].
      rewrite fmap_app, concat_app. simpl. rewrite app_nil_r.
      repeat split; try done. apply Forall_app. by split; [|constructor].
    + exists (groups ++ [group]), [chunk].
      rewrite fmap_app, concat_app. simpl. rewrite app_nil_r.
      repeat split; try done. apply Forall_app. by split; [|constructor].
  - apply truthy_false in Hcur.
    assert (group = []) as ->.
    { destruct group as [|x g]; [done|].
      by apply joinSpaces_nonempty in Hcur. }
    exists groups, [chunk]. by rewrite app_nil_r.
Qed.

Lemma mergeFold_groups minSize maxSize chunks seen st :
  Forall (λ c, c ≠ []) seen → Forall (λ c, c ≠ []) chunks →
  groupsInv seen st →
  groupsInv (seen ++ chunks) (foldl (mergeStep minSize maxSize) st chunks).
Proof.
  revert seen st.
  induction chunks as [|c rest IH]; intros seen st Hseen Hall Hinv; simpl.
  - by rewrite app_nil_r.
  - apply Forall_cons in Hall as [Hc Hrest].
    replace (seen ++ c :: rest) with ((seen ++ [c]) ++ rest)
      by (by rewrite <- app_assoc).
    apply IH; [apply Forall_app; by split; [|constructor] | done|].
    by apply mergeStep_groups.
Qed.

Lemma mergeFinish_groups minSize maxSize seen st :
  Forall (λ c, c ≠ []) seen → groupsInv seen st →
  ∃ groups,
    mergeFinish minSize maxSize st = joinSpaces <$> groups ∧
    Forall (λ g, g ≠ []) groups ∧ concat groups = seen.
Proof.
  destruct st as [merged cur]. unfold groupsInv, mergeFinish. simpl.
  intros Hseen (groups & group & -> & Hgroups & -> & <-).
  apply Forall_app in Hseen as [Hin Hgroup].
  destruct (truthy (joinSpaces group)) eqn:Hcur.
  - assert (group ≠ []) as Hsome by (by intros ->).
    assert (∃ gs, (joinSpaces <$> groups) ++ [joinSpaces group] =
                    joinSpaces <$> gs ∧
                  Forall (λ g, g ≠ []) gs ∧
                  concat gs = concat groups ++ group) as Hpush.
    { exists (groups ++ [group]). rewrite fmap_app, concat_app. simpl.
      rewrite app_nil_r. repeat split; try done.
      apply Forall_app. by split; [|constructor]. }
    destruct (_ <? _); [|done].
    destruct groups as [|lastGroup front _] using rev_ind; [done|].
    rewrite fmap_app. simpl. rewrite last_snoc.
    destruct (_ <=? _); [|by rewrite fmap_app in Hpush].
    rewrite last_insert_last by (by destruct (joinSpaces <$> front)).
    rewrite removelast_last.
    apply Forall_app in Hgroups as [Hfront [Hlast _]%Forall_cons].
    exists (front ++ [lastGroup ++ group]).
    rewrite fmap_app, !concat_app. simpl.
    rewrite joinSpaces_app, !app_nil_r, app_assoc by done.
    repeat split; try done.
    apply Forall_app. split; [done|]. constructor; [|done].
    by destruct lastGroup.
  - apply truthy_false in Hcur.
    assert (group = []) as ->.
    { destruct group as [|x g]; [done|].
      by apply joinSpaces_nonempty in Hcur. }
    exists groups. by rewrite app_nil_r.
Qed.

Lemma mergeSmallChunks_groups chunks minSize maxSize :
  Forall (λ c, c ≠ []) chunks →
  ∃ groups,
    mergeSmallChunks chunks minSize maxSize = joinSpaces <$> groups ∧
    Forall (λ g, g ≠ []) groups ∧ concat groups = chunks.
Proof.
  intros Hall. unfold mergeSmallChunks.
  destruct (Nat.leb_spec (length chunks) 1) as [Hle|_].
  - destruct chunks as [|c [|d rest]]; [by exists [] | |simpl in Hle; lia].
    exists [[c]]. repeat split; try done. by constructor.
  - apply (mergeFinish_groups _ _ chunks); [done|].
    apply (mergeFold_groups _ _ chunks [] ([], [])); [done | done|].
    by exists [], [].
Qed.

End MergeFacts.

(** ** Sentences and paragraphs are kept whole *)

Module SentenceFacts.
Import JsString JsStringFacts Chunker ChunkerFacts TextFacts MergeFacts.

#[local] Arguments sentenceStep : simpl never.
#[local] Arguments splitLargeParagraph : simpl never.
#[local] Arguments mergeSmallChunks : simpl never.

(** *** Strings without white space at either end *)

Definition startsClean (s : jsstring) : Prop :=
  ∀ c r, s = c :: r → is_space c = false.

Definition endsClean (s : jsstring) : Prop :=
  ∀ d, last s = Some d → is_space d = false.

(** A string that trimming leaves alone. *)
Definition clean (s : jsstring) : Prop := startsClean s ∧ endsClean s.

(** A piece of text that can go into a chunk: clean and not empty. *)
Definition solid (s : jsstring) : Prop := s ≠ [] ∧ clean s.

Lemma clean_nil : clean [].
Proof. by split; [intros c r | intros d]. Qed.

Lemma dropWhile_clean s : startsClean s → dropWhile is_space s = s.
Proof.
  destruct s as [|c r]; [done|]. intros Hs.
  by apply dropWhile_cons_false, (Hs c r).
Qed.

Lemma trim_clean s : clean s → trim s = s.
Proof.
  intros [Hstart Hend]. unfold trim, trimStart, trimEnd.
  rewrite (dropWhile_clean s Hstart).
  rewrite dropWhile_clean; [apply reverse_involutive|].
  intros d r Hrev. apply Hend.
  rewrite <- (reverse_involutive s), Hrev, reverse_cons.
  apply last_snoc.
Qed.

Lemma clean_trim s : clean (trim s).
Proof.
  split.
  - intros c r Ht. by eapply trim_head.
  - intros d Hd. unfold trim, trimEnd in Hd.
    destruct (dropWhile is_space (reverse (trimStart s))) as [|e t] eqn:Hdrop;
      [done|].
    rewrite reverse_cons, last_snoc in Hd. injection Hd as <-.
    by eapply dropWhile_head.
Qed.

Lemma startsClean_app a b : a ≠ [] → startsClean a → startsClean (a ++ b).
Proof.
  destruct a as [|c r]; [done|]. intros _ Ha d t [= <- _]. by apply (Ha c r).
Qed.

Lemma endsClean_app a b : b ≠ [] → endsClean b → endsClean (a ++ b).
Proof.
  intros Hb Hend d Hd. apply Hend. rewrite last_app in Hd.
  destruct (last b) eqn:Hlast; [done|]. by apply last_None in Hlast.
Qed.

Lemma solid_joinSpace a b : solid a → solid b → solid (joinSpace a b).
Proof.
  intros [Ha [Hastart _]] [Hb [_ Hbend]].
  split; [apply joinSpace_nonempty|]. unfold joinSpace. split.
  - by apply startsClean_app.
  - change (a ++ SP :: b) with (a ++ [SP] ++ b). rewrite app_assoc.
    by apply endsClean_app.
Qed.

Lemma solid_joinSpaces group :
  group ≠ [] → Forall solid group → solid (joinSpaces group).
Proof.
  induction group as [|x rest IH]; [done|]. intros _ [Hx Hrest]%Forall_cons.
  destruct rest as [|y rest]; [done|].
  rewrite joinSpaces_cons. apply solid_joinSpace; [done|]. by apply IH.
Qed.

Lemma solid_nonempty (l : list jsstring) :
  Forall solid l → Forall (λ c, c ≠ []) l.
Proof. intros H. eapply Forall_impl; [exact H|]. by intros s [? _]. Qed.

(** *** The sentences of a clean paragraph are clean *)

(** A matcher that only matches after a code unit that is not white
    space, and then takes all the white space there is. *)
Definition breaksAfterWord (m : matcher) : Prop :=
  ∀ prev s n, m prev s = Some (S n) →
    (∃ t, prev = Some t ∧ is_space t = false) ∧
    drop (S n) s = dropWhile is_space s.

Lemma is_terminator_nonspace t : is_terminator t = true → is_space t = false.
Proof.
  unfold is_terminator. intros H.
  repeat apply orb_true_iff in H as [H|H]; apply N.eqb_eq in H as ->; done.
Qed.

Lemma drop_takeWhile s :
  drop (length (takeWhile is_space s)) s = dropWhile is_space s.
Proof.
  rewrite <- (takeWhile_dropWhile is_space s) at 2. apply drop_app_length.
Qed.

Lemma re_sentence_break_word : breaksAfterWord re_sentence_break.
Proof.
  intros prev s n. unfold re_sentence_break.
  destruct prev as [t|]; [|done].
  destruct (is_terminator t) eqn:Ht; [|done].
  destruct (length (takeWhile is_space s)) as [|k] eqn:Hk; [done|].
  intros [= <-]. split.
  - exists t. split; [done|]. by apply is_terminator_nonspace.
  - rewrite <- Hk. apply drop_takeWhile.
Qed.

Lemma split_loop_clean m prev acc s :
  breaksAfterWord m →
  (acc ≠ [] → last acc = prev) →
  clean (acc ++ s) →
  Forall clean (split_loop m prev acc s).
Proof.
  intros Hm. funelim (split_loop m prev acc s); intros Hprev Hclean.
  - constructor; [by rewrite app_nil_r in Hclean | constructor].
  - apply H; [done | intros _; apply last_snoc | by rewrite <- app_assoc].
  - destruct (Hm _ _ _ Heq) as [(t & -> & Ht) Hdrop].
    change (drop (S n) (c :: r)) with (drop n r) in Hdrop.
    destruct Hclean as [Hstart Hend]. constructor.
    + split.
      * intros d t' ->. by apply (Hstart d (t' ++ c :: r)).
      * intros d Hd. destruct acc as [|a acc']; [done|].
        rewrite Hprev in Hd by done. by injection Hd as <-.
    + apply H; [done | done |]. rewrite app_nil_l, Hdrop. split.
      * intros d t' Hd. by eapply dropWhile_head.
      * intros d Hd. apply Hend.
        rewrite <- (takeWhile_dropWhile is_space (c :: r)), app_assoc, last_app.
        by rewrite Hd.
  - apply H; [done | intros _; apply last_snoc | by rewrite <- app_assoc].
Qed.

Lemma splitIntoSentences_solid paragraph :
  clean paragraph → Forall solid (splitIntoSentences paragraph).
Proof.
  intros Hclean. unfold splitIntoSentences. apply Forall_forall.
  intros s [Hlen Hs]%list_elem_of_filter.
  assert (clean s) as Hs'.
  { pose proof (split_loop_clean re_sentence_break None [] paragraph
                  re_sentence_break_word ltac:(done) Hclean) as Hall.
    rewrite Forall_forall in Hall. by apply Hall. }
  split; [|done]. rewrite trim_clean in Hlen by done.
  intros ->. unfold len in Hlen. simpl in Hlen. lia.
Qed.

Lemma splitParagraphs_solid s : Forall solid (splitParagraphs s).
Proof.
  unfold splitParagraphs. apply Forall_forall.
  intros p [Hlen Hp]%list_elem_of_filter.
  apply list_elem_of_fmap in Hp as (x & -> & _).
  split; [|apply clean_trim]. intros Hnil. rewrite Hnil in Hlen.
  unfold len in Hlen. simpl in Hlen. lia.
Qed.

(** *** Packing sentences *)

(** The pieces of a paragraph that are never cut: the paragraph itself
    when it fits, its sentences when it does not. *)
Definition unitsOf (maxSize : Z) (paragraph : jsstring) : list jsstring :=
  if len paragraph <=? maxSize then [paragraph]
  else splitIntoSentences paragraph.

Lemma unitsOf_solid maxSize paragraph :
  solid paragraph → Forall solid (unitsOf maxSize paragraph).
Proof.
  intros Hp. unfold unitsOf. destruct (_ <=? _); [by constructor|].
  apply splitIntoSentences_solid, Hp.
Qed.

Lemma groupsInv_buffer (seen group : list jsstring) groups :
  Forall solid seen → concat groups ++ group = seen →
  (truthy (joinSpaces group) = true → group ≠ [] ∧ solid (joinSpaces group)) ∧
  (truthy (joinSpaces group) = false → group = []).
Proof.
  intros Hseen <-. apply Forall_app in Hseen as [_ Hgroup]. split.
  - intros Htruthy. assert (group ≠ []) as Hsome by (by intros ->).
    split; [done|]. by apply solid_joinSpaces.
  - intros Hfalsy%truthy_false. destruct group as [|x g]; [done|].
    by apply solid_joinSpaces in Hgroup as [? _].
Qed.

Lemma flush_groups seen chunks cur :
  Forall solid seen → groupsInv seen (chunks, cur) →
  ∃ groups,
    flush chunks cur = joinSpaces <$> groups ∧
    Forall (λ g, g ≠ []) groups ∧ concat groups = seen.
Proof.
  intros Hseen (groups & group & Hc & Hgroups & Hcur & Hcat).
  simpl in Hc, Hcur. subst chunks cur.
  destruct (groupsInv_buffer seen group groups Hseen Hcat) as [Hyes Hno].
  unfold flush. destruct (truthy (joinSpaces group)).
  - destruct (Hyes eq_refl) as [Hsome [_ Hclean]].
    rewrite trim_clean by done. exists (groups ++ [group]).
    rewrite fmap_app, concat_app. simpl. rewrite app_nil_r.
    repeat split; try done. apply Forall_app. by split; [|constructor].
  - rewrite (Hno eq_refl), app_nil_r in Hcat. by exists groups.
Qed.

Lemma sentenceStep_groups fuel maxSize seen st sentence :
  Forall solid seen → solid sentence → len sentence ≤ maxSize →
  groupsInv seen st →
  ∃ st', sentenceStep fuel maxSize st sentence = Some st' ∧
         groupsInv (seen ++ [sentence]) st'.
Proof.
  intros Hseen Hsentence Hfit Hinv. destruct st as [chunks cur].
  unfold sentenceStep.
  destruct (Z.ltb_spec maxSize (len sentence)) as [?|_]; [lia|].
  destruct (_ <? _).
  - eexists. split; [done|].
    destruct (flush_groups seen chunks cur Hseen Hinv)
      as (groups & -> & Hgroups & <-).
    by exists groups, [sentence].
  - eexists. split; [done|].
    destruct Hinv as (groups & group & Hc & Hgroups & Hcur & Hcat).
    simpl in Hc, Hcur. subst chunks cur.
    destruct (groupsInv_buffer seen group groups Hseen Hcat) as [Hyes Hno].
    exists groups, (group ++ [sentence]). simpl.
    split; [done|]. split; [done|]. split; [|by rewrite app_assoc, Hcat].
    destruct (truthy (joinSpaces group)).
    + destruct (Hyes eq_refl) as [Hsome _]. by rewrite joinSpaces_app.
    + by rewrite (Hno eq_refl).
Qed.

Lemma sentenceLoop_groups fuel maxSize sentences seen st :
  Forall solid seen → Forall solid sentences →
  Forall (fits maxSize) sentences →
  groupsInv seen st →
  ∃ st', sentenceLoop fuel maxSize st sentences = Some st' ∧
         groupsInv (seen ++ sentences) st'.
Proof.
  revert seen st.
  induction sentences as [|s rest IH]; intros seen st Hseen Hsolid Hfit Hinv.
  - exists st. by rewrite app_nil_r.
  - apply Forall_cons in Hsolid as [Hs Hrest].
    apply Forall_cons in Hfit as [Hsfit Hrestfit].
    destruct (sentenceStep_groups fuel maxSize seen st s Hseen Hs Hsfit Hinv)
      as (st1 & Hstep & Hinv1).
    destruct (IH (seen ++ [s]) st1) as (st' & Hloop & Hinv');
      [apply Forall_app; by split; [|constructor] | done | done | done|].
    exists st'. simpl. rewrite Hstep. simpl. split; [done|].
    by rewrite <- app_assoc in Hinv'.
Qed.

Lemma splitLargeParagraph_groups fuel paragraph maxSize :
  solid paragraph → Forall (fits maxSize) (unitsOf maxSize paragraph) →
  ∃ groups,
    splitLargeParagraph fuel paragraph maxSize = Some (joinSpaces <$> groups) ∧
    Forall (λ g, g ≠ []) groups ∧
    concat groups = unitsOf maxSize paragraph.
Proof.
  intros Hp Hfit. unfold splitLargeParagraph, unitsOf in *.
  destruct (_ <=? _).
  - exists [[paragraph]]. repeat split; try done. by constructor.
  - pose proof (splitIntoSentences_solid paragraph (proj2 Hp)) as Hsolid.
    destruct (sentenceLoop_groups fuel maxSize (splitIntoSentences paragraph)
                [] ([], [])) as ([chunks cur] & -> & Hinv);
      [done | done | done | by exists [], [] |].
    simpl. simpl in Hinv.
    destruct (flush_groups _ chunks cur Hsolid Hinv)
      as (groups & -> & Hgroups & Hcat).
    by exists groups.
Qed.

Lemma paragraphLoop_groups fuel maxSize paragraphs rawGroups :
  Forall solid paragraphs →
  Forall (fits maxSize) (concat (unitsOf maxSize <$> paragraphs)) →
  Forall (λ g, g ≠ []) rawGroups →
  ∃ groups,
    paragraphLoop fuel maxSize (joinSpaces <$> rawGroups) paragraphs =
      Some (joinSpaces <$> groups) ∧
    Forall (λ g, g ≠ []) groups ∧
    concat groups = concat rawGroups ++ concat (unitsOf maxSize <$> paragraphs).
Proof.
  revert rawGroups.
  induction paragraphs as [|p rest IH]; intros rawGroups Hsolid Hfit Hraw.
  - exists rawGroups. simpl. by rewrite app_nil_r.
  - apply Forall_cons in Hsolid as [Hp Hrest].
    rewrite fmap_cons, concat_cons in Hfit.
    apply Forall_app in Hfit as [Hpfit Hrestfit].
    destruct (splitLargeParagraph_groups fuel p maxSize Hp Hpfit)
      as (sub & Hsplit & Hsub & Hcat).
    destruct (IH (rawGroups ++ sub)) as (groups & Hloop & Hgroups & Hcat');
      [done | done | by apply Forall_app|].
    exists groups. simpl. rewrite Hsplit. simpl.
    rewrite <- fmap_app. split; [done|]. split; [done|].
    by rewrite Hcat', concat_app, Hcat, <- app_assoc.
Qed.

(** *** Groups of groups *)

Lemma concat_fmap_inv {A B : Type} (f : A → B) (l : list A) (kk : list (list B)) :
  concat kk = fmap (M:=list) f l →
  ∃ ll : list (list A),
    concat ll = l ∧ kk = fmap (M:=list) (fmap (M:=list) f) ll.
Proof.
  revert l. induction kk as [|k kk IH]; intros l Heq; simpl in Heq.
  - symmetry in Heq. apply fmap_nil_inv in Heq as ->. by exists [].
  - symmetry in Heq.
    apply fmap_app_inv in Heq as (l1 & l2 & -> & Hrest & ->).
    destruct (IH l2 Hrest) as (ll & <- & ->).
    by exists (l1 :: ll).
Qed.

Lemma joinSpaces_concat (groups : list (list jsstring)) :
  Forall (λ g, g ≠ []) groups →
  joinSpaces (joinSpaces <$> groups) = joinSpaces (concat groups).
Proof.
  induction groups as [|g rest IH]; [done|]. intros [Hg Hrest]%Forall_cons.
  destruct rest as [|h rest].
  - simpl. by rewrite app_nil_r.
  - rewrite !fmap_cons, joinSpaces_cons, <- fmap_cons, IH by done.
    change (concat (g :: h :: rest)) with (g ++ concat (h :: rest)).
    rewrite joinSpaces_app; [done | done|].
    apply Forall_cons in Hrest as [Hh _]. simpl. by destruct h.
Qed.

Lemma concat_concat {A : Type} (lll : list (list (list A))) :
  concat (fmap (M:=list) (@concat A) lll) = concat (concat lll).
Proof.
  induction lll as [|ll rest IH]; [done|].
  by rewrite fmap_cons, !concat_cons, concat_app, IH.
Qed.

Lemma elem_of_concat {A : Type} (x : A) (l : list A) (ll : list (list A)) :
  l ∈ ll → x ∈ l → x ∈ concat ll.
Proof.
  intros Hl Hx. induction ll as [|k rest IH]; [by apply elem_of_nil in Hl|].
  simpl. apply elem_of_app.
  apply elem_of_cons in Hl as [<-|Hl]; [by left | right; by apply IH].
Qed.

(** Merging chunks that are groups of units gives groups of units. *)
Lemma mergeSmallChunks_units (rawGroups : list (list jsstring)) minSize maxSize :
  Forall (λ g, g ≠ []) rawGroups → Forall solid (concat rawGroups) →
  ∃ groups,
    mergeSmallChunks (joinSpaces <$> rawGroups) minSize maxSize =
      joinSpaces <$> groups ∧
    Forall (λ g, g ≠ []) groups ∧ concat groups = concat rawGroups.
Proof.
  intros Hraw Hsolid.
  assert (Forall (λ c, c ≠ []) (joinSpaces <$> rawGroups)) as Hnonempty.
  { apply Forall_fmap, Forall_forall. intros g Hg. simpl.
    apply solid_joinSpaces.
    - rewrite Forall_forall in Hraw. by apply Hraw.
    - rewrite Forall_forall in Hsolid |- *. intros u Hu. apply Hsolid.
      by apply (elem_of_concat u g). }
  destruct (mergeSmallChunks_groups _ minSize maxSize Hnonempty)
    as (merged & -> & Hmerged & Hcat).
  apply concat_fmap_inv in Hcat as (parts & <- & ->).
  exists (fmap (M:=list) (@concat jsstring) parts). split; [|split].
  - rewrite <- !list_fmap_compose. apply list_fmap_ext.
    intros i part Hpart. simpl. apply joinSpaces_concat.
    apply Forall_forall. intros g Hg. rewrite Forall_forall in Hraw.
    apply Hraw, (elem_of_concat g part); [|done].
    by eapply list_elem_of_lookup_2.
  - apply Forall_fmap, Forall_forall. intros part Hpart. simpl.
    rewrite Forall_fmap, Forall_forall in Hmerged.
    specialize (Hmerged part Hpart). simpl in Hmerged.
    destruct part as [|g part]; [done|]. simpl.
    assert (g ≠ []) as Hg.
    { rewrite Forall_forall in Hraw.
      apply Hraw, (elem_of_concat g (g :: part)); [done | by left]. }
    by destruct g.
  - apply concat_concat.
Qed.

End SentenceFacts.

(** ** Further properties of the chunker *)

Module ChunkerProperties.
Import JsString JsStringFacts Chunker ChunkerFacts TextFacts MergeFacts.
Import SentenceFacts.

#[local] Arguments splitLargeParagraph : simpl never.
#[local] Arguments mergeSmallChunks : simpl never.

(** *** Content without a paragraph break *)

(** A paragraph break: two line feeds with nothing but white space
    between them. *)
Definition hasParagraphBreak (s : jsstring) : Prop :=
  ∃ before between after,
    s = before ++ LF :: between ++ LF :: after ∧ blank between.

Lemma re_paragraph_break_Some prev s n :
  re_paragraph_break prev s = Some n →
  ∃ between after, s = LF :: between ++ LF :: after ∧ blank between.
Proof.
  unfold re_paragraph_break. destruct s as [|c r]; [done|].
  destruct (N.eqb_spec c LF) as [->|]; [|done].
  destruct (lastIndexOf _ _) as [j|] eqn:Hj; [|done]. intros _.
  apply lastIndexOf_lookup in Hj.
  exists (take j (takeWhile is_space r)),
         (drop (S j) (takeWhile is_space r) ++ dropWhile is_space r).
  split; [|apply Forall_take, takeWhile_blank].
  f_equal. rewrite <- (takeWhile_dropWhile is_space r) at 1.
  rewrite <- (take_drop_middle _ _ _ Hj) at 1.
  by rewrite <- !app_assoc.
Qed.

Lemma takeWhile_app_blank a b :
  blank a → takeWhile is_space (a ++ b) = a ++ takeWhile is_space b.
Proof.
  induction 1 as [|c r Hc _ IH]; simpl; [done|]. by rewrite Hc, IH.
Qed.

Lemma lastIndexOf_elem x s : x ∈ s → is_Some (lastIndexOf x s).
Proof.
  induction s as [|c r IH]; [by intros ?%elem_of_nil|].
  intros [<-|Hin]%elem_of_cons; simpl.
  - destruct (lastIndexOf x r); [done|]. by rewrite N.eqb_refl.
  - destruct (IH Hin) as [j ->]. done.
Qed.

(** The breaks are the places where the regular expression matches. *)
Lemma hasParagraphBreak_match s :
  hasParagraphBreak s ↔
  Exists (λ k, is_Some (re_paragraph_break None (drop k s)))
    (seq 0 (length s)).
Proof.
  rewrite Exists_exists. split.
  - intros (before & between & after & -> & Hb).
    exists (length before). split.
    + apply elem_of_seq. rewrite length_app. simpl. lia.
    + rewrite drop_app_length. simpl.
      rewrite takeWhile_app_blank by done. simpl.
      destruct (lastIndexOf_elem LF (between ++ LF :: takeWhile is_space after))
        as [j ->]; [|done].
      apply elem_of_app. right. apply elem_of_cons. by left.
  - intros (k & _ & [n Hm]).
    apply re_paragraph_break_Some in Hm as (between & after & Heq & Hb).
    exists (take k s), between, after. split; [|done].
    by rewrite <- Heq, take_drop.
Qed.

#[global] Instance hasParagraphBreak_dec s : Decision (hasParagraphBreak s) :=
  match decide (Exists (λ k, is_Some (re_paragraph_break None (drop k s)))
                  (seq 0 (length s))) with
  | left H => left (proj2 (hasParagraphBreak_match s) H)
  | right H => right (λ Hb, H (proj1 (hasParagraphBreak_match s) Hb))
  end.

Lemma split_loop_no_match m prev acc s :
  (∀ prev' k n, m prev' (drop k s) ≠ Some (S n)) →
  split_loop m prev acc s = [acc ++ s].
Proof.
  funelim (split_loop m prev acc s); intros Hno.
  - by rewrite app_nil_r.
  - rewrite H; [by rewrite <- app_assoc|].
    intros prev' k n'. apply (Hno prev' (S k)).
  - by destruct (Hno prev 0%nat n).
  - rewrite H; [by rewrite <- app_assoc|].
    intros prev' k n'. apply (Hno prev' (S k)).
Qed.

Lemma split_no_paragraph_break s :
  ¬ hasParagraphBreak s → split re_paragraph_break s = [s].
Proof.
  intros Hno. unfold split. rewrite split_loop_no_match; [done|].
  intros prev k n Hm. apply Hno.
  apply re_paragraph_break_Some in Hm as (between & after & Heq & Hb).
  exists (take k s), between, after. split; [|done].
  by rewrite <- Heq, take_drop.
Qed.

(** X7: content that holds no paragraph break once trimmed, is not blank
    and fits the maximum chunk size is returned as one chunk, whose text
    is the trimmed content and whose id ends in [#chunk-0]; no sentence
    is split, so the result does not depend on the fuel. *)
Theorem chunkDocument_single_chunk fuel docId title content options :
  ¬ hasParagraphBreak (trim content) →
  trim content ≠ [] →
  len (trim content) ≤ maxSizeOf options →
  chunkDocument fuel docId title content options =
    Some [mkChunk (docId ++ lit "#chunk-0") docId title (trim content)].
Proof.
  intros Hno Hsome Hfit. unfold chunkDocument.
  fold (maxSizeOf options) (minSizeOf options).
  apply truthy_true in Hsome as Htruthy. rewrite Htruthy. simpl.
  unfold splitParagraphs. rewrite split_no_paragraph_break by done.
  simpl. rewrite trim_idemp.
  rewrite filter_cons_True
    by (unfold len; destruct (trim content); simpl in *; [done | lia]).
  rewrite filter_nil.
  rewrite paragraphLoop_fitting by (by constructor).
  done.
Qed.

Lemma chunkDocument_single_chunk_witness :
  chunkDocument 0 (lit "doc-1") (lit "Test")
    ([SP] ++ lit "Line one." ++ [LF] ++ lit "Line two." ++ [LF]) None =
  Some [mkChunk (lit "doc-1#chunk-0") (lit "doc-1") (lit "Test")
          (lit "Line one." ++ [LF] ++ lit "Line two.")].
Proof.
  apply (chunkDocument_single_chunk 0 (lit "doc-1") (lit "Test")
           ([SP] ++ lit "Line one." ++ [LF] ++ lit "Line two." ++ [LF]) None).
  - apply (bool_decide_unpack _). by vm_compute.
  - by vm_compute.
  - by vm_compute.
Defined.

(** X6: chunking loses nothing and keeps the order: the texts of the
    returned chunks, read one after the other, hold exactly the code units
    of the content that are not white space, in the order of the content.
    Only white space is dropped (by trimming and at the breaks) or added
    (the single space of a merge). *)
Theorem chunkDocument_keeps_text fuel docId title content options chunks :
  chunkDocument fuel docId title content options = Some chunks →
  visible (concat (text <$> chunks)) = visible content.
Proof.
  intros H.
  apply chunkDocument_inv in H as [[Ht ->]|(_ & raw & Hraw & ->)].
  - by rewrite <- (visible_trim content), Ht.
  - rewrite text_imap.
    fold (visibleAll (mergeSmallChunks raw (minSizeOf options)
                        (maxSizeOf options))).
    rewrite mergeSmallChunks_visible.
    apply paragraphLoop_visible in Hraw.
    by rewrite Hraw, visibleAll_splitParagraphs, visible_trim.
Qed.

Lemma chunkDocument_keeps_text_witness :
  visible (lit "One." ++ lit "Two three" ++ lit "four." ++ lit "Five.") =
  visible (lit " One.  Two three four." ++ [LF; SP; LF] ++ lit "Five. " ++ [LF]).
Proof.
  apply (chunkDocument_keeps_text 30 (lit "d") (lit "T")
           (lit " One.  Two three four." ++ [LF; SP; LF] ++ lit "Five. " ++ [LF])
           (Some (mkChunkOptions (Some 10) (Some 6)))
           [mkChunk (lit "d#chunk-0") (lit "d") (lit "T") (lit "One.");
            mkChunk (lit "d#chunk-1") (lit "d") (lit "T") (lit "Two three");
            mkChunk (lit "d#chunk-2") (lit "d") (lit "T") (lit "four.");
            mkChunk (lit "d#chunk-3") (lit "d") (lit "T") (lit "Five.")]).
  vm_compute. reflexivity.
Defined.

(** *** Small chunks *)

(** X18: merging leaves no small chunk that could have been merged.  In
    the result, a chunk shorter than the minimum that has a successor
    would pass the maximum if the successor were joined to it; and when no
    paragraph had to be split (so every raw chunk is a paragraph), the same
    holds for the last chunk and its predecessor. *)
Theorem chunkDocument_small_chunks_settled
    fuel docId title content options chunks :
  chunkDocument fuel docId title content options = Some chunks →
  let short := λ c, len (text c) < minSizeOf options in
  let joined := λ a b, len (text a) + 1 + len (text b) in
  (∀ i a b,
     chunks !! i = Some a → chunks !! S i = Some b →
     short a → maxSizeOf options < joined a b) ∧
  (Forall (λ p, len p ≤ maxSizeOf options) (splitParagraphs (trim content)) →
   ∀ front a b,
     chunks = front ++ [a; b] →
     short b → maxSizeOf options < joined a b).
Proof.
  intros Hrun short joined. subst short joined. simpl.
  apply chunkDocument_inv in Hrun as [[_ ->]|(_ & raw & Hraw & ->)].
  { split; [done|]. intros _ front a b Heq. by destruct front. }
  set (merged := mergeSmallChunks raw (minSizeOf options) (maxSizeOf options)).
  assert (settledInv (minSizeOf options) (maxSizeOf options)
            (foldl (mergeStep (minSizeOf options) (maxSizeOf options))
               ([], []) raw)) as Hinv.
  { apply mergeFold_settled. split; [apply neighbours_nil | done]. }
  split.
  - assert (neighbours (settled (minSizeOf options) (maxSizeOf options)) merged)
      as Hsettled.
    { subst merged. unfold mergeSmallChunks.
      destruct (Nat.leb_spec (length raw) 1) as [Hle|_].
      - intros i a b Ha Hb. apply lookup_lt_Some in Hb. lia.
      - by apply mergeFinish_settled. }
    intros i a b Ha Hb.
    rewrite list_lookup_imap in Ha, Hb.
    destruct (merged !! i) as [ta|] eqn:Hta; [|done].
    destruct (merged !! S i) as [tb|] eqn:Htb; [|done].
    injection Ha as <-. injection Hb as <-. simpl.
    by apply (Hsettled i).
  - intros Hfit front a b Heq.
    apply (f_equal (fmap text)) in Heq.
    rewrite text_imap, fmap_app in Heq. simpl in Heq.
    rewrite paragraphLoop_fitting in Hraw by done.
    injection Hraw as Hraw. simpl in Hraw.
    revert Heq. subst merged. unfold mergeSmallChunks.
    destruct (Nat.leb_spec (length raw) 1) as [Hle|Hmany].
    { intros ->. rewrite length_app in Hle. simpl in Hle. lia. }
    intros Heq. eapply mergeFinish_last; [exact Hinv| |exact Heq].
    apply mergeFold_buffer; [|right; intros Hnil; rewrite Hnil in Hmany;
                              simpl in Hmany; lia].
    rewrite <- Hraw. apply splitParagraphs_nonempty.
Qed.

Lemma chunkDocument_small_chunks_settled_witness :
  10 < len (lit "four.") + 1 + len (lit "Five.").
Proof.
  destruct (chunkDocument_small_chunks_settled 30 (lit "d") (lit "T")
              (lit " One.  Two three four." ++ [LF; SP; LF] ++
               lit "Five. " ++ [LF])
              (Some (mkChunkOptions (Some 10) (Some 6)))
              [mkChunk (lit "d#chunk-0") (lit "d") (lit "T") (lit "One.");
               mkChunk (lit "d#chunk-1") (lit "d") (lit "T") (lit "Two three");
               mkChunk (lit "d#chunk-2") (lit "d") (lit "T") (lit "four.");
               mkChunk (lit "d#chunk-3") (lit "d") (lit "T") (lit "Five.")])
    as [Hnext _]; [vm_compute; reflexivity|].
  apply (Hnext 2%nat
           (mkChunk (lit "d#chunk-2") (lit "d") (lit "T") (lit "four."))
           (mkChunk (lit "d#chunk-3") (lit "d") (lit "T") (lit "Five.")));
    [reflexivity | reflexivity | by vm_compute].
Defined.

(** X19: sentences and paragraphs are kept whole when they fit.  Call
    units the paragraphs of the trimmed content that fit the maximum chunk
    size, and the sentences of those that do not.  When every unit fits
    (no sentence is longer than the maximum), a sequence is returned
    whatever the fuel, every chunk's text is a group of one or more
    consecutive units joined by single spaces, and the groups, in order,
    are exactly the units: no unit is cut, dropped, repeated or moved.
    Every chunk's text is then not empty and has no white space at either
    end. *)
Theorem chunkDocument_keeps_units_whole fuel docId title content options :
  let unitsOf := λ paragraph,
    if len paragraph <=? maxSizeOf options then [paragraph]
    else splitIntoSentences paragraph in
  let units := concat (unitsOf <$> splitParagraphs (trim content)) in
  Forall (λ unit, len unit ≤ maxSizeOf options) units →
  ∃ chunks groups,
    chunkDocument fuel docId title content options = Some chunks ∧
    text <$> chunks = joinSpaces <$> groups ∧
    Forall (λ group, group ≠ []) groups ∧
    concat groups = units ∧
    Forall (λ c, text c ≠ [] ∧ trim (text c) = text c) chunks.
Proof.
  intros unitsOf' units Hfit. subst units.
  change unitsOf' with (unitsOf (maxSizeOf options)) in *. clear unitsOf'.
  pose proof (splitParagraphs_solid (trim content)) as Hsolid.
  assert (Forall solid
            (concat (unitsOf (maxSizeOf options) <$>
                     splitParagraphs (trim content)))) as Hunits.
  { clear Hfit. induction Hsolid as [|p rest Hp _ IH]; [constructor|].
    rewrite fmap_cons, concat_cons. apply Forall_app. split; [|done].
    by apply unitsOf_solid. }
  destruct (paragraphLoop_groups fuel (maxSizeOf options)
              (splitParagraphs (trim content)) [] Hsolid Hfit)
    as (rawGroups & Hloop & Hraw & Hcat); [constructor|].
  simpl in Hloop, Hcat. rewrite <- Hcat in Hunits.
  destruct (mergeSmallChunks_units rawGroups (minSizeOf options)
              (maxSizeOf options) Hraw Hunits)
    as (groups & Hmerge & Hgroups & Hcat').
  unfold chunkDocument. fold (maxSizeOf options) (minSizeOf options).
  destruct (truthy (trim content)) eqn:Htruthy; simpl.
  - rewrite Hloop. simpl. rewrite Hmerge. eexists _, groups.
    split; [done|]. rewrite text_imap.
    split; [done|]. split; [done|]. split; [congruence|].
    apply Forall_forall. intros c Hc.
    apply (list_elem_of_fmap_2 text) in Hc. rewrite text_imap in Hc.
    apply list_elem_of_fmap in Hc as (group & -> & Hgroup).
    assert (solid (joinSpaces group)) as [Hsome Hclean].
    { apply solid_joinSpaces.
      - rewrite Forall_forall in Hgroups. by apply Hgroups.
      - rewrite <- Hcat', Forall_forall in Hunits. apply Forall_forall.
        intros u Hu. by apply Hunits, (elem_of_concat u group). }
    split; [done | by apply trim_clean].
  - apply truthy_false in Htruthy. exists [], [].
    rewrite Htruthy. by vm_compute.
Qed.

Lemma chunkDocument_keeps_units_whole_witness :
  ∃ chunks groups,
    chunkDocument 0 (lit "d") (lit "T")
      (lit "One. Two. Three three." ++ [LF; LF] ++ lit "Four.")
      (Some (mkChunkOptions (Some 12) (Some 6))) = Some chunks ∧
    text <$> chunks = joinSpaces <$> groups ∧
    concat groups = [lit "One."; lit "Two."; lit "Three three."; lit "Four."].
Proof.
  destruct (chunkDocument_keeps_units_whole 0 (lit "d") (lit "T")
              (lit "One. Two. Three three." ++ [LF; LF] ++ lit "Four.")
              (Some (mkChunkOptions (Some 12) (Some 6))))
    as (chunks & groups & Hrun & Htexts & _ & Hcat & _).
  - vm_compute. repeat constructor; discriminate.
  - exists chunks, groups. split; [exact Hrun|]. split; [exact Htexts|].
    vm_compute. vm_compute in Hcat. exact Hcat.
Defined.

(** *** Statistics *)

Lemma foldl_min_le x l :
  foldl Z.min x l ≤ x ∧ Forall (λ y, foldl Z.min x l ≤ y) l.
Proof.
  revert x. induction l as [|y r IH]; intros x; simpl; [by split|].
  destruct (IH (x `min` y)) as [Hx Hr]. split; [lia|].
  constructor; [lia | done].
Qed.

Lemma foldl_min_elem x l : foldl Z.min x l ∈ x :: l.
Proof.
  revert x. induction l as [|y r IH]; intros x; simpl; [by left|].
  pose proof (IH (x `min` y)) as [Hh|Ht]%elem_of_cons.
  - rewrite Hh. destruct (Z.min_spec x y) as [[_ ->]|[_ ->]].
    + by left.
    + right. by left.
  - by do 2 right.
Qed.

Lemma foldl_max_ge x l :
  x ≤ foldl Z.max x l ∧ Forall (λ y, y ≤ foldl Z.max x l) l.
Proof.
  revert x. induction l as [|y r IH]; intros x; simpl; [by split|].
  destruct (IH (x `max` y)) as [Hx Hr]. split; [lia|].
  constructor; [lia | done].
Qed.

Lemma foldl_max_elem x l : foldl Z.max x l ∈ x :: l.
Proof.
  revert x. induction l as [|y r IH]; intros x; simpl; [by left|].
  pose proof (IH (x `max` y)) as [Hh|Ht]%elem_of_cons.
  - rewrite Hh. destruct (Z.max_spec x y) as [[_ ->]|[_ ->]].
    + right. by left.
    + by left.
  - by do 2 right.
Qed.


End ChunkerProperties.

(** ** The repository's tests of [getChunkStats] ([tests/chunker.test.ts]),
    run on the model *)

Module ChunkStatsTests.
Import JsString Chunker.

Definition chunk (text : string) : Chunk :=
  mkChunk (lit "1") (lit "d") (lit "t") (lit text).

Example stats_of_three_chunks :
  getChunkStats [chunk "12345"; chunk "1234567890"; chunk "123"] =
  mkChunkStats 3 6 3 10.
Proof. vm_compute. reflexivity. Qed.

Example stats_of_no_chunk : getChunkStats [] = mkChunkStats 0 0 0 0.
Proof. reflexivity. Qed.

Example stats_of_a_single_chunk :
  getChunkStats [chunk "hello"] = mkChunkStats 1 5 5 5.
Proof. vm_compute. reflexivity. Qed.

(** An average that ends in one half goes up, as [Math.round] does. *)
Example stats_round_half_up :
  avgLength (getChunkStats [chunk "1"; chunk "12"]) = 2.
Proof. vm_compute. reflexivity. Qed.

End ChunkStatsTests.

(** ** More facts about the gateways *)

Module GatewayFacts.
Import Errors External Runtime RuntimeFacts ServiceFacts.

(** [!process.env.X]: the variable is not set, or set to the empty
    string. *)
Definition unset (v : option jsstring) : Prop := v = None ∨ v = Some [].

Section WithServices.
Context `{Services}.

(** *** What a computation leaves alone *)

(** Two states with the same environment and the same cached client and
    index. *)
Definition sameSetup (s t : State) : Prop :=
  env t = env s ∧
  pineconeClient t = pineconeClient s ∧
  pineconeIndex t = pineconeIndex s.

Definition keepsSetup {A} (m : M A) : Prop :=
  ∀ s o s', m s = (o, s') → sameSetup s s'.

(** The same for the console. *)
Definition silent {A} (m : M A) : Prop :=
  ∀ s o s', m s = (o, s') → console s' = console s.

Lemma sameSetup_refl s : sameSetup s s.
Proof. by repeat split. Qed.

Lemma sameSetup_trans s t u : sameSetup s t → sameSetup t u → sameSetup s u.
Proof. intros (? & ? & ?) (? & ? & ?). repeat split; congruence. Qed.

Lemma sameSetup_logged s entries : sameSetup s (logged s entries).
Proof. by repeat split. Qed.

Lemma sameSetup_called s c w : sameSetup s (called s c w).
Proof. by repeat split. Qed.

Lemma keepsSetup_ret {A} (a : A) : keepsSetup (ret a).
Proof. intros s o s' [= _ <-]. apply sameSetup_refl. Qed.

Lemma keepsSetup_throw {A} err : keepsSetup (throw (A:=A) err).
Proof. intros s o s' [= _ <-]. apply sameSetup_refl. Qed.

Lemma keepsSetup_get : keepsSetup get.
Proof. intros s o s' [= _ <-]. apply sameSetup_refl. Qed.

Lemma keepsSetup_console_write l t : keepsSetup (console_write l t).
Proof. intros s o s' [= _ <-]. by repeat split. Qed.

Lemma keepsSetup_await {A} c (op : World → Completion A * World) :
  keepsSetup (await c op).
Proof.
  intros s o s'. unfold await. destruct (op (world s)) as [r w].
  intros [= _ <-]. by repeat split.
Qed.

Lemma keepsSetup_bind {A B} (m : M A) (k : A → M B) :
  keepsSetup m → (∀ a, keepsSetup (k a)) → keepsSetup (bind m k).
Proof.
  intros Hm Hk s o s'. unfold bind.
  destruct (m s) as [[a|err] s1] eqn:Hrun.
  - intros Hrest. eapply sameSetup_trans; [by eapply Hm | by eapply Hk].
  - intros [= _ <-]. by eapply Hm.
Qed.

Lemma keepsSetup_try_catch {A} (m : M A) handler :
  keepsSetup m → (∀ err, keepsSetup (handler err)) →
  keepsSetup (try_catch m handler).
Proof.
  intros Hm Hh s o s'. unfold try_catch.
  destruct (m s) as [[a|err] s1] eqn:Hrun.
  - intros [= _ <-]. by eapply Hm.
  - intros Hrest. eapply sameSetup_trans; [by eapply Hm | by eapply Hh].
Qed.

Lemma silent_ret {A} (a : A) : silent (ret a).
Proof. by intros s o s' [= _ <-]. Qed.

Lemma silent_throw {A} err : silent (throw (A:=A) err).
Proof. by intros s o s' [= _ <-]. Qed.

Lemma silent_get : silent get.
Proof. by intros s o s' [= _ <-]. Qed.

Lemma silent_await {A} c (op : World → Completion A * World) :
  silent (await c op).
Proof.
  intros s o s'. unfold await. destruct (op (world s)) as [r w].
  by intros [= _ <-].
Qed.

Lemma silent_bind {A B} (m : M A) (k : A → M B) :
  silent m → (∀ a, silent (k a)) → silent (bind m k).
Proof.
  intros Hm Hk s o s'. unfold bind.
  destruct (m s) as [[a|err] s1] eqn:Hrun.
  - intros Hrest. etrans; [by eapply Hk | by eapply Hm].
  - intros [= _ <-]. by eapply Hm.
Qed.

Lemma silent_try_catch {A} (m : M A) handler :
  silent m → (∀ err, silent (handler err)) → silent (try_catch m handler).
Proof.
  intros Hm Hh s o s'. unfold try_catch.
  destruct (m s) as [[a|err] s1] eqn:Hrun.
  - intros [= _ <-]. by eapply Hm.
  - intros Hrest. etrans; [by eapply Hh | by eapply Hm].
Qed.

(** *** The API key of the embedding and generation services *)

Definition keyNotSet : Thrown :=
  ThrownApp (ExternalServiceError (lit "HuggingFace")
    (lit "HUGGINGFACE_API_KEY environment variable is not set")).

Lemma getApiKey_set s key :
  HUGGINGFACE_API_KEY (env s) = Some key → key ≠ [] →
  Embeddings.getApiKey s = (Returned key, s).
Proof.
  intros Hkey Hsome. unfold Embeddings.getApiKey, bind, get. rewrite Hkey.
  by destruct key.
Qed.

Lemma getApiKey_unset s :
  unset (HUGGINGFACE_API_KEY (env s)) →
  Embeddings.getApiKey s = (Threw keyNotSet, s).
Proof.
  intros [Hkey|Hkey]; unfold Embeddings.getApiKey, bind, get;
    by rewrite Hkey.
Qed.

Lemma llm_getApiKey_set s key :
  HUGGINGFACE_API_KEY (env s) = Some key → key ≠ [] →
  Llm.getApiKey s = (Returned key, s).
Proof.
  intros Hkey Hsome. unfold Llm.getApiKey, bind, get. rewrite Hkey.
  by destruct key.
Qed.

Lemma llm_getApiKey_unset s :
  unset (HUGGINGFACE_API_KEY (env s)) →
  Llm.getApiKey s = (Threw keyNotSet, s).
Proof.
  intros [Hkey|Hkey]; unfold Llm.getApiKey, bind, get; by rewrite Hkey.
Qed.

Lemma unset_or_set (v : option jsstring) :
  unset v ∨ ∃ key, v = Some key ∧ key ≠ [].
Proof.
  destruct v as [[|c r]|]; [left; by right | right; by eexists | left; by left].
Qed.

Lemma keepsSetup_getApiKey : keepsSetup Embeddings.getApiKey.
Proof.
  apply keepsSetup_bind; [apply keepsSetup_get|]. intros s.
  repeat case_match; auto using keepsSetup_ret, keepsSetup_throw.
Qed.

Lemma keepsSetup_callFeatureExtraction text :
  keepsSetup (Embeddings.callFeatureExtraction text).
Proof.
  apply keepsSetup_bind; [apply keepsSetup_getApiKey|]. intros key.
  apply keepsSetup_await.
Qed.

Lemma keepsSetup_embedText text : keepsSetup (Embeddings.embedText text).
Proof.
  apply keepsSetup_try_catch; [|intros; apply keepsSetup_throw].
  apply keepsSetup_bind; [apply keepsSetup_callFeatureExtraction|].
  intros; apply keepsSetup_ret.
Qed.

Lemma keepsSetup_embedLoop embeddings texts :
  keepsSetup (Embeddings.embedLoop embeddings texts).
Proof.
  revert embeddings. induction texts as [|t rest IH]; intros embeddings.
  - apply keepsSetup_ret.
  - apply keepsSetup_bind; [apply keepsSetup_callFeatureExtraction|].
    intros; apply IH.
Qed.

Lemma keepsSetup_embedTexts texts : keepsSetup (Embeddings.embedTexts texts).
Proof.
  destruct texts; [apply keepsSetup_ret|].
  apply keepsSetup_try_catch;
    [apply keepsSetup_embedLoop | intros; apply keepsSetup_throw].
Qed.

Lemma keepsSetup_generateAnswer question matches :
  keepsSetup (Llm.generateAnswer question matches).
Proof.
  destruct matches; [apply keepsSetup_ret|].
  apply keepsSetup_try_catch; [|intros; apply keepsSetup_throw].
  apply keepsSetup_bind.
  { apply keepsSetup_bind; [apply keepsSetup_get|]. intros s.
    repeat case_match; auto using keepsSetup_ret, keepsSetup_throw. }
  intros key. apply keepsSetup_bind; [apply keepsSetup_await|].
  intros response. repeat case_match; apply keepsSetup_ret.
Qed.

(** *** One request for each text, in order *)

Lemma callFeatureExtraction_set text s key :
  HUGGINGFACE_API_KEY (env s) = Some key → key ≠ [] →
  Embeddings.callFeatureExtraction text s =
    await (CallFeatureExtraction key Embeddings.EMBEDDING_MODEL text)
      (featureExtraction key Embeddings.EMBEDDING_MODEL text) s.
Proof.
  intros Hkey Hsome. unfold Embeddings.callFeatureExtraction.
  by erewrite bind_returned by by apply getApiKey_set.
Qed.

Lemma callFeatureExtraction_unset text s :
  unset (HUGGINGFACE_API_KEY (env s)) →
  Embeddings.callFeatureExtraction text s = (Threw keyNotSet, s).
Proof.
  intros Hkey. unfold Embeddings.callFeatureExtraction.
  by erewrite bind_threw by by apply getApiKey_unset.
Qed.

Lemma embedLoop_sent key embeddings texts s o s' :
  HUGGINGFACE_API_KEY (env s) = Some key →
  Embeddings.embedLoop embeddings texts s = (o, s') →
  ∃ sent,
    sent `prefix_of` texts ∧
    calls s' =
      calls s ++
      (CallFeatureExtraction key Embeddings.EMBEDDING_MODEL <$> sent) ∧
    (∀ out, o = Returned out → sent = texts).
Proof.
  revert embeddings s.
  induction texts as [|t rest IH]; intros embeddings s Hkey; simpl.
  - intros [= <- <-]. exists []. by rewrite app_nil_r.
  - destruct key as [|k0 key'].
    { erewrite bind_threw
        by (apply callFeatureExtraction_unset; by right).
      intros [= <- <-]. exists []. split; [apply prefix_nil|].
      by rewrite app_nil_r. }
    unfold bind at 1. rewrite (callFeatureExtraction_set t s (k0 :: key')) by done.
    unfold await.
    destruct (featureExtraction _ _ t (world s)) as [[result|err] w].
    + intros Hrest. apply IH in Hrest as (sent & Hpre & Hcalls & Hall); [|done].
      exists (t :: sent). split; [by apply prefix_cons|].
      split; [rewrite Hcalls; simpl; by rewrite <- app_assoc|].
      intros out Ho. by rewrite (Hall out Ho).
    + intros [= <- <-]. exists [t].
      split; [apply prefix_cons, prefix_nil|]. by split.
Qed.

Lemma embedTexts_sent key texts s o s' :
  HUGGINGFACE_API_KEY (env s) = Some key →
  Embeddings.embedTexts texts s = (o, s') →
  ∃ sent,
    sent `prefix_of` texts ∧
    calls s' =
      calls s ++
      (CallFeatureExtraction key Embeddings.EMBEDDING_MODEL <$> sent) ∧
    (∀ out, o = Returned out → sent = texts ∧ length out = length texts).
Proof.
  intros Hkey. destruct texts as [|t rest].
  - intros [= <- <-]. exists []. rewrite app_nil_r.
    split; [done|]. split; [done|]. by intros out [= <-].
  - unfold Embeddings.embedTexts, try_catch.
    destruct (Embeddings.embedLoop [] (t :: rest) s) as [[out|err] s1] eqn:Hloop.
    + intros [= <- <-].
      pose proof (embedLoop_length _ _ _ _ _ Hloop) as Hlen.
      apply (embedLoop_sent key) in Hloop as (sent & Hpre & Hcalls & Hall);
        [|done].
      exists sent. split; [done|]. split; [done|].
      intros out' [= <-]. split; [by eapply Hall | done].
    + intros [= <- <-].
      apply (embedLoop_sent key) in Hloop as (sent & Hpre & Hcalls & _);
        [|done].
      exists sent. by repeat split.
Qed.

(** *** The cached index *)

Lemma getIndex_cached s index :
  pineconeIndex s = Some index →
  PineconeService.getIndex s = (Returned index, s).
Proof.
  intros Hi. unfold PineconeService.getIndex, bind, get. by rewrite Hi.
Qed.

Lemma getClient_run s o s1 :
  PineconeService.getClient s = (o, s1) →
  match o with
  | Returned c =>
      s1 = mkState (world s) (env s) (Some c) (pineconeIndex s)
             (calls s) (console s) ∧
      (pineconeClient s = Some c ∨
       pineconeClient s = None ∧
       ∃ apiKey, PINECONE_API_KEY (env s) = Some apiKey ∧ apiKey ≠ [] ∧
                 c = mkPinecone apiKey)
  | Threw err =>
      s1 = s ∧ pineconeClient s = None ∧
      unset (PINECONE_API_KEY (env s)) ∧
      err = PineconeService.missing "PINECONE_API_KEY"
  end.
Proof.
  unfold PineconeService.getClient, bind, get, ret, throw,
    set_pineconeClient.
  destruct s as [w e c i cs co]. simpl.
  destruct c as [c|]; [intros [= <- <-]; by split; [|left]|].
  destruct (PINECONE_API_KEY e) as [[|k0 key]|] eqn:Hkey; simpl;
    intros [= <- <-].
  - repeat split. by right.
  - split; [done|]. right. split; [done|]. by eexists.
  - repeat split. by left.
Qed.

Lemma getIndex_run s o s1 :
  PineconeService.getIndex s = (o, s1) →
  match o with
  | Returned index =>
      pineconeIndex s1 = Some index ∧
      world s1 = world s ∧ env s1 = env s ∧
      calls s1 = calls s ∧ console s1 = console s ∧
      (pineconeIndex s = Some index ∧ s1 = s ∨
       pineconeIndex s = None ∧
       ∃ indexName c,
         PINECONE_INDEX (env s) = Some indexName ∧ indexName ≠ [] ∧
         index = mkIndex c indexName ∧ pineconeClient s1 = Some c ∧
         (pineconeClient s = Some c ∨
          pineconeClient s = None ∧
          ∃ apiKey, PINECONE_API_KEY (env s) = Some apiKey ∧ apiKey ≠ [] ∧
                    c = mkPinecone apiKey))
  | Threw err =>
      s1 = s ∧ pineconeIndex s = None ∧
      (unset (PINECONE_INDEX (env s)) ∧
       err = PineconeService.missing "PINECONE_INDEX" ∨
       ¬ unset (PINECONE_INDEX (env s)) ∧
       pineconeClient s = None ∧ unset (PINECONE_API_KEY (env s)) ∧
       err = PineconeService.missing "PINECONE_API_KEY")
  end.
Proof.
  unfold PineconeService.getIndex, bind at 1, get.
  destruct (pineconeIndex s) as [i|] eqn:Hi.
  { intros [= <- <-]. repeat split; try done. by left. }
  destruct (PINECONE_INDEX (env s)) as [[|n0 name]|] eqn:Hname; simpl;
    try (intros [= <- <-]; repeat split; try done; left; split; [|done]).
  - by right.
  - unfold bind at 1.
    destruct (PineconeService.getClient s) as [[c|err] s2] eqn:Hclient;
      apply getClient_run in Hclient.
    + destruct Hclient as [-> Hc]. intros [= <- <-]. simpl.
      repeat split; try done. right. split; [done|].
      exists (n0 :: name), c. by repeat split.
    + destruct Hclient as (-> & Hnone & Hunset & ->). intros [= <- <-].
      repeat split; try done. right. repeat split; try done.
      intros [?|?]; done.
  - by left.
Qed.

Lemma getIndex_threw s err s1 :
  PineconeService.getIndex s = (Threw err, s1) → s1 = s.
Proof. intros Hrun. by apply getIndex_run in Hrun as [-> _]. Qed.

(** Whether the index can be had depends on the environment and on the
    cache only. *)
Lemma getIndex_stable s t :
  sameSetup s t →
  (PineconeService.getIndex t).1 = (PineconeService.getIndex s).1.
Proof.
  intros (Henv & Hclient & Hindex).
  unfold PineconeService.getIndex, PineconeService.getClient, bind, get,
    ret, throw, set_pineconeClient, set_pineconeIndex.
  rewrite Hindex. destruct (pineconeIndex s); [done|].
  rewrite Henv. destruct (PINECONE_INDEX (env s)) as [[|n0 name]|]; try done.
  simpl. rewrite Hclient. destruct (pineconeClient s); [done|].
  rewrite Henv. by destruct (PINECONE_API_KEY (env s)) as [[|k0 key]|].
Qed.

Lemma keepsEnv_getIndex s o s1 :
  PineconeService.getIndex s = (o, s1) → env s1 = env s.
Proof.
  intros Hrun. apply getIndex_run in Hrun.
  destruct o; [by destruct Hrun as (_ & _ & ? & _) | by destruct Hrun as [-> _]].
Qed.

(** *** What the index gateway sends *)

Lemma upsertVectors_sent vectors s s' :
  vectors ≠ [] →
  PineconeService.upsertVectors vectors s = (Returned (), s') →
  ∃ index s1 batches,
    PineconeService.getIndex s = (Returned index, s1) ∧
    calls s' = calls s ++ (CallUpsert index <$> batches) ∧
    concat batches = vectors ∧ Forall isBatch batches.
Proof.
  intros Hsome. destruct vectors as [|v vs]; [done|].
  unfold PineconeService.upsertVectors, try_catch, bind.
  destruct (PineconeService.getIndex s) as [[index|err] s1] eqn:Hindex;
    [|done].
  destruct (PineconeService.upsertLoop index (v :: vs) s1)
    as [[[]|err] s2] eqn:Hloop; [|done].
  intros [= <-].
  apply getIndex_run in Hindex as Hrun.
  destruct Hrun as (_ & _ & _ & Hcalls & _).
  apply upsertLoop_batches in Hloop as (batches & Hsent & Hconcat & Hall).
  exists index, s1, batches. by rewrite <- Hcalls.
Qed.

Lemma upsertVectors_no_index vectors s err :
  vectors ≠ [] →
  PineconeService.getIndex s = (Threw err, s) →
  PineconeService.upsertVectors vectors s =
    (Threw (ThrownApp (ExternalServiceError (lit "Pinecone")
       (lit "Failed to upsert vectors: " ++ messageOf err))), s).
Proof.
  intros Hsome Hindex. destruct vectors as [|v vs]; [done|].
  unfold PineconeService.upsertVectors.
  erewrite try_catch_threw; [done|]. by apply bind_threw.
Qed.

Lemma queryVectors_no_index vector topK s err :
  PineconeService.getIndex s = (Threw err, s) →
  PineconeService.queryVectors vector topK s =
    (Threw (ThrownApp (ExternalServiceError (lit "Pinecone")
       (lit "Failed to query vectors: " ++ messageOf err))), s).
Proof.
  intros Hindex. unfold PineconeService.queryVectors.
  erewrite try_catch_threw; [done|]. by apply bind_threw.
Qed.

Definition deleteWarning : LogEntry :=
  mkLogEntry LevelWarn "Could not delete existing vectors for docId".

Lemma deleteByDocId_no_index docId s err :
  PineconeService.getIndex s = (Threw err, s) →
  PineconeService.deleteByDocId docId s =
    (Returned (), logged s [deleteWarning]).
Proof.
  intros Hindex. unfold PineconeService.deleteByDocId.
  erewrite try_catch_threw; [done|]. by apply bind_threw.
Qed.

(** A deletion sends one request when the index can be had, and none when
    it cannot. *)
Lemma deleteByDocId_run docId s s' :
  PineconeService.deleteByDocId docId s = (Returned (), s') →
  (∃ index s1,
     PineconeService.getIndex s = (Returned index, s1) ∧
     calls s' = calls s ++ [CallDeleteMany index docId] ∧
     sameSetup s1 s') ∨
  (∃ err,
     PineconeService.getIndex s = (Threw err, s) ∧
     s' = logged s [deleteWarning]).
Proof.
  destruct (PineconeService.getIndex s) as [[index|err] s1] eqn:Hindex.
  - intros Hrun. left. exists index, s1. split; [done|].
    apply getIndex_run in Hindex as Hshape.
    destruct Hshape as (_ & _ & _ & Hcalls & _).
    revert Hrun. unfold PineconeService.deleteByDocId, try_catch.
    erewrite bind_returned by exact Hindex.
    unfold await. destruct (deleteMany index docId (world s1)) as [[[]|e] w].
    + intros [= <-]. simpl. rewrite Hcalls. by repeat split.
    + intros [= <-]. simpl. rewrite Hcalls. by repeat split.
  - pose proof (getIndex_threw _ _ _ Hindex) as ->.
    rewrite (deleteByDocId_no_index docId s err Hindex).
    intros [= <-]. right. by exists err.
Qed.

End WithServices.
End GatewayFacts.

(** ** Further properties of the gateways *)

Module GatewayProperties.
Import Errors External Runtime RuntimeFacts ServiceFacts GatewayFacts.

Section WithServices.
Context `{Services}.


(** X10: without [HUGGINGFACE_API_KEY] (unset or empty) the embedding and
    generation gateways fail before any request is made: the state is
    left as it was, and the error is an external-service error (status
    502) whose message wraps the message of the missing-key error.  With
    nothing to embed, [embedTexts] does not need the key. *)
Theorem huggingface_key_missing s :
  unset (HUGGINGFACE_API_KEY (env s)) →
  let failure := λ what,
    mkAppError ClassExternalServiceError
      (lit "HuggingFace error: Failed to generate " ++ lit what ++
       lit ": HuggingFace error: HUGGINGFACE_API_KEY environment variable is not set")
      502 true (Some (lit "HuggingFace")) in
  (∀ text,
     Embeddings.embedText text s = (Threw (ThrownApp (failure "embedding")), s)) ∧
  (∀ texts, texts ≠ [] →
     Embeddings.embedTexts texts s =
       (Threw (ThrownApp (failure "embeddings")), s)) ∧
  Embeddings.embedTexts [] s = (Returned [], s) ∧
  (∀ question matches, matches ≠ [] →
     Llm.generateAnswer question matches s =
       (Threw (ThrownApp (failure "answer")), s)).
Proof.
  intros Hkey failure. split; [|split; [|split; [done|]]].
  - intros text. unfold Embeddings.embedText.
    rewrite (try_catch_threw _ _ s keyNotSet s)
      by (apply bind_threw; by apply callFeatureExtraction_unset).
    reflexivity.
  - intros [|t rest] Hsome; [done|]. unfold Embeddings.embedTexts.
    rewrite (try_catch_threw _ _ s keyNotSet s)
      by (apply bind_threw; by apply callFeatureExtraction_unset).
    reflexivity.
  - intros question [|m rest] Hsome; [done|]. unfold Llm.generateAnswer.
    rewrite (try_catch_threw _ _ s keyNotSet s)
      by (apply bind_threw; by apply llm_getApiKey_unset).
    reflexivity.
Qed.

(** X11: when the index cannot be had, because [PINECONE_INDEX], or the
    [PINECONE_API_KEY] needed for a first client, is unset or empty,
    [upsertVectors] and [queryVectors] fail with an external-service
    error that names the variable, and [deleteByDocId] only logs a
    warning; no request is made and the cache stays empty.  With nothing
    to upsert, [upsertVectors] does not need the index. *)
Theorem pinecone_environment_missing s name :
  pineconeIndex s = None →
  unset (PINECONE_INDEX (env s)) ∧ name = "PINECONE_INDEX" ∨
  ¬ unset (PINECONE_INDEX (env s)) ∧ pineconeClient s = None ∧
    unset (PINECONE_API_KEY (env s)) ∧ name = "PINECONE_API_KEY" →
  let failure := λ what,
    mkAppError ClassExternalServiceError
      (lit "Pinecone error: Failed to " ++ lit what ++
       lit " vectors: Pinecone error: " ++ lit name ++
       lit " environment variable is not set")
      502 true (Some (lit "Pinecone")) in
  (∀ vectors, vectors ≠ [] →
     PineconeService.upsertVectors vectors s =
       (Threw (ThrownApp (failure "upsert")), s)) ∧
  PineconeService.upsertVectors [] s = (Returned (), s) ∧
  (∀ vector topK,
     PineconeService.queryVectors vector topK s =
       (Threw (ThrownApp (failure "query")), s)) ∧
  (∀ docId,
     PineconeService.deleteByDocId docId s =
       (Returned (),
        logged s [mkLogEntry LevelWarn
                    "Could not delete existing vectors for docId"])).
Proof.
  intros Hindex Hmissing failure.
  assert (PineconeService.getIndex s =
            (Threw (PineconeService.missing name), s)) as Hget.
  { destruct (PineconeService.getIndex s) as [[index|err] s1] eqn:Hrun;
      apply getIndex_run in Hrun.
    - destruct Hrun as (_ & _ & _ & _ & _ & [[Hcached _]|Hnew]);
        [congruence|].
      destruct Hnew as (_ & indexName & c & Hname & Hsome & _ & _ & Hclient).
      destruct Hmissing as [[[Hu|Hu] _]|(_ & Hnone & [Hu|Hu] & _)];
        try congruence;
        destruct Hclient as [?|(_ & apiKey & ? & ? & _)]; congruence.
    - destruct Hrun as (-> & _ & Hwhy). f_equal. f_equal.
      destruct Hmissing as [[Hu ->]|(Hset & _ & _ & ->)],
               Hwhy as [[Hu' ->]|(Hset' & _ & _ & ->)]; done. }
  split; [|split; [done|split]].
  - intros vectors Hsome. by rewrite (upsertVectors_no_index _ _ _ Hsome Hget).
  - intros vector topK. by rewrite (queryVectors_no_index _ _ _ _ Hget).
  - intros docId. by rewrite (deleteByDocId_no_index _ _ _ Hget).
Qed.

(** X12: the index handle is created at most once.  A successful
    [getIndex] changes nothing but the cache (no request, no log line);
    from then on every call returns the same handle without looking at
    the environment; and a handle that was not cached before is the index
    named by [PINECONE_INDEX], on the cached client or else on a new
    client for [PINECONE_API_KEY]. *)
Theorem getIndex_created_once s index s1 :
  PineconeService.getIndex s = (Returned index, s1) →
  world s1 = world s ∧ env s1 = env s ∧
  calls s1 = calls s ∧ console s1 = console s ∧
  (∀ t, pineconeIndex t = pineconeIndex s1 →
        PineconeService.getIndex t = (Returned index, t)) ∧
  (pineconeIndex s = None →
   PINECONE_INDEX (env s) = Some (indexName index) ∧
   pineconeClient s1 = Some (client index) ∧
   (pineconeClient s = None →
    PINECONE_API_KEY (env s) = Some (apiKey (client index)))).
Proof.
  intros Hrun. apply getIndex_run in Hrun.
  destruct Hrun as (Hcached & Hworld & Henv & Hcalls & Hconsole & Hhow).
  repeat (split; [done|]). split.
  - intros t Ht. apply getIndex_cached. congruence.
  - intros Hnone. destruct Hhow as [[Hsome _]|Hnew]; [congruence|].
    destruct Hnew as (_ & indexName & c & Hname & _ & -> & Hclient & Hkey).
    simpl. repeat (split; [done|]). intros Hnoclient.
    destruct Hkey as [?|(_ & apiKey & Hk & _ & ->)]; [congruence | done].
Qed.

End WithServices.


Lemma huggingface_key_missing_witness :
  let s : @State Sample.services :=
    @mkState Sample.services ()
      (mkEnv (Some []) (Some (lit "pc-key")) (Some (lit "rag")))
      None None [] [] in
  @Embeddings.embedText Sample.services (lit "Q") s =
    (Threw (ThrownApp
       (mkAppError ClassExternalServiceError
          (lit "HuggingFace error: Failed to generate embedding: HuggingFace error: HUGGINGFACE_API_KEY environment variable is not set")
          502 true (Some (lit "HuggingFace")))), s).
Proof.
  intros s.
  destruct (@huggingface_key_missing Sample.services s) as [Hembed _];
    [by right|].
  exact (Hembed (lit "Q")).
Defined.

Lemma pinecone_environment_missing_witness :
  let s : @State Sample.services :=
    @mkState Sample.services ()
      (mkEnv (Some (lit "hf-key")) None (Some (lit "rag")))
      None None [] [] in
  @PineconeService.queryVectors Sample.services [1%float] 3 s =
    (Threw (ThrownApp
       (mkAppError ClassExternalServiceError
          (lit "Pinecone error: Failed to query vectors: Pinecone error: PINECONE_API_KEY environment variable is not set")
          502 true (Some (lit "Pinecone")))), s).
Proof.
  intros s.
  destruct (@pinecone_environment_missing Sample.services s "PINECONE_API_KEY")
    as (_ & _ & Hquery & _); [reflexivity| |exact (Hquery [1%float] 3)].
  right. split; [|by repeat split; try left].
  intros [?|?]; discriminate.
Defined.

Lemma getIndex_created_once_witness :
  ∃ (s1 : @State Sample.services),
    calls s1 = [] ∧
    PINECONE_INDEX Sample.environment = Some (lit "rag") ∧
    pineconeClient s1 = Some (mkPinecone (lit "pc-key")).
Proof.
  edestruct (@getIndex_created_once Sample.services Sample.fresh)
    as (_ & _ & Hcalls & _ & _ & Hnew); [vm_compute; reflexivity|].
  destruct (Hnew eq_refl) as (Hname & Hclient & _).
  eexists. split; [exact Hcalls|]. split; [exact Hname | exact Hclient].
Defined.

End GatewayProperties.

(** ** More facts about the handlers *)

Module PipelineFacts.
Import Errors External Runtime RuntimeFacts ServiceFacts GatewayFacts.
Import Response Handlers HandlerFacts ChunkerFacts.

(** The fields of the chunks of a document. *)
Lemma chunksOf_fields doc i c :
  chunksOf doc !! i = Some c →
  Chunker.chunkId c = Chunker.makeChunkId (Document.id doc) i ∧
  Chunker.docId c = Document.id doc ∧
  Chunker.title c = Document.title doc.
Proof.
  unfold chunksOf.
  pose proof (chunkDocument_defaults_returns (Document.id doc)
                (Document.title doc) (Document.content doc)) as Hrun.
  apply chunkDocument_inv in Hrun as [[_ ->]|(_ & raw & _ & ->)]; [done|].
  rewrite list_lookup_imap.
  destruct (_ !! i) as [t|]; [|done]. by intros [= <-].
Qed.

Section WithServices.
Context `{Services}.

(** *** Single requests *)

Lemma embedText_run text s questionVector s' :
  Embeddings.embedText text s = (Returned questionVector, s') →
  ∃ key,
    HUGGINGFACE_API_KEY (env s) = Some key ∧
    calls s' =
      calls s ++ [CallFeatureExtraction key Embeddings.EMBEDDING_MODEL text] ∧
    env s' = env s ∧ key ≠ [].
Proof.
  unfold Embeddings.embedText, try_catch, bind at 1.
  destruct (unset_or_set (HUGGINGFACE_API_KEY (env s)))
    as [Hunset|(key & Hkey & Hsome)].
  - by rewrite callFeatureExtraction_unset.
  - rewrite (callFeatureExtraction_set text s key) by done.
    unfold await.
    destruct (featureExtraction _ _ text (world s)) as [[result|err] w];
      [|done].
    intros [= _ <-]. by exists key.
Qed.

Lemma queryVectors_run vector topK s matches s' :
  PineconeService.queryVectors vector topK s = (Returned matches, s') →
  ∃ index,
    calls s' = calls s ++ [CallQuery index vector topK true] ∧
    env s' = env s.
Proof.
  unfold PineconeService.queryVectors, try_catch, bind at 1.
  destruct (PineconeService.getIndex s) as [[index|err] s1] eqn:Hindex;
    [|done].
  apply getIndex_run in Hindex as (_ & _ & Henv & Hcalls & _).
  unfold bind, await.
  destruct (query index vector topK true (world s1)) as [[results|err] w];
    [|done].
  intros [= _ <-]. exists index. simpl. by rewrite Hcalls, Henv.
Qed.

Lemma generateAnswer_run question matches s answer s' :
  matches ≠ [] →
  Llm.generateAnswer question matches s = (Returned answer, s') →
  ∃ key,
    HUGGINGFACE_API_KEY (env s) = Some key ∧
    calls s' =
      calls s ++
      [CallChatCompletion key Llm.CHAT_MODEL
         [(system, Llm.SYSTEM_PROMPT);
          (user, Llm.buildPrompt question matches)]
         500 0x1.3333333333333p-2%float].
Proof.
  intros Hsome. destruct matches as [|m rest]; [done|].
  unfold Llm.generateAnswer, try_catch, bind at 1.
  destruct (unset_or_set (HUGGINGFACE_API_KEY (env s)))
    as [Hunset|(key & Hkey & Hkeysome)].
  - by rewrite llm_getApiKey_unset.
  - rewrite (llm_getApiKey_set s key) by done.
    unfold bind, await.
    destruct (chatCompletion _ _ _ _ _ (world s)) as [[response|err] w];
      [|done].
    intros Hrun. exists key. split; [done|].
    destruct (Llm.firstContent response) as [generatedText|];
      [destruct (truthy generatedText)|];
      by injection Hrun as _ <-.
Qed.

(** *** Failing requests *)

Lemma embedText_threw text s err s' :
  Embeddings.embedText text s = (Threw err, s') →
  ∃ detail,
    err = ThrownApp (ExternalServiceError (lit "HuggingFace")
            (lit "Failed to generate embedding: " ++ detail)) ∧
    (calls s' = calls s ∨
     ∃ key,
       HUGGINGFACE_API_KEY (env s) = Some key ∧
       calls s' =
         calls s ++
         [CallFeatureExtraction key Embeddings.EMBEDDING_MODEL text]).
Proof.
  unfold Embeddings.embedText, try_catch, bind at 1.
  destruct (unset_or_set (HUGGINGFACE_API_KEY (env s)))
    as [Hunset|(key & Hkey & Hsome)].
  - rewrite callFeatureExtraction_unset by done.
    intros [= <- <-]. eexists. split; [done|]. by left.
  - rewrite (callFeatureExtraction_set text s key) by done.
    unfold await.
    destruct (featureExtraction _ _ text (world s)) as [[result|cause] w];
      [done|].
    intros [= <- <-]. eexists. split; [done|]. right. by exists key.
Qed.

Lemma queryVectors_threw vector topK s err s' :
  PineconeService.queryVectors vector topK s = (Threw err, s') →
  ∃ detail,
    err = ThrownApp (ExternalServiceError (lit "Pinecone")
            (lit "Failed to query vectors: " ++ detail)) ∧
    (calls s' = calls s ∨
     ∃ index, calls s' = calls s ++ [CallQuery index vector topK true]).
Proof.
  unfold PineconeService.queryVectors, try_catch, bind at 1.
  destruct (PineconeService.getIndex s) as [[index|cause] s1] eqn:Hindex.
  - apply getIndex_run in Hindex as (_ & _ & _ & Hcalls & _).
    unfold bind, await.
    destruct (query index vector topK true (world s1)) as [[results|cause] w];
      [done|].
    intros [= <- <-]. eexists. split; [done|]. right. exists index.
    simpl. by rewrite Hcalls.
  - pose proof (getIndex_threw _ _ _ Hindex) as ->.
    intros [= <- <-]. eexists. split; [done|]. by left.
Qed.

Lemma generateAnswer_threw question matches s err s' :
  matches ≠ [] →
  Llm.generateAnswer question matches s = (Threw err, s') →
  ∃ detail,
    err = ThrownApp (ExternalServiceError (lit "HuggingFace")
            (lit "Failed to generate answer: " ++ detail)) ∧
    (unset (HUGGINGFACE_API_KEY (env s)) ∧ calls s' = calls s ∨
     ∃ key,
       HUGGINGFACE_API_KEY (env s) = Some key ∧
       calls s' =
         calls s ++
         [CallChatCompletion key Llm.CHAT_MODEL
            [(system, Llm.SYSTEM_PROMPT);
             (user, Llm.buildPrompt question matches)]
            500 0x1.3333333333333p-2%float]).
Proof.
  intros Hsome. destruct matches as [|m rest]; [done|].
  unfold Llm.generateAnswer, try_catch, bind at 1.
  destruct (unset_or_set (HUGGINGFACE_API_KEY (env s)))
    as [Hunset|(key & Hkey & Hkeysome)].
  - rewrite llm_getApiKey_unset by done.
    intros [= <- <-]. eexists. split; [done|]. by left.
  - rewrite (llm_getApiKey_set s key) by done.
    unfold bind, await.
    destruct (chatCompletion _ _ _ _ _ (world s)) as [[response|cause] w].
    + destruct (Llm.firstContent response) as [generatedText|];
        [destruct (truthy generatedText)|]; done.
    + intros [= <- <-]. eexists. split; [done|]. right. by exists key.
Qed.

Lemma logMatches_run (matches : list PineconeMatch.t) s :
  logMatches matches s =
    (Returned (),
     logged s (replicate (length matches) (mkLogEntry LevelLog "Match"))).
Proof.
  revert s. induction matches as [|m rest IH]; intros s; simpl.
  - unfold ret, logged. destruct s. simpl. by rewrite app_nil_r.
  - rewrite bind_console_write, IH, logged_logged. done.
Qed.

(** *** One document, step by step *)

Lemma ingestDocument_inv totalChunks doc s total' s' :
  chunksOf doc ≠ [] →
  ingestDocument totalChunks doc s = (Returned total', s') →
  ∃ s1 embeddings s2 s3,
    PineconeService.deleteByDocId (Document.id doc)
      (logged s [mkLogEntry LevelLog "Processing document:"])
      = (Returned (), s1) ∧
    Embeddings.embedTexts (Chunker.text <$> chunksOf doc)
      (logged s1 [mkLogEntry LevelLog "chunks, avg chars"])
      = (Returned embeddings, s2) ∧
    PineconeService.upsertVectors
      (imap (toVector embeddings) (chunksOf doc)) s2 = (Returned (), s3) ∧
    s' = logged s3 [mkLogEntry LevelLog "ingested:"].
Proof.
  intros Hsome. unfold ingestDocument. fold (chunksOf doc).
  rewrite bind_console_write. unfold bind at 1.
  destruct (PineconeService.deleteByDocId _ _) as [[[]|?] s1]; [|done].
  destruct (Nat.eqb_spec (length (chunksOf doc)) 0) as [Hzero|_].
  { by destruct (chunksOf doc). }
  rewrite bind_console_write. unfold bind at 1.
  destruct (Embeddings.embedTexts _ _) as [[embeddings|?] s2] eqn:Hembed;
    [|done].
  unfold bind at 1.
  destruct (PineconeService.upsertVectors _ _) as [[[]|?] s3] eqn:Hup;
    [|done].
  rewrite bind_console_write. intros [= _ <-].
  by exists s1, embeddings, s2, s3.
Qed.

End WithServices.
End PipelineFacts.

(** ** Further properties of the handlers *)

Module PipelineProperties.
Import Errors External Runtime RuntimeFacts ServiceFacts GatewayFacts.
Import Response Handlers HandlerFacts ChunkerFacts PipelineFacts.

(** X13: the vectors built for a document line up with its chunks and
    with the embeddings: the vector at position [i] has the id
    ["{doc.id}#chunk-{i}"], the embedding at position [i] as its values,
    and the document's id and title and the text of chunk [i] as its
    metadata.  The ids are pairwise distinct, so no vector of a document
    overwrites another one in the index. *)
Theorem ingest_vectors doc embeddings :
  length embeddings = length (chunksOf doc) →
  let vectors := imap (toVector embeddings) (chunksOf doc) in
  length vectors = length (chunksOf doc) ∧
  NoDup (PineconeVector.id <$> vectors) ∧
  ∀ i v, vectors !! i = Some v →
    PineconeVector.id v =
      Document.id doc ++ lit "#chunk-" ++ lit (pretty i) ∧
    embeddings !! i = Some (PineconeVector.values v) ∧
    Metadata.docId (PineconeVector.metadata v) = Document.id doc ∧
    Metadata.title (PineconeVector.metadata v) = Document.title doc ∧
    Chunker.text <$> chunksOf doc !! i =
      Some (Metadata.chunkText (PineconeVector.metadata v)).
Proof.
  intros Hlen vectors.
  assert (∀ i v, vectors !! i = Some v →
            ∃ c, chunksOf doc !! i = Some c ∧ v = toVector embeddings i c)
    as Hlookup.
  { intros i v. subst vectors. rewrite list_lookup_imap.
    destruct (chunksOf doc !! i) as [c|]; [|done].
    intros [= <-]. by exists c. }
  split; [apply length_imap|]. split.
  - apply NoDup_alt. intros i j x.
    rewrite !list_lookup_fmap.
    destruct (vectors !! i) as [v|] eqn:Hv; [|done].
    destruct (vectors !! j) as [u|] eqn:Hu; [|done].
    apply Hlookup in Hv as (c & Hc & ->). apply Hlookup in Hu as (d & Hd & ->).
    apply chunksOf_fields in Hc as (Hc & _). apply chunksOf_fields in Hd as (Hd & _).
    simpl. rewrite Hc, Hd. intros [= <-] [= Heq].
    symmetry. by apply makeChunkId_inj in Heq.
  - intros i v Hv. apply Hlookup in Hv as (c & Hc & ->).
    pose proof (chunksOf_fields _ _ _ Hc) as (Hid & Hdoc & Htitle).
    simpl. rewrite Hc. repeat split; try done.
    destruct (embeddings !! i) as [e|] eqn:He; [done|].
    apply lookup_ge_None in He. apply lookup_lt_Some in Hc. lia.
Qed.

Section WithServices.
Context `{Services}.


End WithServices.

Lemma ingest_vectors_witness :
  let doc := Document.mk (lit "a") (lit "A") (lit "Alpha.") in
  let vectors := imap (toVector [[1%float]]) (chunksOf doc) in
  length vectors = length (chunksOf doc) ∧
  NoDup (PineconeVector.id <$> vectors).
Proof.
  intros doc vectors.
  destruct (ingest_vectors doc [[1%float]]) as (Hlen & Hnodup & _);
    [vm_compute; reflexivity|].
  by split.
Defined.


End PipelineProperties.

(** ** The responses of the handlers *)

Module ResponseFacts.
Import Errors External Runtime RuntimeFacts ServiceFacts GatewayFacts.
Import Response Handlers HandlerFacts PipelineFacts.

(** A response that reports a bad request: a body that is not JSON, or one
    that the schema rejects. *)
Definition isBadRequest (r : APIGatewayProxyResult) : Prop :=
  statusCode r = 400 ∧
  ∃ message,
    body r = ErrorBody message None ∧
    (message = lit "Invalid JSON in request body" ∨
     ∃ issue, message = lit "Validation error: " ++ issue).

(** A response that reports the failure of an external service. *)
Definition isBadGateway (r : APIGatewayProxyResult) : Prop :=
  statusCode r = 502 ∧
  ∃ service message,
    body r = ErrorBody (service ++ lit " error: " ++ message) None.

Section WithServices.
Context `{Services}.

Definition returnsOnly {A} (P : A → Prop) (m : M A) : Prop :=
  ∀ s a s', m s = (Returned a, s') → P a.

Lemma returnsOnly_ret {A} (P : A → Prop) a : P a → returnsOnly P (ret a).
Proof. by intros Ha s b s' [= <- _]. Qed.

Lemma returnsOnly_bind {A B} (P : B → Prop) (m : M A) (k : A → M B) :
  (∀ a, returnsOnly P (k a)) → returnsOnly P (bind m k).
Proof.
  intros Hk s b s'. unfold bind. destruct (m s) as [[a|err] s1]; [|done].
  apply Hk.
Qed.

Lemma validationError_isBadRequest zodError :
  isBadRequest (validationError zodError).
Proof.
  split; [done|]. unfold validationError, error. simpl.
  eexists. split; [done|]. right. by eexists.
Qed.

(** The common shape of the two handlers: parse, validate, run, and turn
    what is thrown into a response. *)
Lemma handler_responds {A} what (isResult : Body → Prop) body
    (validate : JsonValue → ZodError + A) k s :
  (∀ request, throwsExternal (k request)) →
  (∀ request,
     returnsOnly (λ r, statusCode r = 200 ∧ isResult (Response.body r))
       (k request)) →
  ∃ response s',
    try_catch (parseBody body validate k) (handleError what) s =
      (Returned response, s') ∧
    (statusCode response = 200 ∧ isResult (Response.body response) ∨
     isBadRequest response ∨ isBadGateway response) ∧
    (statusCode response = 400 → calls s' = calls s).
Proof.
  intros Hthrows Hreturns. unfold try_catch, parseBody.
  destruct (JSON_parse _) as [json|].
  - destruct (validate json) as [zodError|request].
    + eexists _, _. split; [done|]. split; [|done].
      right; left. apply validationError_isBadRequest.
    + destruct (k request s) as [[r|err] s1] eqn:Hrun.
      * exists r, s1. split; [done|].
        destruct (Hreturns request s r s1 Hrun) as [Hok Hresult].
        split; [by left|]. rewrite Hok. done.
      * pose proof (Hthrows request s err s1 Hrun) as Hext.
        rewrite handleError_external by done.
        eexists _, _. split; [done|]. split; [|done].
        right; right. destruct Hext as (service & message & ->).
        split; [done|]. by exists service, message.
  - eexists _, _. split; [done|]. split; [|done].
    right; left. split; [done|]. eexists. split; [done|]. by left.
Qed.

(** The same, started from a state that differs in its console only. *)
Lemma handler_respond_from {A} s what (isResult : Body → Prop) body
    (validate : JsonValue → ZodError + A) k s0 :
  calls s0 = calls s →
  (∀ request, throwsExternal (k request)) →
  (∀ request,
     returnsOnly (λ r, statusCode r = 200 ∧ isResult (Response.body r))
       (k request)) →
  ∃ response s',
    try_catch (parseBody body validate k) (handleError what) s0 =
      (Returned response, s') ∧
    (statusCode response = 200 ∧ isResult (Response.body response) ∨
     isBadRequest response ∨ isBadGateway response) ∧
    (statusCode response = 400 → calls s' = calls s).
Proof.
  intros <- Hthrows Hreturns. by apply handler_responds.
Qed.

(** The continuation of the ask handler only throws what the gateways
    throw. *)
Lemma logMatches_neverThrows matches : neverThrows (logMatches matches).
Proof. intros s err s'. by rewrite logMatches_run. Qed.

End WithServices.

Ltac throws_external :=
  repeat first
    [ apply throwsExternal_bind; [|intros ?]
    | apply neverThrows_external, neverThrows_console_write
    | apply neverThrows_external, neverThrows_ret
    | apply neverThrows_external, logMatches_neverThrows
    | apply neverThrows_external, deleteByDocId_neverThrows
    | apply embedText_throwsExternal
    | apply embedTexts_throwsExternal
    | apply queryVectors_throwsExternal
    | apply upsertVectors_throwsExternal
    | apply generateAnswer_throwsExternal
    | apply ingestLoop_throwsExternal
    | case_match ].

End ResponseFacts.

Module ResponseProperties.
Import Errors External Runtime RuntimeFacts ServiceFacts GatewayFacts.
Import Response Handlers HandlerFacts PipelineFacts ResponseFacts.

Section WithServices.
Context `{Services}.

(** X15: whatever the request and whatever the services do, each
    handler answers with one of three kinds of response: 200 with its
    result, 400 for a body that is not JSON or that the schema rejects
    (no details attached), or 502 with the message of an external-service
    error.  In particular the 500 branch of the error handling is never
    taken: nothing the handlers call throws anything else.  A request
    that is answered with 400 has reached no external service. *)
Theorem handlers_status_codes body s :
  (∃ response s',
     ingestHandler body s = (Returned response, s') ∧
     (statusCode response = 200 ∧
      (∃ result, Response.body response = IngestBody result) ∨
      isBadRequest response ∨ isBadGateway response) ∧
     (statusCode response = 400 → calls s' = calls s)) ∧
  (∃ response s',
     askHandler body s = (Returned response, s') ∧
     (statusCode response = 200 ∧
      (∃ result, Response.body response = AskBody result) ∨
      isBadRequest response ∨ isBadGateway response) ∧
     (statusCode response = 400 → calls s' = calls s)).
Proof.
  split.
  - unfold ingestHandler. rewrite bind_console_write.
    apply (handler_respond_from s _ (λ b, ∃ result, b = IngestBody result));
      [done|..].
    + intros documents. throws_external.
    + intros documents. repeat (apply returnsOnly_bind; intros ?).
      apply returnsOnly_ret. split; [done|]. by eexists.
  - unfold askHandler. rewrite bind_console_write.
    apply (handler_respond_from s _ (λ b, ∃ result, b = AskBody result));
      [done|..].
    + intros request. throws_external.
    + intros request. repeat (apply returnsOnly_bind; intros ?).
      case_match; repeat (apply returnsOnly_bind; intros ?);
        apply returnsOnly_ret; (split; [done|]); by eexists.
Qed.


(** X20: what stands behind a 502 answer of the ask handler to a valid
    request.  The step that failed shows in the error text, and the steps
    after it were not run: a failed embedding made at most the embedding
    request; a failed query comes after the embedding request and made at
    most the query request; a failed generation comes after the embedding
    and query requests and the one generation request, for a query that
    had kept some match. *)
Theorem askHandler_failure body json request s response s' :
  JSON_parse (default (lit "{}") body) = Some json →
  validateAskRequest json = inr request →
  askHandler body s = (Returned response, s') →
  statusCode response = 502 →
  let embedding := λ key,
    CallFeatureExtraction key
      (lit "sentence-transformers/all-MiniLM-L6-v2") (question request) in
  ∃ step detail new,
    Response.body response = ErrorBody (step ++ detail) None ∧
    calls s' = calls s ++ new ∧
    (step = lit "HuggingFace error: Failed to generate embedding: " ∧
     (new = [] ∨ ∃ key, new = [embedding key]) ∨
     step = lit "Pinecone error: Failed to query vectors: " ∧
     (∃ key questionVector,
        new = [embedding key] ∨
        ∃ index,
          new = [embedding key;
                 CallQuery index questionVector (topK request) true]) ∨
     step = lit "HuggingFace error: Failed to generate answer: " ∧
     (∃ key index questionVector matches,
        matches ≠ [] ∧
        new =
          [embedding key;
           CallQuery index questionVector (topK request) true;
           CallChatCompletion key (lit "meta-llama/Llama-3.2-3B-Instruct")
             [(system, Llm.SYSTEM_PROMPT);
              (user, Llm.buildPrompt (question request) matches)]
             500 0x1.3333333333333p-2%float])).
Proof.
  intros Hparse Hvalidate Hrun Hstatus embedding. revert Hrun.
  unfold askHandler. rewrite bind_console_write. unfold try_catch, parseBody.
  rewrite Hparse, Hvalidate.
  rewrite !bind_console_write, !logged_logged. unfold bind at 1.
  destruct (Embeddings.embedText _ _) as [[questionVector|err] s1] eqn:Hembed.
  - apply embedText_run in Hembed as (key & Hkey & Hcalls1 & Henv1 & Hset).
    simpl in Hkey, Hcalls1, Henv1.
    rewrite bind_console_write. unfold bind at 1.
    destruct (PineconeService.queryVectors _ _ _)
      as [[matches|err] s2] eqn:Hquery.
    + apply queryVectors_run in Hquery as (index & Hcalls2 & Henv2).
      simpl in Hcalls2, Henv2.
      rewrite bind_console_write.
      destruct matches as [|m rest].
      { rewrite bind_console_write. intros [= <- _]. done. }
      erewrite bind_returned by apply logMatches_run.
      rewrite bind_console_write. unfold bind at 1.
      destruct (Llm.generateAnswer _ _ _) as [[answer|err] s3] eqn:Hgen.
      { rewrite bind_console_write. intros [= <- _]. done. }
      apply generateAnswer_threw in Hgen
        as (detail & -> & [[Hunset _]|(key' & Hkey' & Hcalls3)]); [| |done].
      { simpl in Hunset. rewrite Henv2, Henv1, Hkey in Hunset.
        by destruct Hunset as [?|[= ->]]. }
      unfold logged in Hkey', Hcalls3. cbn [calls env] in Hkey', Hcalls3.
      rewrite Henv2, Henv1, Hkey in Hkey'. injection Hkey' as <-.
      rewrite handleError_external by (by eexists _, _).
      intros [= <- <-].
      exists (lit "HuggingFace error: Failed to generate answer: "), detail,
        [embedding key;
         CallQuery index questionVector (topK request) true;
         CallChatCompletion key Llm.CHAT_MODEL
           [(system, Llm.SYSTEM_PROMPT);
            (user, Llm.buildPrompt (question request) (m :: rest))]
           500 0x1.3333333333333p-2%float].
      split; [done|]. split.
      { unfold logged. cbn [calls].
        rewrite Hcalls3, Hcalls2, Hcalls1, <- !app_assoc. reflexivity. }
      right; right. split; [done|].
      by exists key, index, questionVector, (m :: rest).
    + apply queryVectors_threw in Hquery
        as (detail & -> & [Hcalls2|(index & Hcalls2)]);
        simpl in Hcalls2;
        (rewrite handleError_external by (by eexists _, _));
        intros [= <- <-].
      * exists (lit "Pinecone error: Failed to query vectors: "), detail,
          [embedding key].
        split; [done|]. split.
        { unfold logged. cbn [calls]. by rewrite Hcalls2, Hcalls1. }
        right; left. split; [done|]. exists key, questionVector. by left.
      * exists (lit "Pinecone error: Failed to query vectors: "), detail,
          [embedding key; CallQuery index questionVector (topK request) true].
        split; [done|]. split.
        { unfold logged. cbn [calls].
          by rewrite Hcalls2, Hcalls1, <- app_assoc. }
        right; left. split; [done|].
        exists key, questionVector. right. by exists index.
  - apply embedText_threw in Hembed
      as (detail & -> & [Hcalls1|(key & _ & Hcalls1)]);
      simpl in Hcalls1;
      (rewrite handleError_external by (by eexists _, _));
      intros [= <- <-].
    + exists (lit "HuggingFace error: Failed to generate embedding: "), detail,
        [].
      split; [done|]. split.
      { unfold logged. cbn [calls]. by rewrite Hcalls1, app_nil_r. }
      left. split; [done|]. by left.
    + exists (lit "HuggingFace error: Failed to generate embedding: "), detail,
        [embedding key].
      split; [done|]. split.
      { unfold logged. cbn [calls]. by rewrite Hcalls1. }
      left. split; [done|]. right. by exists key.
Qed.

End WithServices.


Lemma askHandler_failure_witness :
  ∃ (s' : @State Sample.services) step detail new,
    ErrorBody (lit "HuggingFace error: Failed to generate embedding: 503")
      None = ErrorBody (step ++ detail) None ∧
    calls s' = calls Sample.fresh ++ new ∧
    (step = lit "HuggingFace error: Failed to generate embedding: " ∨
     step = lit "Pinecone error: Failed to query vectors: " ∨
     step = lit "HuggingFace error: Failed to generate answer: ").
Proof.
  edestruct (@askHandler_failure Sample.services (Some (lit "boom"))
               (lit "boom") (mkAskRequest (lit "boom") 4) Sample.fresh)
    as (step & detail & new & Hbody & Hcalls & Hstep);
    [reflexivity | reflexivity | vm_compute; reflexivity | reflexivity |].
  eexists _, step, detail, new.
  split; [exact Hbody|]. split; [exact Hcalls|].
  destruct Hstep as [[-> _]|[[-> _]|[-> _]]]; auto.
Defined.

End ResponseProperties.

(** ** The prompt *)

Module PromptProperties.
Import Errors External Runtime Llm.

(** [hay.includes(needle)] *)
Definition includes (hay needle : jsstring) : Prop :=
  ∃ before after, hay = before ++ needle ++ after.

Lemma includes_app_r hay needle pre :
  includes hay needle → includes (pre ++ hay) needle.
Proof.
  intros (b & a & ->). exists (pre ++ b), a. by rewrite <- app_assoc.
Qed.

Lemma includes_app_l hay needle post :
  includes hay needle → includes (hay ++ post) needle.
Proof.
  intros (b & a & ->). exists b, (a ++ post). by rewrite <- !app_assoc.
Qed.

Lemma includes_refl s : includes s s.
Proof. exists [], []. by rewrite app_nil_r. Qed.

Lemma joinBlankLine_cons x y rest :
  joinBlankLine (x :: y :: rest) = x ++ [LF; LF] ++ joinBlankLine (y :: rest).
Proof. done. Qed.

(** Every part is in the joined text, and an earlier part comes before a
    later one. *)
Lemma joinBlankLine_includes parts i x :
  parts !! i = Some x → includes (joinBlankLine parts) x.
Proof.
  revert i. induction parts as [|p rest IH]; intros i; [done|].
  destruct rest as [|q rest].
  - destruct i as [|i]; [|done]. intros [= <-]. apply includes_refl.
  - rewrite joinBlankLine_cons. destruct i as [|i].
    + intros [= <-]. exists [], ([LF; LF] ++ joinBlankLine (q :: rest)). done.
    + intros Hx. apply includes_app_r, (includes_app_r _ _ [LF; LF]).
      by apply (IH i).
Qed.

Lemma joinBlankLine_ordered parts i j x y :
  (i < j)%nat → parts !! i = Some x → parts !! j = Some y →
  ∃ before between after,
    joinBlankLine parts = before ++ x ++ between ++ y ++ after.
Proof.
  revert i j. induction parts as [|p rest IH]; intros i j Hij; [done|].
  destruct rest as [|q rest].
  { destruct j as [|j]; [lia|]. by destruct i. }
  rewrite joinBlankLine_cons. destruct i as [|i].
  - intros [= <-]. destruct j as [|j]; [lia|]. intros Hy.
    apply (joinBlankLine_includes (q :: rest) j) in Hy as (b & a & ->).
    by exists [], ([LF; LF] ++ b), a.
  - destruct j as [|j]; [lia|]. intros Hx Hy.
    destruct (IH i j ltac:(lia) Hx Hy) as (b & m & a & ->).
    exists (p ++ [LF; LF] ++ b), m, a. by rewrite <- !app_assoc.
Qed.

Section WithServices.
Context `{Services}.

(** The fixed text that opens a prompt with matches. *)
Definition preamble : jsstring :=
  lit "Based on the following context documents, answer the question. If the answer cannot be found in the context, say " ++
  quote ++ lit "I don't have enough information to answer this question." ++
  quote ++ [LF; LF].

Lemma buildPrompt_matches question m rest :
  buildPrompt question (m :: rest) =
    preamble ++ lit "Context:" ++ [LF] ++
    joinBlankLine (imap contextEntry (m :: rest)) ++ [LF; LF] ++
    lit "Question: " ++ question.
Proof. unfold buildPrompt, preamble. by rewrite <- !app_assoc. Qed.

Lemma buildPrompt_no_match question :
  buildPrompt question [] =
    (lit "Question: " ++ question) ++ [LF; LF] ++
    lit "No context documents were found" ++
    lit ". Please indicate that you cannot answer without relevant documents.".
Proof. unfold buildPrompt. by rewrite <- !app_assoc. Qed.

#[local] Opaque preamble.

(** X17: what the prompt holds.  Without a match it opens with the
    question and says that no context was found.  With matches it ends
    with the question, and before it holds one entry for each match:
    the 1-based rank in brackets, the title in quotes, the score as a
    percentage with one decimal, and on the next line the text of the
    chunk; the entries come in the order of the matches. *)
Theorem buildPrompt_contents question matches :
  let prompt := buildPrompt question matches in
  let entry := λ (i : nat) (m : PineconeMatch.t),
    lit "[" ++ lit (pretty (i + 1)%nat) ++ lit "] " ++ quote ++
    Metadata.title (PineconeMatch.metadata m) ++ quote ++
    lit " (relevance: " ++
    Number_toFixed (PineconeMatch.score m * 100)%float 1 ++ lit "%):" ++
    [LF] ++ Metadata.chunkText (PineconeMatch.metadata m) in
  (matches = [] →
   (lit "Question: " ++ question) `prefix_of` prompt ∧
   includes prompt (lit "No context documents were found")) ∧
  (matches ≠ [] →
   (lit "Question: " ++ question) `suffix_of` prompt ∧
   includes prompt (lit "Context:")) ∧
  (∀ i m, matches !! i = Some m → includes prompt (entry i m)) ∧
  (∀ i j mi mj,
     (i < j)%nat → matches !! i = Some mi → matches !! j = Some mj →
     ∃ before between after,
       prompt = before ++ entry i mi ++ between ++ entry j mj ++ after).
Proof.
  intros prompt entry. subst prompt.
  change entry with contextEntry. clear entry.
  split; [|split; [|split]].
  - intros ->. rewrite buildPrompt_no_match. split.
    + by eexists.
    + eexists ((lit "Question: " ++ question) ++ [LF; LF]), _.
      by rewrite <- !app_assoc.
  - intros Hsome. destruct matches as [|m rest]; [done|].
    rewrite buildPrompt_matches. split.
    + eexists (preamble ++ lit "Context:" ++ [LF] ++
               joinBlankLine (imap contextEntry (m :: rest)) ++ [LF; LF]).
      by rewrite <- !app_assoc.
    + by exists preamble,
        ([LF] ++ joinBlankLine (imap contextEntry (m :: rest)) ++ [LF; LF] ++
         lit "Question: " ++ question).
  - intros i m Hm. destruct matches as [|m0 rest]; [done|].
    rewrite buildPrompt_matches.
    destruct (joinBlankLine_includes (imap contextEntry (m0 :: rest)) i
                (contextEntry i m)) as (b & a & ->);
      [by rewrite list_lookup_imap, Hm|].
    exists (preamble ++ lit "Context:" ++ [LF] ++ b),
           (a ++ [LF; LF] ++ lit "Question: " ++ question).
    by rewrite <- !app_assoc.
  - intros i j mi mj Hij Hi Hj. destruct matches as [|m0 rest]; [done|].
    rewrite buildPrompt_matches.
    destruct (joinBlankLine_ordered (imap contextEntry (m0 :: rest)) i j
                (contextEntry i mi) (contextEntry j mj) Hij)
      as (b & m & a & ->);
      [by rewrite list_lookup_imap, Hi | by rewrite list_lookup_imap, Hj|].
    exists (preamble ++ lit "Context:" ++ [LF] ++ b), m,
           (a ++ [LF; LF] ++ lit "Question: " ++ question).
    by rewrite <- !app_assoc.
Qed.

End WithServices.
End PromptProperties.
